(** * Semantic analysis core of Malloy: field spaces, expression operators
    and segment executors

    A shallow embedding of [packages/malloy/src/lang/ast/ast-main.ts] and of
    [expression-def.ts] (binary operator dispatch).  Objects are records,
    class hierarchies are inductive types, and every method that logs,
    throws or mutates its receiver is a computation in the monad [M] over
    an explicit world (diagnostic log plus the mutable objects).

    AST classes whose source files are not part of this development
    (expression nodes, [FieldName], [FieldReference], [Join],
    [ConstantSubExpression]) appear as records that carry their attributes
    and, for each method the modelled code calls, the behaviour of that
    method as an [Eval] program: a tree of the effects such a method can have
    on its caller (log, throw, look a name up in the field space it is given). *)

From Stdlib Require Import String Ascii List ZArith NArith Bool Arith Lia.
Import ListNotations.
#[global] Set Warnings "-register-all".

Open Scope list_scope.

Infix "+++" := String.append (right associativity, at level 60).

(** ** Diagnostics and AST element identity *)

(** An AST element is identified by the place the parser gave it; elements
    the analysis itself creates ([new ExprDuration(right, ...)]) have no
    place of their own and are identified by the child they wrap. *)
Inductive ElementId : Type :=
| Src (n : nat)
| Synth (child : ElementId).

(** [MalloyElement.log(msg)]: the message, attached to the element. *)
Record Diagnostic : Type := mkDiag { at_ : ElementId; message : string }.

(** ** The world and the computation monad *)

Record World (O : Type) : Type := mkWorld { log : list Diagnostic; objs : O }.
Arguments mkWorld {O} _ _.
Arguments log {O} _.
Arguments objs {O} _.

Inductive Result (A : Type) : Type :=
| Ok (a : A)
| Throw (msg : string).
Arguments Ok {A} _.
Arguments Throw {A} _.

Definition M (O A : Type) : Type := World O -> Result A * World O.

Definition ret {O A} (a : A) : M O A := fun w => (Ok a, w).

Definition bind {O A B} (m : M O A) (k : A -> M O B) : M O B :=
  fun w => match m w with
           | (Ok a, w') => k a w'
           | (Throw e, w') => (Throw e, w')
           end.

Definition throw {O A} (msg : string) : M O A := fun w => (Throw msg, w).

(** [try { m } catch (error) { h error.message }] *)
Definition try_catch {O A} (m : M O A) (h : string -> M O A) : M O A :=
  fun w => match m w with
           | (Ok a, w') => (Ok a, w')
           | (Throw e, w') => h e w'
           end.

Definition get {O} : M O O := fun w => (Ok (objs w), w).
Definition put {O} (o : O) : M O unit := fun w => (Ok tt, mkWorld (log w) o).
Definition modify {O} (f : O -> O) : M O unit :=
  fun w => (Ok tt, mkWorld (log w) (f (objs w))).

(** [el.log(msg)] *)
Definition log_at {O} (el : ElementId) (msg : string) : M O unit :=
  fun w => (Ok tt, mkWorld (log w ++ [mkDiag el msg]) (objs w)).

Declare Scope monad_scope.
Delimit Scope monad_scope with monad.
Notation "x <- m ;; k" := (bind m (fun x => k))
  (at level 61, m at next level, right associativity) : monad_scope.
Notation "m ;;; k" := (bind m (fun _ => k))
  (at level 61, right associativity) : monad_scope.
Open Scope monad_scope.

(** Run a computation on a component of the object state (a method call on
    a sub-object). *)
Definition zoom {O P A} (getp : O -> P) (setp : P -> O -> O) (m : M P A) : M O A :=
  fun w => match m (mkWorld (log w) (getp (objs w))) with
           | (r, w') => (r, mkWorld (log w') (setp (objs w') (objs w)))
           end.

(** Run a computation that owns an extra local object [S] (one created by
    [new] for the duration of a call); the local object is handed back with
    the result. *)
Definition with_local {O S A} (s0 : S) (m : M (O * S) A) : M O (A * S) :=
  fun w => match m (mkWorld (log w) (objs w, s0)) with
           | (Ok a, w') => (Ok (a, snd (objs w')), mkWorld (log w') (fst (objs w')))
           | (Throw e, w') => (Throw e, mkWorld (log w') (fst (objs w')))
           end.

(** [for (const x of xs) body(x)] *)
Fixpoint for_each {O A} (xs : list A) (body : A -> M O unit) : M O unit :=
  match xs with
  | [] => ret tt
  | x :: rest => body x ;;; for_each rest body
  end.

(** [xs.map(f)] for an effectful [f], left to right. *)
Fixpoint map_m {O A B} (f : A -> M O B) (xs : list A) : M O (list B) :=
  match xs with
  | [] => ret []
  | x :: rest => y <- f x ;; ys <- map_m f rest ;; ret (y :: ys)
  end.

(** JavaScript truthiness of a string and of a number used as a condition. *)
Definition truthy_string (s : string) : bool := negb (String.eqb s "").
Definition truthy_number (z : Z) : bool := negb (Z.eqb z 0).
Definition truthy_opt_number (z : option Z) : bool :=
  match z with Some n => truthy_number n | None => false end.

(** [a || b] on optional strings. *)
Definition or_string (a : option string) (b : string) : string :=
  match a with
  | Some s => if truthy_string s then s else b
  | None => b
  end.

(** ** The value and plan model ([model/malloy_types]) *)

(** The type declarations of the model layer are not among the modelled
    sources; the types below follow the data model the analysis code reads
    and writes field by field. *)

Inductive FieldValueType : Type :=
| TString | TNumber | TBoolean | TDate | TTimestamp | TRegex | TNull
| TUnsupported | TDuration | TUnknown | TError | TStruct | TTurtle.

Definition FieldValueType_eqb (a b : FieldValueType) : bool :=
  match a, b with
  | TString, TString | TNumber, TNumber | TBoolean, TBoolean | TDate, TDate
  | TTimestamp, TTimestamp | TRegex, TRegex | TNull, TNull
  | TUnsupported, TUnsupported | TDuration, TDuration | TUnknown, TUnknown
  | TError, TError | TStruct, TStruct | TTurtle, TTurtle => true
  | _, _ => false
  end.

(** The type's name as it is interpolated into a message. *)
Definition typeName (t : FieldValueType) : string :=
  match t with
  | TString => "string" | TNumber => "number" | TBoolean => "boolean"
  | TDate => "date" | TTimestamp => "timestamp"
  | TRegex => "regular expression" | TNull => "null"
  | TUnsupported => "unsupported" | TDuration => "duration"
  | TUnknown => "unknown" | TError => "error" | TStruct => "struct"
  | TTurtle => "turtle"
  end.

Inductive ExpressionType : Type :=
| scalar | aggregate | analytic | ungrouped_aggregate.

Inductive EvalSpace : Type := constant | literal | input | output.

Inductive TimestampUnit : Type :=
| second | minute | hour | day | week | month | quarter | year.

Definition TimestampUnit_eqb (a b : TimestampUnit) : bool :=
  match a, b with
  | second, second | minute, minute | hour, hour | day, day | week, week
  | month, month | quarter, quarter | year, year => true
  | _, _ => false
  end.

(** Plan fragments.  [Expr] is an array of fragments: literal SQL text or a
    dialect call. *)
Inductive Fragment : Type :=
| FString (s : string)
| FRegexpMatch (expr regexp : list Fragment)
| FDiv (numerator denominator : list Fragment)
| FOther (tag : string) (args : list (list Fragment)).

Definition Expr : Type := list Fragment.

(** Modelled from the spec: [expressionIsAggregate], [expressionIsAnalytic]
    and [expressionIsCalculation] of [model/malloy_types] (absent): the
    kinds are scalar, aggregate, analytic and ungrouped_aggregate, and a
    calculation is any kind that is not scalar.  An absent expression type
    ([undefined]) is none of them. *)
Definition expressionIsAggregate (e : option ExpressionType) : bool :=
  match e with
  | Some aggregate | Some ungrouped_aggregate => true
  | _ => false
  end.

Definition expressionIsAnalytic (e : option ExpressionType) : bool :=
  match e with Some analytic => true | _ => false end.

Definition expressionIsCalculation (e : option ExpressionType) : bool :=
  expressionIsAggregate e || expressionIsAnalytic e.

Definition ExpressionType_rank (e : ExpressionType) : nat :=
  match e with
  | scalar => 0 | aggregate => 1 | analytic => 2 | ungrouped_aggregate => 3
  end.

(** Modelled from the spec: [maxExpressionType] (absent): "yields the
    most-derived kind; mixing scalar with aggregate gives aggregate;
    aggregate with analytic gives analytic; any with ungrouped_aggregate
    gives ungrouped_aggregate". *)
Definition maxExpressionType (a b : ExpressionType) : ExpressionType :=
  if ExpressionType_rank a <? ExpressionType_rank b then b else a.

(** Modelled from the spec: [maxOfExpressionTypes] (absent), the maximum of
    a list of kinds; scalar is the least kind. *)
Definition maxOfExpressionTypes (es : list ExpressionType) : ExpressionType :=
  fold_left maxExpressionType es scalar.

Definition EvalSpace_rank (e : EvalSpace) : nat :=
  match e with constant => 0 | literal => 1 | input => 2 | output => 3 end.

(** Modelled from the spec: [mergeEvalSpaces] (absent): "returns the max
    along the eval-space lattice (constant < literal < input < output)". *)
Definition mergeEvalSpaces (es : list EvalSpace) : EvalSpace :=
  fold_left (fun a b => if EvalSpace_rank a <? EvalSpace_rank b then b else a)
            es constant.

(** Modelled from the spec: [isTimeFieldType] (absent): the time types are
    date and timestamp. *)
Definition isTimeFieldType (t : FieldValueType) : bool :=
  match t with TDate | TTimestamp => true | _ => false end.

Record FilterExpression : Type := mkFilterExpression {
  fe_code : string;
  fe_expression : Expr;
  fe_expressionType : ExpressionType
}.

Inductive OrderField : Type := OrderName (s : string) | OrderIndex (n : Z).
Inductive Direction : Type := asc | desc.
Record OrderBy : Type := mkOrderBy { ob_field : OrderField; ob_dir : option Direction }.

Inductive By : Type :=
| ByName (name : string)
| ByExpression (e : Expr).

Inductive Sampling : Type :=
| SampleEnable (b : bool) | SampleRows (n : Z) | SamplePercent (n : Z).

Inductive Param : Type :=
| ValueParameter (name : string) (type : FieldValueType) (value : option Expr)
                 (constant_ : bool)
| ConditionParameter (name : string) (type : FieldValueType)
                     (condition : option Expr).

Definition Location : Type := ElementId.

(** An atomic column or expression field. *)
Record FieldTypeDef : Type := mkFieldTypeDef {
  ftd_name : string;
  ftd_as : option string;
  ftd_type : FieldValueType;
  ftd_e : option Expr;
  ftd_expressionType : option ExpressionType;
  ftd_code : option string;
  ftd_timeframe : option TimestampUnit;
  ftd_location : option Location
}.

Record FilteredAliasedName : Type := mkFilteredAliasedName {
  fan_name : string;
  fan_as : option string;
  fan_filterList : option (list FilterExpression)
}.

Inductive StructSource : Type := SrcTable | SrcSql | SrcQuery | SrcNested.
Inductive StructRelationship : Type :=
| RelBasetable | RelJoin (onExpression : option Expr) | RelNested | RelInline.

Inductive QuerySegmentType : Type := reduce | project.

(** [FieldDef], [StructDef], [TurtleDef], [QueryFieldDef] and [PipeSegment]
    refer to each other: a struct holds fields, a turtle holds a pipeline,
    a segment holds query fields, which may be turtles. *)
Inductive FieldDef : Type :=
| AtomicDef (d : FieldTypeDef)
| StructField (s : StructDef)
| TurtleField (t : TurtleDef)
with StructDef : Type :=
| mkStructDef (name : string) (as_ : option string) (dialect : string)
              (fields : list FieldDef)
              (parameters : option (list (string * Param)))
              (filterList : option (list FilterExpression))
              (primaryKey : option string)
              (structSource : StructSource)
              (structRelationship : StructRelationship)
              (location : option Location)
with TurtleDef : Type :=
| mkTurtleDef (name : string) (as_ : option string)
              (pipeline : list PipeSegment) (location : option Location)
with QueryFieldDef : Type :=
| QName (s : string)
| QFiltered (f : FilteredAliasedName)
| QField (d : FieldDef)
with PipeSegment : Type :=
| QuerySegment (type : QuerySegmentType) (fields : list QueryFieldDef)
               (orderBy : option (list OrderBy)) (by_ : option By)
               (limit : option Z)
               (filterList : option (list FilterExpression))
               (extendSource : option (list FieldDef))
| IndexSegment (fields : list string) (weightMeasure : option string)
               (sample : option Sampling)
               (filterList : option (list FilterExpression))
               (limit : option Z).

Definition sd_name (s : StructDef) := let 'mkStructDef n _ _ _ _ _ _ _ _ _ := s in n.
Definition sd_as (s : StructDef) := let 'mkStructDef _ a _ _ _ _ _ _ _ _ := s in a.
Definition sd_dialect (s : StructDef) := let 'mkStructDef _ _ d _ _ _ _ _ _ _ := s in d.
Definition sd_fields (s : StructDef) := let 'mkStructDef _ _ _ f _ _ _ _ _ _ := s in f.
Definition sd_parameters (s : StructDef) := let 'mkStructDef _ _ _ _ p _ _ _ _ _ := s in p.
Definition sd_filterList (s : StructDef) := let 'mkStructDef _ _ _ _ _ f _ _ _ _ := s in f.
Definition sd_location (s : StructDef) := let 'mkStructDef _ _ _ _ _ _ _ _ _ l := s in l.

(** [{...s, fields}], [{...s, parameters}], [{...s, as, location}] *)
Definition sd_with_fields (s : StructDef) (f : list FieldDef) : StructDef :=
  let 'mkStructDef n a d _ p fl pk ss sr l := s in mkStructDef n a d f p fl pk ss sr l.
Definition sd_with_parameters (s : StructDef) (p : option (list (string * Param))) : StructDef :=
  let 'mkStructDef n a d f _ fl pk ss sr l := s in mkStructDef n a d f p fl pk ss sr l.
Definition sd_with_as_location (s : StructDef) (a : string) (l : Location) : StructDef :=
  let 'mkStructDef n _ d f p fl pk ss sr _ := s in
  mkStructDef n (Some a) d f p fl pk ss sr (Some l).

Definition td_name (t : TurtleDef) := let 'mkTurtleDef n _ _ _ := t in n.
Definition td_as (t : TurtleDef) := let 'mkTurtleDef _ a _ _ := t in a.
Definition td_with_as (t : TurtleDef) (a : string) : TurtleDef :=
  let 'mkTurtleDef n _ p l := t in mkTurtleDef n (Some a) p l.
Definition td_with_as_location (t : TurtleDef) (a : string) (l : Location) : TurtleDef :=
  let 'mkTurtleDef n _ p _ := t in mkTurtleDef n (Some a) p (Some l).

Definition ftd_with_as_location (d : FieldTypeDef) (a : string) (l : Location) : FieldTypeDef :=
  mkFieldTypeDef (ftd_name d) (Some a) (ftd_type d) (ftd_e d)
                 (ftd_expressionType d) (ftd_code d) (ftd_timeframe d) (Some l).

(** [f.as || f.name], the name a field goes by. *)
Definition fieldDef_name (f : FieldDef) : string :=
  match f with
  | AtomicDef d => or_string (ftd_as d) (ftd_name d)
  | StructField s => or_string (sd_as s) (sd_name s)
  | TurtleField t => or_string (td_as t) (td_name t)
  end.

(** [{...f, as, location}] *)
Definition fieldDef_with_as_location (f : FieldDef) (a : string) (l : Location) : FieldDef :=
  match f with
  | AtomicDef d => AtomicDef (ftd_with_as_location d a l)
  | StructField s => StructField (sd_with_as_location s a l)
  | TurtleField t => TurtleField (td_with_as_location t a l)
  end.

(** [qd.type] and [qd.expressionType] of a query field that is a definition. *)
Definition fieldDef_type (f : FieldDef) : FieldValueType :=
  match f with
  | AtomicDef d => ftd_type d
  | StructField _ => TStruct
  | TurtleField _ => TTurtle
  end.

Definition fieldDef_expressionType (f : FieldDef) : option ExpressionType :=
  match f with
  | AtomicDef d => ftd_expressionType d
  | _ => None
  end.

Definition seg_fields_query (s : PipeSegment) : list QueryFieldDef :=
  match s with
  | QuerySegment _ f _ _ _ _ _ => f
  | IndexSegment f _ _ _ _ => map QName f
  end.
Definition seg_orderBy (s : PipeSegment) : option (list OrderBy) :=
  match s with QuerySegment _ _ o _ _ _ _ => o | IndexSegment _ _ _ _ _ => None end.
Definition seg_by (s : PipeSegment) : option By :=
  match s with QuerySegment _ _ _ b _ _ _ => b | IndexSegment _ _ _ _ _ => None end.
Definition seg_limit (s : PipeSegment) : option Z :=
  match s with QuerySegment _ _ _ _ l _ _ => l | IndexSegment _ _ _ _ l => l end.
Definition seg_filterList (s : PipeSegment) : option (list FilterExpression) :=
  match s with
  | QuerySegment _ _ _ _ _ f _ => f
  | IndexSegment _ _ _ f _ => f
  end.
Definition seg_extendSource (s : PipeSegment) : option (list FieldDef) :=
  match s with QuerySegment _ _ _ _ _ _ x => x | IndexSegment _ _ _ _ _ => None end.
Definition seg_sample (s : PipeSegment) : option Sampling :=
  match s with QuerySegment _ _ _ _ _ _ _ => None | IndexSegment _ _ s _ _ => s end.

(** [seg.type], as interpolated into a message. *)
Definition seg_typeName (s : PipeSegment) : string :=
  match s with
  | QuerySegment reduce _ _ _ _ _ _ => "reduce"
  | QuerySegment project _ _ _ _ _ _ => "project"
  | IndexSegment _ _ _ _ _ => "index"
  end.

(** ** The value of an expression *)

Record ExprValue : Type := mkExprValue {
  dataType : FieldValueType;
  expressionType : ExpressionType;
  evalSpace : EvalSpace;
  value : Expr;
  morphic : option (list (FieldValueType * Expr));
  timeframe : option TimestampUnit;
  rawType : option string
}.

(** An object literal [{dataType, expressionType, evalSpace, value}]. *)
Definition plainValue (t : FieldValueType) (et : ExpressionType)
           (es : EvalSpace) (v : Expr) : ExprValue :=
  mkExprValue t et es v None None None.

(** [{...v, dataType: t}] *)
Definition with_dataType (v : ExprValue) (t : FieldValueType) : ExprValue :=
  mkExprValue t (expressionType v) (evalSpace v) (value v) (morphic v)
              (timeframe v) (rawType v).

(** Modelled from the spec: [isGranularResult] (absent): "a granular result
    is a time value with a timeframe attached". *)
Definition isGranularResult (v : ExprValue) : bool :=
  match timeframe v with Some _ => true | None => false end.

(** ** AST nodes with behaviour supplied from outside *)

(** [FieldName]: a name in the source text. *)
Record FieldName : Type := mkFieldName { fn_id : ElementId; refString : string }.

(** The class of a space entry, which is what a caller of [lookup] tests
    with [instanceof]. *)
Inductive EntryClass : Type :=
| CColumn | CStruct | CJoin | CQueryStruct | CQueryAST | CExpression
| CRename | CReference | CWild | CDefinedParameter | CAbstractParameter.

(** [LookupResult] as an expression node sees it: the entry found (by its
    class) or an error message. *)
Record LookupView : Type := mkLookupView {
  lv_found : option EntryClass;
  lv_error : option string
}.

(** The behaviour of a method of an AST node that lives outside the
    modelled files: it may return, throw, log at some element, or ask the
    field space it was handed to look a path up and go on from the answer. *)
Inductive Eval (A : Type) : Type :=
| Ret (a : A)
| Raise (msg : string)
| LogAt (el : ElementId) (msg : string) (k : Eval A)
| Lookup (path : list FieldName) (k : LookupView -> Eval A).
Arguments Ret {A} _.
Arguments Raise {A} _.
Arguments LogAt {A} _ _ _.
Arguments Lookup {A} _ _.

(** The [FieldSpace] interface as far as the modelled code uses it on a
    space it did not create: [lookup], and whether the space is a
    [DefSpace] (then its [foundCircle] flag can be read). *)
Record FieldSpace (O : Type) : Type := mkFieldSpace {
  fs_lookup : list FieldName -> M O LookupView;
  fs_foundCircle : option (O -> bool)
}.
Arguments mkFieldSpace {O} _ _.
Arguments fs_lookup {O} _ _ _.
Arguments fs_foundCircle {O} _.

Fixpoint run_eval {O A} (fs : FieldSpace O) (p : Eval A) : M O A :=
  match p with
  | Ret a => ret a
  | Raise msg => throw msg
  | LogAt el msg k => log_at el msg ;;; run_eval fs k
  | Lookup path k => r <- fs_lookup fs path ;; run_eval fs (k r)
  end.

(** Expression nodes.  [ExprDuration] is the one subclass defined next to
    the operator dispatcher; every other node is an [ExprNode], known by
    its [getExpression]. *)
Inductive ExpressionDef : Type :=
| ExprNode (id : ElementId) (getExpr : Eval ExprValue)
| ExprDuration (id : ElementId) (n : ExpressionDef) (tf : TimestampUnit).

Definition expr_id (e : ExpressionDef) : ElementId :=
  match e with ExprNode id _ => id | ExprDuration id _ _ => id end.

Definition unitName (u : TimestampUnit) : string :=
  match u with
  | second => "second" | minute => "minute" | hour => "hour" | day => "day"
  | week => "week" | month => "month" | quarter => "quarter" | year => "year"
  end.

(** [e.getExpression(fs)]; for a duration it is the constant
    [{dataType: 'duration', expressionType: 'scalar', value: [...],
    evalSpace: 'constant'}]. *)
Definition getExpression {O} (e : ExpressionDef) (fs : FieldSpace O) : M O ExprValue :=
  match e with
  | ExprNode _ p => run_eval fs p
  | ExprDuration _ _ _ =>
      ret (plainValue TDuration scalar constant
                      [FString "__ERROR_DURATION_IS_NOT_A_VALUE__"])
  end.

(** ** The binary operator dispatcher ([expression-def.ts]) *)

(** Helpers imported by the dispatcher from files outside the modelled
    sources ([expressions/utils], [time-utils], [ast-utils],
    [fragtype-utils], [model/malloy_types]). *)
Class EvaluatorDeps : Type := {
  compose : Expr -> string -> Expr -> Expr;
  nullsafeNot : Expr -> string -> Expr;
  timeOffset : FieldValueType -> Expr -> string -> Expr -> TimestampUnit -> Expr;
  timeResult : ExprValue -> option TimestampUnit -> ExprValue;
  errorFor : string -> ExprValue;
  FT_in : ExprValue -> list FieldValueType -> bool;
  FT_typeEq : ExprValue -> FieldValueType -> bool;
  FT_inspect : ExprValue -> string;
  isDateUnit : TimestampUnit -> bool
}.

(** Modelled from the spec: [isEquality] and [isComparison] (absent): the
    operator classes of the dispatcher, equality [=], [!=], [~], [!~] and
    comparison [<], [<=], [>], [>=]. *)
Definition oneOf (op : string) (operators : list string) : bool :=
  existsb (String.eqb op) operators.
Definition isEquality (op : string) : bool := oneOf op ["="; "!="; "~"; "!~"]%string.
Definition isComparison (op : string) : bool := oneOf op ["<"; "<="; ">"; ">="]%string.

Definition is_type (v : ExprValue) (t : FieldValueType) : bool :=
  FieldValueType_eqb (dataType v) t.

Fixpoint assoc_type (t : FieldValueType) (m : list (FieldValueType * Expr)) : option Expr :=
  match m with
  | [] => None
  | (k, v) :: rest => if FieldValueType_eqb k t then Some v else assoc_type t rest
  end.

Definition willMorphTo (ev : ExprValue) (t : FieldValueType) : option Expr :=
  if is_type ev t then Some (value ev)
  else match morphic ev with
       | Some m => assoc_type t m
       | None => None
       end.

Definition regexEqual (left right : ExprValue) : option Expr :=
  if is_type left TString then
    if is_type right TRegex then Some [FRegexpMatch (value left) (value right)]
    else None
  else if is_type right TString then
    if is_type left TRegex then Some [FRegexpMatch (value right) (value left)]
    else None
  else None.

Definition nullCompare (left : ExprValue) (op : string) (right : ExprValue) : option Expr :=
  let not_ := (String.eqb op "!=" || String.eqb op "!~")%bool in
  if (is_type left TNull || is_type right TNull)%bool then
    let maybeNot := if not_ then " NOT"%string else ""%string in
    if negb (is_type left TNull) then
      Some (value left ++ [FString (" IS" +++ maybeNot +++ " NULL")])
    else if negb (is_type right TNull) then
      Some (value right ++ [FString ("IS" +++ maybeNot +++ " NULL")])
    else Some [FString (if not_ then "false" else "true")]
  else None.

Definition allAre (oneType : FieldValueType) (values : list ExprValue) : bool :=
  forallb (fun v => is_type v oneType) values.

Definition errorCascade (dt : FieldValueType) (es : list ExprValue) : option ExprValue :=
  if existsb (fun e => is_type e TError) es then
    Some (plainValue dt (maxOfExpressionTypes (map expressionType es))
                     (mergeEvalSpaces (map evalSpace es))
                     [FString "'cascading error'"])
  else None.

Section Dispatcher.
Context {X : EvaluatorDeps} {O : Type} (fs : FieldSpace O).

(** [typeCheck] of a node whose element type and legal child types are
    given. *)
Definition typeCheck (elementType : string) (legalChildTypes : list FieldValueType)
           (eNode : ElementId) (eVal : ExprValue) : M O bool :=
  if (negb (is_type eVal TError) && negb (FT_in eVal legalChildTypes))%bool then
    log_at eNode ("'" +++ elementType +++ "' Can't use type " +++ FT_inspect eVal) ;;;
    ret false
  else ret true.

Definition unsupportError (l : ExpressionDef) (lhs : ExprValue)
           (r : ExpressionDef) (rhs : ExprValue) : M O (option ExprValue) :=
  let ret_ := plainValue (dataType lhs)
                (maxExpressionType (expressionType lhs) (expressionType rhs))
                (mergeEvalSpaces [evalSpace lhs; evalSpace rhs])
                [FString "'unsupported operation'"] in
  if is_type lhs TUnsupported then
    log_at (expr_id l) "Unsupported type not allowed in expression" ;;;
    ret (Some (with_dataType ret_ (dataType rhs)))
  else if is_type rhs TUnsupported then
    log_at (expr_id r) "Unsupported type not allowed in expression" ;;;
    ret (Some ret_)
  else ret None.

Definition timeCompare (left : ExpressionDef) (lhs : ExprValue) (op : string)
           (rhs : ExprValue) : M O (option Expr) :=
  let leftIsTime := isTimeFieldType (dataType lhs) in
  let rightIsTime := isTimeFieldType (dataType rhs) in
  let tail : M O (option Expr) :=
    if ((leftIsTime || rightIsTime) && negb (is_type lhs TNull)
        && negb (is_type rhs TNull))%bool then
      log_at (expr_id left)
             ("Cannot compare a " +++ typeName (dataType lhs) +++ " to a "
              +++ typeName (dataType rhs)) ;;;
      ret (Some [FString "false"])
    else ret None in
  if (leftIsTime && rightIsTime)%bool then
    if negb (FieldValueType_eqb (dataType lhs) (dataType rhs)) then
      match willMorphTo lhs TTimestamp, willMorphTo rhs TTimestamp with
      | Some lval, Some rval => ret (Some (compose lval op rval))
      | _, _ => tail
      end
    else ret (Some (compose (value lhs) op (value rhs)))
  else tail.

(** [timeCompare(left, lhs, op, rhs) || compose(lhs.value, op, rhs.value)] *)
Definition compareValue (left : ExpressionDef) (lhs : ExprValue) (op : string)
           (rhs : ExprValue) : M O Expr :=
  tc <- timeCompare left lhs op rhs ;;
  ret (match tc with Some v => v | None => compose (value lhs) op (value rhs) end).

Definition equality (left : ExpressionDef) (op : string) (right : ExpressionDef)
  : M O ExprValue :=
  lhs <- getExpression left fs ;;
  rhs <- getExpression right fs ;;
  match errorCascade TBoolean [lhs; rhs] with
  | Some err => ret err
  | None =>
    let rest : M O ExprValue :=
      value0 <- compareValue left lhs op rhs ;;
      value1 <-
        (if (negb (is_type lhs TError) && negb (is_type rhs TError))%bool then
           if (String.eqb op "~" || String.eqb op "!~")%bool then
             v <- (if (is_type lhs TString && is_type rhs TString)%bool then
                     ret (compose (value lhs) "LIKE" (value rhs))
                   else match regexEqual lhs rhs with
                        | None => throw "Incompatible types for match('~') operator"
                        | Some regexCmp => ret regexCmp
                        end) ;;
             ret (nullsafeNot v op)
           else if (String.eqb op "=" || String.eqb op "!=")%bool then
             match nullCompare lhs op rhs with
             | Some nullCmp => ret nullCmp
             | None =>
                 ret (nullsafeNot
                        (match regexEqual lhs rhs with
                         | Some re => re
                         | None => compose (value lhs) "=" (value rhs)
                         end) op)
             end
           else ret value0
         else ret value0) ;;
      ret (plainValue TBoolean
             (maxExpressionType (expressionType lhs) (expressionType rhs))
             (mergeEvalSpaces [evalSpace lhs; evalSpace rhs]) value1) in
    let checkUnsupport := (is_type lhs TUnsupported || is_type rhs TUnsupported)%bool in
    if checkUnsupport then
      let oneNull := (is_type lhs TNull || is_type rhs TNull)%bool in
      let rawMatch := match rawType lhs with
                      | Some s => (truthy_string s &&
                                   match rawType rhs with
                                   | Some s' => String.eqb s s'
                                   | None => false
                                   end)%bool
                      | None => false
                      end in
      if negb (oneNull || rawMatch) then
        noGo <- unsupportError left lhs right rhs ;;
        match noGo with
        | Some n => ret (with_dataType n TBoolean)
        | None => rest
        end
      else rest
    else rest
  end.

Definition compare (left : ExpressionDef) (op : string) (right : ExpressionDef)
  : M O ExprValue :=
  lhs <- getExpression left fs ;;
  rhs <- getExpression right fs ;;
  match errorCascade TBoolean [lhs; rhs] with
  | Some err => ret err
  | None =>
    let expressionType_ := maxExpressionType (expressionType lhs) (expressionType rhs) in
    noCompare <- unsupportError left lhs right rhs ;;
    match noCompare with
    | Some n => ret (with_dataType n TBoolean)
    | None =>
        v <- compareValue left lhs op rhs ;;
        ret (plainValue TBoolean expressionType_
                        (mergeEvalSpaces [evalSpace lhs; evalSpace rhs]) v)
    end
  end.

Definition numeric (left : ExpressionDef) (op : string) (right : ExpressionDef)
  : M O ExprValue :=
  lhs <- getExpression left fs ;;
  rhs <- getExpression right fs ;;
  match errorCascade TNumber [lhs; rhs] with
  | Some err => ret err
  | None =>
    noGo <- unsupportError left lhs right rhs ;;
    match noGo with
    | Some n => ret n
    | None =>
      let expressionType_ := maxExpressionType (expressionType lhs) (expressionType rhs) in
      if allAre TNumber [lhs; rhs] then
        ret (plainValue TNumber expressionType_
                        (mergeEvalSpaces [evalSpace lhs; evalSpace rhs])
                        (compose (value lhs) op (value rhs)))
      else
        log_at (expr_id left)
               ("Non numeric('" +++ typeName (dataType lhs) +++ ","
                +++ typeName (dataType rhs) +++ "') value with '" +++ op +++ "'") ;;;
        ret (errorFor "numbers required")
    end
  end.

(** The dispatcher and [apply] call each other; [applyBinary_] stands
    for the dispatcher one call deeper. *)
Section OpenRecursion.
Variable applyBinary_ : ExpressionDef -> string -> ExpressionDef -> M O ExprValue.

(** [ExprDuration.apply(fs, op, left)] for the duration node [this_]
    with amount [n] and unit [tf]. *)
Definition ExprDuration_apply (this_ : ExpressionDef) (id : ElementId)
           (n : ExpressionDef) (tf : TimestampUnit)
           (op : string) (left : ExpressionDef) : M O ExprValue :=
  lhs <- getExpression left fs ;;
  _ <- typeCheck "duration" [TTimestamp; TDate] id lhs ;;
  if (isTimeFieldType (dataType lhs) && (String.eqb op "+" || String.eqb op "-"))%bool then
    num <- getExpression n fs ;;
    if negb (FT_typeEq num TNumber) then
      log_at id ("Duration units needs number not '" +++ typeName (dataType num)) ;;;
      ret (errorFor "illegal unit expression")
    else
      let resultGranularity :=
        match timeframe lhs with
        | Some u => if TimestampUnit_eqb u tf then Some u else None
        | None => None
        end in
      if is_type lhs TTimestamp then
        ret (timeResult
               (plainValue TTimestamp
                  (maxExpressionType (expressionType lhs) (expressionType num))
                  (mergeEvalSpaces [evalSpace lhs; evalSpace num])
                  (timeOffset TTimestamp (value lhs) op (value num) tf))
               resultGranularity)
      else if isDateUnit tf then
        ret (timeResult
               (plainValue TDate
                  (maxExpressionType (expressionType lhs) (expressionType num))
                  (mergeEvalSpaces [evalSpace lhs; evalSpace num])
                  (timeOffset TDate (value lhs) op (value num) tf))
               resultGranularity)
      else
        log_at id ("Cannot offset date by " +++ unitName tf) ;;;
        ret (errorFor "ofsset date error")
  else applyBinary_ left op this_.

(** [this.apply(fs, op, left)]: the default builds [left op this]. *)
Definition apply (this_ : ExpressionDef) (op : string) (left : ExpressionDef)
  : M O ExprValue :=
  match this_ with
  | ExprDuration id n tf => ExprDuration_apply this_ id n tf op left
  | ExprNode _ _ => applyBinary_ left op this_
  end.

Definition delta (left : ExpressionDef) (op : string) (right : ExpressionDef)
  : M O ExprValue :=
  lhs <- getExpression left fs ;;
  rhs <- getExpression right fs ;;
  noGo <- unsupportError left lhs right rhs ;;
  match noGo with
  | Some n => ret n
  | None =>
    let timeLHS := isTimeFieldType (dataType lhs) in
    match errorCascade (if timeLHS then TError else TNumber) [lhs; rhs] with
    | Some err => ret err
    | None =>
      if timeLHS then
        if negb (is_type rhs TDuration) then
          match timeframe lhs with
          | Some u =>
              apply (ExprDuration (Synth (expr_id right)) right u) op left
          | None =>
              if is_type lhs TDate then
                apply (ExprDuration (Synth (expr_id right)) right day) op left
              else
                log_at (expr_id left)
                       ("Can not offset time by '" +++ typeName (dataType rhs) +++ "'") ;;;
                ret (errorFor ("time plus " +++ typeName (dataType rhs)))
          end
        else apply right op left
      else numeric left op right
    end
  end.

Definition applyBinary_body (left : ExpressionDef) (op : string)
           (right : ExpressionDef) : M O ExprValue :=
  if isEquality op then equality left op right
  else if isComparison op then compare left op right
  else if oneOf op ["+"; "-"]%string then delta left op right
  else if oneOf op ["*"; "%"]%string then numeric left op right
  else if oneOf op ["/"]%string then
    num <- getExpression left fs ;;
    denom <- getExpression right fs ;;
    noGo <- unsupportError left num right denom ;;
    match noGo with
    | Some n =>
        log_at (expr_id left) "Cannot operate with unsupported type" ;;; ret n
    | None =>
      match errorCascade TNumber [num; denom] with
      | Some err => ret err
      | None =>
        if negb (is_type num TNumber) then
          log_at (expr_id left) "Numerator for division must be a number" ;;;
          ret (errorFor "divide type mismatch")
        else if negb (is_type denom TNumber) then
          log_at (expr_id right) "Denominator for division must be a number" ;;;
          ret (errorFor "divide type mismatch")
        else
          ret (plainValue TNumber
                 (maxExpressionType (expressionType num) (expressionType denom))
                 (mergeEvalSpaces [evalSpace num; evalSpace denom])
                 [FDiv (value num) (value denom)])
      end
    end
  else
    log_at (expr_id left) ("Cannot use " +++ op +++ " operator here") ;;;
    ret (errorFor "applybinary bad operator").
End OpenRecursion.

(** [applyBinary(fs, left, op, right)].  [depth] bounds the nesting of
    [applyBinary] and [apply] calls, as the call stack does: running out
    is the engine's RangeError. *)
Fixpoint applyBinary (depth : nat) (left : ExpressionDef) (op : string)
         (right : ExpressionDef) {struct depth} : M O ExprValue :=
  match depth with
  | 0 => throw "Maximum call stack size exceeded"
  | S d => applyBinary_body (applyBinary d) left op right
  end.
End Dispatcher.

(** The five operator classes the dispatcher knows. *)
Definition isAdditive (op : string) : bool := oneOf op ["+"; "-"]%string.
Definition isMultiplicative (op : string) : bool := oneOf op ["*"; "%"]%string.
Definition isDivision (op : string) : bool := oneOf op ["/"]%string.
Definition isBinaryOperator (op : string) : bool :=
  (isEquality op || isComparison op || isAdditive op || isMultiplicative op
   || isDivision op)%bool.

(** The data type of the value the dispatcher answers with when an operand
    is in error: the result type of the operator class. *)
Definition cascadeType (op : string) (lhs : ExprValue) : FieldValueType :=
  if (isEquality op || isComparison op)%bool then TBoolean
  else if isAdditive op then
         if isTimeFieldType (dataType lhs) then TError else TNumber
  else TNumber.

(** A stand-in for the helper modules, used to run the dispatcher on
    concrete operands. *)
Definition sampleDeps : EvaluatorDeps := {|
  compose := fun l op r => l ++ [FString op] ++ r;
  nullsafeNot := fun e op => if (String.eqb op "!=" || String.eqb op "!~")%bool
                             then [FOther "not" [e]] else e;
  timeOffset := fun _ l op n u => [FOther "timeOffset" [l; [FString op]; n; [FString (unitName u)]]];
  timeResult := fun v g => mkExprValue (dataType v) (expressionType v) (evalSpace v)
                                       (value v) (morphic v) g (rawType v);
  errorFor := fun reason => plainValue TError scalar constant [FString ("_ERROR_" +++ reason)];
  FT_in := fun v ts => existsb (FieldValueType_eqb (dataType v)) ts;
  FT_typeEq := fun v t => FieldValueType_eqb (dataType v) t;
  FT_inspect := fun v => typeName (dataType v);
  isDateUnit := fun u => match u with
                         | day | week | month | quarter | year => true
                         | _ => false
                         end
|}.

(** A field space in which nothing is defined. *)
Definition emptyFieldSpace : FieldSpace unit :=
  mkFieldSpace (fun path => ret (mkLookupView None (Some "not defined"%string))) None.

Definition world0 : World unit := mkWorld [] tt.

(** Operands for concrete runs: a node whose value is in error (it logged
    its own diagnostic), and numeric, aggregate and unsupported nodes. *)
Definition errorNode : ExpressionDef :=
  ExprNode (Src 1)
    (LogAt (Src 1) "'x' is not defined"
       (Ret (plainValue TError scalar constant [FString "_ERROR_undefined"]))).
Definition numberNode : ExpressionDef :=
  ExprNode (Src 2) (Ret (plainValue TNumber aggregate input [FString "sum(n)"])).
Definition unsupportedNode : ExpressionDef :=
  ExprNode (Src 3) (Ret (plainValue TUnsupported scalar input [FString "geo"])).

(** ** Filters, ordering, limits ([ast-main.ts]) *)

(** Helpers imported by [ast-main.ts] from files outside the modelled
    sources ([ast-utils], [ast-types], [field-utils], [error-factory],
    [model/malloy_types]). *)
Class AnalysisDeps : Type := {
  compressExpr : Expr -> Expr;
  isAtomicFieldType : FieldValueType -> bool;
  FT_inspect_ : ExprValue -> string;
  nameOf : QueryFieldDef -> string;
  mergeFields : option (list QueryFieldDef) -> list QueryFieldDef -> list QueryFieldDef;
  isErrorStructDef : StructDef -> bool
}.

(** [mergeFields] applied to arrays of [FieldDef] (an [extendSource]). *)
Definition asFieldDefs (qs : list QueryFieldDef) : list FieldDef :=
  flat_map (fun q => match q with QField d => [d] | _ => [] end) qs.

Definition mergeFieldDefs {D : AnalysisDeps} (older : option (list FieldDef))
           (newer : list FieldDef) : list FieldDef :=
  asFieldDefs (mergeFields (option_map (map QField) older) (map QField newer)).

Record FilterElement : Type := mkFilterElement {
  fel_id : ElementId;
  fel_expr : ExpressionDef;
  fel_exprSrc : string
}.

(** [Filter extends ListOf<FilterElement>]: the element type string, the
    private [havingClause] field and the list. *)
Record Filter : Type := mkFilter {
  f_id : ElementId;
  f_elementType : string;
  f_havingClause : option bool;
  f_list : list FilterElement
}.

Module FilterElement.
Section Methods.
Context {D : AnalysisDeps} {O : Type}.

Definition filterExpression (this : FilterElement) (fs : FieldSpace O)
  : M O FilterExpression :=
  exprVal <- getExpression (fel_expr this) fs ;;
  if negb (is_type exprVal TBoolean) then
    log_at (expr_id (fel_expr this)) "Filter expression must have boolean value" ;;;
    ret (mkFilterExpression (fel_exprSrc this)
                            [FString "_FILTER_MUST_RETURN_BOOLEAN_"] scalar)
  else
    ret (mkFilterExpression (fel_exprSrc this) (compressExpr (value exprVal))
                            (expressionType exprVal)).
End Methods.
End FilterElement.

Module Filter.
(** [new Filter(elements)]: [havingClause] is declared and left
    undefined. *)
Definition new (id : ElementId) (elements : list FilterElement) : Filter :=
  mkFilter id "filter" None elements.

(** [set having(isHaving)] *)
Definition set_having (this : Filter) (isHaving : bool) : Filter :=
  mkFilter (f_id this) (if isHaving then "having" else "where")
           (f_havingClause this) (f_list this).

Section Methods.
Context {D : AnalysisDeps} {O : Type}.

Definition ExpressionType_is_scalar (e : ExpressionType) : bool :=
  match e with scalar => true | _ => false end.

(** The body of the [for] loop of [getFilterList], with [checked] the
    array built so far. *)
Fixpoint getFilterList_loop (this : Filter) (fs : FieldSpace O)
         (els : list FilterElement) (checked : list FilterExpression)
  : M O (list FilterExpression) :=
  match els with
  | [] => ret checked
  | oneElement :: rest =>
      fExpr <- FilterElement.filterExpression oneElement fs ;;
      match f_havingClause this with
      | Some true =>
          if expressionIsCalculation (Some (fe_expressionType fExpr)) then
            log_at (fel_id oneElement)
                   "Aggregate or Analytical expression expected in HAVING filter" ;;;
            getFilterList_loop this fs rest checked
          else getFilterList_loop this fs rest (checked ++ [fExpr])
      | Some false =>
          if negb (ExpressionType_is_scalar (fe_expressionType fExpr)) then
            log_at (fel_id oneElement)
                   "Aggregate or Analytical expressions not allowed in WHERE" ;;;
            getFilterList_loop this fs rest checked
          else getFilterList_loop this fs rest (checked ++ [fExpr])
      | None => getFilterList_loop this fs rest (checked ++ [fExpr])
      end
  end.

Definition getFilterList (this : Filter) (fs : FieldSpace O)
  : M O (list FilterExpression) :=
  getFilterList_loop this fs (f_list this) [].
End Methods.
End Filter.

(** [OrderBy]: by output position or by name. *)
Inductive OrderByField : Type :=
| OrderByNumber (n : Z)
| OrderByFieldName (f : FieldName).

Record OrderByEl : Type := mkOrderByEl {
  obe_id : ElementId;
  obe_field : OrderByField;
  obe_dir : option Direction
}.

Module OrderByEl.
Definition modelField (this : OrderByEl) : OrderField :=
  match obe_field this with
  | OrderByNumber n => OrderIndex n
  | OrderByFieldName f => OrderName (refString f)
  end.

Definition getOrderBy (this : OrderByEl) : OrderBy :=
  mkOrderBy (modelField this) (obe_dir this).
End OrderByEl.

Record Ordering : Type := mkOrdering { ord_id : ElementId; ord_list : list OrderByEl }.

Module Ordering.
Definition getOrderBy (this : Ordering) : list OrderBy :=
  map OrderByEl.getOrderBy (ord_list this).
End Ordering.

Record Limit : Type := mkLimit { lim_id : ElementId; lim_limit : Z }.

Inductive TopInit : Type :=
| TopByName (f : FieldName)
| TopByExpr (e : ExpressionDef).

Record Top : Type := mkTop {
  top_id : ElementId;
  top_limit : Z;
  top_by : option TopInit
}.

Module Top.
Section Methods.
Context {D : AnalysisDeps} {O : Type}.

Definition getBy (this : Top) (fs : FieldSpace O) : M O (option By) :=
  match top_by this with
  | Some (TopByName f) => ret (Some (ByName (refString f)))
  | Some (TopByExpr e) =>
      byExpr <- getExpression e fs ;;
      (if expressionIsAggregate (Some (expressionType byExpr)) then
         log_at (top_id this) "top by expression must be an aggregate"
       else ret tt) ;;;
      ret (Some (ByExpression (compressExpr (value byExpr))))
  | None => ret None
  end.
End Methods.
End Top.

(** A stand-in for the helper modules, for concrete runs. *)
Definition sampleAnalysisDeps : AnalysisDeps := {|
  compressExpr := fun e => e;
  isAtomicFieldType := fun t =>
    match t with
    | TString | TNumber | TBoolean | TDate | TTimestamp | TUnsupported => true
    | _ => false
    end;
  FT_inspect_ := fun v => typeName (dataType v);
  nameOf := fun q => match q with
                     | QName s => s
                     | QFiltered f => or_string (fan_as f) (fan_name f)
                     | QField d => fieldDef_name d
                     end;
  mergeFields := fun older newer =>
    let name q := match q with
                  | QName s => s
                  | QFiltered f => or_string (fan_as f) (fan_name f)
                  | QField d => fieldDef_name d
                  end in
    match older with
    | None => newer
    | Some o =>
        filter (fun f => negb (existsb (fun g => String.eqb (name g) (name f)) newer)) o
        ++ newer
    end;
  isErrorStructDef := fun s => String.eqb (sd_name s) "//undefined_error_structdef"
|}.

(** Concrete filter elements: [sum(n) > 10] (boolean, aggregate) and
    [state = 'CA'] (boolean, scalar). *)
Definition aggregateCondition : FilterElement :=
  mkFilterElement (Src 10)
    (ExprNode (Src 11) (Ret (plainValue TBoolean aggregate input [FString "sum(n)>10"])))
    "sum(n) > 10".
Definition scalarCondition : FilterElement :=
  mkFilterElement (Src 12)
    (ExprNode (Src 13) (Ret (plainValue TBoolean scalar input [FString "state='CA'"])))
    "state = 'CA'".

(** [top: 10 by sum(n)] *)
Definition topByAggregate : Top :=
  mkTop (Src 20) 10
        (Some (TopByExpr
                 (ExprNode (Src 21)
                    (Ret (plainValue TNumber aggregate input [FString "sum(n)"]))))).
(** [top: 10 by n + 1] *)
Definition topByScalar : Top :=
  mkTop (Src 22) 10
        (Some (TopByExpr
                 (ExprNode (Src 23)
                    (Ret (plainValue TNumber scalar input [FString "n+1"]))))).

(** ** JavaScript objects used as name maps *)

(** An object's own string-keyed properties, in the order [Object.entries]
    lists them: array-index keys first, ascending, then the other keys in
    the order they were created.  Inherited properties and the special key
    [__proto__] are outside this model. *)
Definition Obj (A : Type) : Type := list (string * A).

Definition digit_of (c : ascii) : option N :=
  let n := N_of_ascii c in
  if ((48 <=? n) && (n <=? 57))%N then Some (n - 48)%N else None.

Fixpoint parse_digits (s : string) (acc : N) : option N :=
  match s with
  | EmptyString => Some acc
  | String c rest =>
      match digit_of c with
      | Some d => parse_digits rest (acc * 10 + d)%N
      | None => None
      end
  end.

(** A key is an array index when it is the canonical decimal form of an
    integer below 2^32 - 1. *)
Definition array_index (k : string) : option N :=
  match k with
  | EmptyString => None
  | String c rest =>
      if (Ascii.eqb c "0" && negb (String.eqb rest ""))%bool then None
      else match parse_digits k 0 with
           | Some n => if (n <? 4294967295)%N then Some n else None
           | None => None
           end
  end.

Fixpoint obj_get {A} (k : string) (m : Obj A) : option A :=
  match m with
  | [] => None
  | (k', v) :: rest => if String.eqb k' k then Some v else obj_get k rest
  end.

Fixpoint obj_replace {A} (k : string) (v : A) (m : Obj A) : Obj A :=
  match m with
  | [] => []
  | (k', v') :: rest =>
      if String.eqb k' k then (k', v) :: rest else (k', v') :: obj_replace k v rest
  end.

Fixpoint obj_insert_index {A} (n : N) (k : string) (v : A) (m : Obj A) : Obj A :=
  match m with
  | [] => [(k, v)]
  | (k', v') :: rest =>
      match array_index k' with
      | Some n' => if (n <? n')%N then (k, v) :: m
                   else (k', v') :: obj_insert_index n k v rest
      | None => (k, v) :: m
      end
  end.

(** [m[k] = v] *)
Definition obj_set {A} (k : string) (v : A) (m : Obj A) : Obj A :=
  match obj_get k m with
  | Some _ => obj_replace k v m
  | None =>
      match array_index k with
      | Some n => obj_insert_index n k v m
      | None => m ++ [(k, v)]
      end
  end.

(** [delete m[k]] *)
Definition obj_delete {A} (k : string) (m : Obj A) : Obj A :=
  filter (fun kv => negb (String.eqb (fst kv) k)) m.

(** ** AST nodes of declarations *)

(** What a method without a field-space argument does when it belongs to
    a class outside the modelled sources: it logs and returns or throws. *)
Record Outcome (A : Type) : Type := mkOutcome {
  out_log : list Diagnostic;
  out_result : Result A
}.
Arguments mkOutcome {A} _ _.
Arguments out_log {A} _.
Arguments out_result {A} _.

Definition run_outcome {O A} (o : Outcome A) : M O A :=
  fun w => (out_result o, mkWorld (log w ++ out_log o) (objs w)).

(** [ConstantSubExpression]: the values its [constantValue()] and
    [constantCondition(type)] yield. *)
Record ConstantSubExpression : Type := mkConstantSubExpression {
  cse_id : ElementId;
  constantValue : ExprValue;
  constantCondition : FieldValueType -> ExprValue
}.

Inductive HasParameter : Type :=
| HasParameter_ (id : ElementId) (name : string) (isCondition : bool)
                (type : option FieldValueType)
                (default : option ConstantSubExpression)
| ConstantParameter (id : ElementId) (name : string) (value_ : ConstantSubExpression).

Definition hp_name (p : HasParameter) : string :=
  match p with HasParameter_ _ n _ _ _ => n | ConstantParameter _ n _ => n end.

Record FieldDeclaration : Type := mkFieldDeclaration {
  fd_id : ElementId;
  fd_expr : ExpressionDef;
  defineName : string;
  fd_exprSrc : option string;
  isMeasure : option bool
}.

Record FieldReference : Type := mkFieldReference {
  fr_id : ElementId;
  fr_list : list FieldName;
  fr_refString : string;
  fr_outputName : string
}.

Record WildcardFieldReference : Type := mkWildcardFieldReference {
  wr_id : ElementId;
  wr_refString : string
}.

Inductive FieldReferenceElement : Type :=
| FRRef (r : FieldReference)
| FRWild (w : WildcardFieldReference).

Definition fre_refString (f : FieldReferenceElement) : string :=
  match f with FRRef r => fr_refString r | FRWild w => wr_refString w end.

Inductive EditKind : Type := accept | except.

Record FieldListEdit : Type := mkFieldListEdit {
  fle_id : ElementId;
  fle_edit : EditKind;
  fle_refs : list FieldReferenceElement
}.

Record RenameField : Type := mkRenameField {
  rf_id : ElementId;
  rf_newName : string;
  rf_oldName : FieldName
}.

(** A turtle declaration ([TurtleDecl], [NestDefinition],
    [NestRefinement]).  [getPipeline(fs)] compiles the nested pipeline with
    the segment executors against output structs computed by
    [Segment.nextStructDef], which is outside the modelled sources; what it
    does is carried as a program over [fs]. *)
Record TurtleDecl : Type := mkTurtleDecl {
  tdl_id : ElementId;
  tdl_name : string;
  tdl_getPipeline : Eval (list PipeSegment)
}.

(** [Join] ([joins.ts] is outside the modelled sources): its name, what
    [structDef()] does, and what [fixupJoinOn(outer, inStruct)] does to
    [inStruct], as a program over [outer]. *)
Record Join : Type := mkJoin {
  join_id : ElementId;
  join_name : FieldName;
  join_structDef : Outcome StructDef;
  join_fixupJoinOn : StructDef -> Eval StructDef
}.

(** ** Space entries *)

Inductive SpaceEntry : Type :=
| ColumnSpaceField (def : FieldTypeDef)
| StructSpaceField (sourceDef : StructDef)
| JoinSpaceField (sourceDef : StructDef) (join : Join)
| QueryFieldStruct (turtleDef : TurtleDef)
| QueryFieldAST (turtle : TurtleDecl) (name : string) (renameAs : option string)
| ExpressionFieldFromAst (exprDef : FieldDeclaration)
| RenameSpaceField (otherField : SpaceEntry) (newName : string) (location : Location)
| ReferenceField (fieldRef : FieldReference)
| WildSpaceField (wildText : string)
| DefinedParameter (paramDef : Param)
| AbstractParameter (astParam : HasParameter).

(** [e instanceof StructSpaceField], [QueryField], [SpaceField],
    [SpaceParam], [JoinSpaceField]. *)
Definition isStructSpaceField (e : SpaceEntry) : bool :=
  match e with StructSpaceField _ | JoinSpaceField _ _ => true | _ => false end.
Definition isQueryField (e : SpaceEntry) : bool :=
  match e with QueryFieldStruct _ | QueryFieldAST _ _ _ => true | _ => false end.
Definition isSpaceParam (e : SpaceEntry) : bool :=
  match e with DefinedParameter _ | AbstractParameter _ => true | _ => false end.
Definition isSpaceField (e : SpaceEntry) : bool := negb (isSpaceParam e).

Definition classOf (e : SpaceEntry) : EntryClass :=
  match e with
  | ColumnSpaceField _ => CColumn
  | StructSpaceField _ => CStruct
  | JoinSpaceField _ _ => CJoin
  | QueryFieldStruct _ => CQueryStruct
  | QueryFieldAST _ _ _ => CQueryAST
  | ExpressionFieldFromAst _ => CExpression
  | RenameSpaceField _ _ _ => CRename
  | ReferenceField _ => CReference
  | WildSpaceField _ => CWild
  | DefinedParameter _ => CDefinedParameter
  | AbstractParameter _ => CAbstractParameter
  end.

Definition FieldMap : Type := Obj SpaceEntry.

Record LookupResult : Type := mkLookupResult {
  found : option SpaceEntry;
  error : option string
}.

Definition view_of (r : LookupResult) : LookupView :=
  mkLookupView (option_map classOf (found r)) (error r).

(** ** Field declarations and the def-space *)

Module DefSpace.
(** [new DefSpace(realFS, circular)] is an object with one mutable
    field, [foundCircle]; it lives next to the objects of [realFS]. *)
Definition lookup {O} (realFS : FieldSpace O) (circular : FieldDeclaration)
           (symbol : list FieldName) : M (O * bool) LookupView :=
  match symbol with
  | s0 :: _ =>
      if String.eqb (refString s0) (defineName circular) then
        modify (fun o => (fst o, true)) ;;;
        ret (mkLookupView None
               (Some ("Circular reference to '" +++ defineName circular
                      +++ "' in definition")))
      else zoom fst (fun o' o => (o', snd o)) (fs_lookup realFS symbol)
  | [] => zoom fst (fun o' o => (o', snd o)) (fs_lookup realFS symbol)
  end.

Definition fieldSpace {O} (realFS : FieldSpace O) (circular : FieldDeclaration)
  : FieldSpace (O * bool) :=
  mkFieldSpace (lookup realFS circular) (Some snd).
End DefSpace.

Module FieldDeclaration.
Section Methods.
Context {D : AnalysisDeps}.

(** [{name: `error_defining_${exprName}`, type: "string"}] *)
Definition errorDef (exprName : string) : FieldTypeDef :=
  mkFieldTypeDef ("error_defining_" +++ exprName) None TString None None None None None.

Definition queryFieldDef {O} (this : FieldDeclaration) (exprFS : FieldSpace O)
           (exprName : string) : M O FieldTypeDef :=
  caught <- try_catch
              (v <- getExpression (fd_expr this) exprFS ;; ret (Some v))
              (fun error_message =>
                 log_at (fd_id this)
                        ("Cannot define '" +++ exprName +++ "', " +++ error_message) ;;;
                 ret None) ;;
  match caught with
  | None => ret (errorDef exprName)
  | Some exprValue =>
     let compressValue := compressExpr (value exprValue) in
     let retType := dataType exprValue in
     if isAtomicFieldType retType then
       ret (mkFieldTypeDef exprName None retType
              (match compressValue with [] => None | _ => Some compressValue end)
              (Some (expressionType exprValue))
              (match fd_exprSrc this with
               | Some src => if truthy_string src then Some src else None
               | None => None
               end)
              (if (isGranularResult exprValue
                   && FieldValueType_eqb retType TTimestamp)%bool
               then timeframe exprValue else None)
              (Some (fd_id this)))
     else
       circularDef <- (match fs_foundCircle exprFS with
                       | Some foundCircle => o <- get ;; ret (foundCircle o)
                       | None => ret false
                       end) ;;
       (if negb circularDef then
          if is_type exprValue TUnknown then
            log_at (fd_id this)
                   ("Cannot define '" +++ exprName +++ "', value has unknown type")
          else
            log_at (fd_id this)
                   ("Cannot define '" +++ exprName +++ "', unexpected type: "
                    +++ FT_inspect_ exprValue)
        else ret tt) ;;;
       ret (errorDef exprName)
  end.

(** [fieldDef(fs, exprName)]: [queryFieldDef] against a fresh
    [DefSpace] around [fs]. *)
Definition fieldDef {O} (this : FieldDeclaration) (fs : FieldSpace O)
           (exprName : string) : M O FieldTypeDef :=
  r <- with_local false (queryFieldDef this (DefSpace.fieldSpace fs this) exprName) ;;
  ret (fst r).
End Methods.
End FieldDeclaration.

(** ** Space entries: definitions and parameters *)

Module HasParameter.
Section Methods.
Context {D : AnalysisDeps} {O : Type}.

Definition parameter (this : HasParameter) : M O Param :=
  match this with
  | HasParameter_ _ name isCondition type default =>
      let type_ := match type with Some t => t | None => TString end in
      if isCondition then
        ret (ConditionParameter name type_
               (option_map (fun d => value (constantCondition d type_)) default))
      else
        ret (ValueParameter name type_
               (option_map (fun d => value (constantValue d)) default) false)
  | ConstantParameter id name value_ =>
      let cVal := constantValue value_ in
      if negb (isAtomicFieldType (dataType cVal)) then
        log_at id ("Unexpected expression type '" +++ typeName (dataType cVal) +++ "'") ;;;
        ret (ValueParameter name TString
                            (Some [FString "XXX-type-mismatch-error-XXX"]) true)
      else ret (ValueParameter name (dataType cVal) (Some (value cVal)) true)
  end.
End Methods.
End HasParameter.

Module TurtleDecl.
Section Methods.
Context {O : Type}.

(** [getFieldDef(fs, nestParent)]:
    [{type: "turtle", name, ...pipe, location}] *)
Definition getFieldDef (this : TurtleDecl) (fs : FieldSpace O) : M O TurtleDef :=
  pipeline <- run_eval fs (tdl_getPipeline this) ;;
  ret (mkTurtleDef (tdl_name this) None pipeline (Some (tdl_id this))).
End Methods.
End TurtleDecl.

Module SpaceEntry.
Section Methods.
Context {D : AnalysisDeps} {O : Type}.

(** [QueryFieldAST]: the turtle's definition, renamed when [renameAs]
    is set. *)
Definition queryFieldAST_def (turtle : TurtleDecl) (renameAs : option string)
           (fs : FieldSpace O) : M O TurtleDef :=
  def <- TurtleDecl.getFieldDef turtle fs ;;
  ret (match renameAs with
       | Some a => if truthy_string a then td_with_as def a else def
       | None => def
       end).

(** [entry.fieldDef()].  [inSpace] is the space the entry was created
    in ([this.space] of an expression field, [this.inSpace] of a query
    field). *)
Fixpoint fieldDef (inSpace : FieldSpace O) (e : SpaceEntry) : M O (option FieldDef) :=
  match e with
  | ColumnSpaceField def => ret (Some (AtomicDef def))
  | StructSpaceField sourceDef => ret (Some (StructField sourceDef))
  | JoinSpaceField sourceDef _ => ret (Some (StructField sourceDef))
  | QueryFieldStruct turtleDef => ret (Some (TurtleField turtleDef))
  | QueryFieldAST turtle _ renameAs =>
      def <- queryFieldAST_def turtle renameAs inSpace ;;
      ret (Some (TurtleField def))
  | ExpressionFieldFromAst exprDef =>
      def <- FieldDeclaration.fieldDef exprDef inSpace (defineName exprDef) ;;
      ret (Some (AtomicDef def))
  | RenameSpaceField otherField newName location =>
      renamedFieldRaw <- fieldDef inSpace otherField ;;
      match renamedFieldRaw with
      | None => ret None
      | Some raw => ret (Some (fieldDef_with_as_location raw newName location))
      end
  | ReferenceField _ | WildSpaceField _ => ret None
  | DefinedParameter _ | AbstractParameter _ => ret None
  end.

(** Modelled from the spec: [FieldReference.getField(fs)]
    ([field-references.ts] is absent): a lookup of the reference's
    path, "lookup(path) -> {found | error}". *)
Definition FieldReference_getField (ref : FieldReference) (fs : FieldSpace O)
  : M O LookupView :=
  fs_lookup fs (fr_list ref).

(** [entry.getQueryFieldDef(fs)] *)
Definition getQueryFieldDef (e : SpaceEntry) (fs : FieldSpace O)
  : M O (option QueryFieldDef) :=
  match e with
  | QueryFieldStruct turtleDef => ret (Some (QField (TurtleField turtleDef)))
  | QueryFieldAST turtle _ renameAs =>
      def <- queryFieldAST_def turtle renameAs fs ;;
      ret (Some (QField (TurtleField def)))
  | ExpressionFieldFromAst exprDef =>
      def <- FieldDeclaration.queryFieldDef exprDef fs (defineName exprDef) ;;
      ret (Some (QField (AtomicDef def)))
  | ReferenceField fieldRef =>
      check <- FieldReference_getField fieldRef fs ;;
      (match lv_error check with
       | Some err => if truthy_string err then log_at (fr_id fieldRef) err else ret tt
       | None => ret tt
       end) ;;;
      ret (Some (QName (fr_refString fieldRef)))
  | WildSpaceField wildText => ret (Some (QName wildText))
  | _ => ret None
  end.

(** [spaceParam.parameter()] *)
Definition parameter (e : SpaceEntry) : M O (option Param) :=
  match e with
  | DefinedParameter paramDef => ret (Some paramDef)
  | AbstractParameter astParam => p <- HasParameter.parameter astParam ;; ret (Some p)
  | _ => ret None
  end.
End Methods.
End SpaceEntry.

(** ** Static spaces *)

Record StaticSpace : Type := mkStaticSpace {
  fromStruct : StructDef;
  memoMap : option FieldMap
}.

Module StaticSpace.
Definition new (sourceStructDef : StructDef) : StaticSpace :=
  mkStaticSpace sourceStructDef None.

Definition fromFieldDef (from : FieldDef) : SpaceEntry :=
  match from with
  | StructField s => StructSpaceField s
  | TurtleField t => QueryFieldStruct t
  | AtomicDef d => ColumnSpaceField d
  end.

Definition fieldEntries (fields : list FieldDef) : FieldMap :=
  fold_left (fun m f => obj_set (fieldDef_name f) (fromFieldDef f) m) fields [].

(** The second loop of the [map] getter; on a name conflict it stops
    with the map as filled so far and the error message. *)
Fixpoint paramEntries (structName : string) (params : list (string * Param))
         (m : FieldMap) : FieldMap * option string :=
  match params with
  | [] => (m, None)
  | (paramName, paramDef) :: rest =>
      match obj_get paramName m with
      | Some _ =>
          (m, Some ("In struct '" +++ structName +++ "': "
                    +++ " : Field and parameter name conflict '" +++ paramName))
      | None => paramEntries structName rest (obj_set paramName (DefinedParameter paramDef) m)
      end
  end.

Definition buildMap (s : StructDef) : FieldMap * option string :=
  let m := fieldEntries (sd_fields s) in
  match sd_parameters s with
  | Some params => paramEntries (or_string (sd_as s) (sd_name s)) params m
  | None => (m, None)
  end.

(** [get map()] *)
Definition map_ : M StaticSpace FieldMap :=
  this <- get ;;
  match memoMap this with
  | Some m => ret m
  | None =>
      let '(m, err) := buildMap (fromStruct this) in
      put (mkStaticSpace (fromStruct this) (Some m)) ;;;
      match err with
      | Some e => throw e
      | None => ret m
      end
  end.

Definition set_memoMap (m : FieldMap) : M StaticSpace unit :=
  modify (fun this => mkStaticSpace (fromStruct this) (Some m)).

Definition dropEntries : M StaticSpace unit := set_memoMap [].

Definition dropEntry (name : string) : M StaticSpace unit :=
  m <- map_ ;; set_memoMap (obj_delete name m).

Definition entry (name : string) : M StaticSpace (option SpaceEntry) :=
  m <- map_ ;; ret (obj_get name m).

Definition setEntry (name : string) (value_ : SpaceEntry) : M StaticSpace unit :=
  m <- map_ ;; set_memoMap (obj_set name value_ m).

Definition entries : M StaticSpace (list (string * SpaceEntry)) := map_.

Definition structDef : M StaticSpace StructDef :=
  this <- get ;; ret (fromStruct this).

Definition emptyStructDef : M StaticSpace StructDef :=
  this <- get ;; ret (sd_with_fields (fromStruct this) []).

(** The path walk of [lookup] over the name map [m].  A struct entry on
    the way is entered through a static space over its struct (built
    anew at each walk).  The reference records [lookup] hands to the
    name's element for editor tooling are not part of the model. *)
Fixpoint lookup_path (m : FieldMap) (path : list FieldName) : Result LookupResult :=
  match path with
  | [] => Throw "TypeError: Cannot read properties of undefined (reading 'refString')"
  | head :: rest =>
      match obj_get (refString head) m with
      | None => Ok (mkLookupResult None
                      (Some ("'" +++ refString head +++ "' is not defined")))
      | Some found_ =>
          match rest with
          | [] => Ok (mkLookupResult (Some found_) None)
          | next :: _ =>
              match found_ with
              | StructSpaceField sourceDef | JoinSpaceField sourceDef _ =>
                  match buildMap sourceDef with
                  | (m', None) => lookup_path m' rest
                  | (_, Some e) => Throw e
                  end
              | _ => Ok (mkLookupResult None
                           (Some ("'" +++ refString head +++ "' cannot contain a '"
                                  +++ refString next +++ "'")))
              end
          end
      end
  end.

Definition lookup (path : list FieldName) : M StaticSpace LookupResult :=
  m <- map_ ;;
  match lookup_path m path with
  | Ok r => ret r
  | Throw e => throw e
  end.
End StaticSpace.

(** ** Dynamic spaces *)

(** [completions] holds the steps registered with [whenComplete]: each is
    a closure, known here by what it does when run. *)
Record DynamicSpace : Type := mkDynamicSpace {
  base : StaticSpace;
  final : option StructDef;
  completions : list (Outcome unit);
  complete : bool
}.

Fixpoint list_set {A} (i : nat) (x : A) (l : list A) : list A :=
  match l, i with
  | [], _ => []
  | _ :: rest, 0 => x :: rest
  | y :: rest, S j => y :: list_set j x rest
  end.

Module DynamicSpace.
(** [new DynamicSpace(structDef)] *)
Definition new (extending : StructDef) : DynamicSpace :=
  mkDynamicSpace (StaticSpace.new extending) None [] false.

Definition onBase {A} (m : M StaticSpace A) : M DynamicSpace A :=
  zoom base (fun b this => mkDynamicSpace b (final this) (completions this) (complete this)) m.

Definition set_final (f : option StructDef) : M DynamicSpace unit :=
  modify (fun this => mkDynamicSpace (base this) f (completions this) (complete this)).

Definition entries : M DynamicSpace (list (string * SpaceEntry)) := onBase StaticSpace.entries.
Definition entry (name : string) : M DynamicSpace (option SpaceEntry) :=
  onBase (StaticSpace.entry name).
Definition dropEntries : M DynamicSpace unit := onBase StaticSpace.dropEntries.
Definition dropEntry (name : string) : M DynamicSpace unit :=
  onBase (StaticSpace.dropEntry name).
Definition lookup (path : list FieldName) : M DynamicSpace LookupResult :=
  onBase (StaticSpace.lookup path).
Definition emptyStructDef : M DynamicSpace StructDef := onBase StaticSpace.emptyStructDef.

(** The space as the [FieldSpace] an expression is evaluated in. *)
Definition asFieldSpace : FieldSpace DynamicSpace :=
  mkFieldSpace (fun path => r <- lookup path ;; ret (view_of r)) None.

Definition whenComplete (finalizeStep : Outcome unit) : M DynamicSpace unit :=
  this <- get ;;
  if complete this then run_outcome finalizeStep
  else put (mkDynamicSpace (base this) (final this)
                           (completions this ++ [finalizeStep]) (complete this)).

Definition isComplete : M DynamicSpace unit :=
  modify (fun this => mkDynamicSpace (base this) (final this) (completions this) true) ;;;
  this <- get ;;
  for_each (completions this) run_outcome ;;;
  modify (fun this => mkDynamicSpace (base this) (final this) [] (complete this)).

Definition setEntry (name : string) (value_ : SpaceEntry) : M DynamicSpace unit :=
  this <- get ;;
  match final this with
  | Some _ => throw "Space already final"
  | None => onBase (StaticSpace.setEntry name value_)
  end.

Section Methods.
Context {D : AnalysisDeps}.

(** [filteredFrom(from, choose)]: the body runs on the new space
    [edited]. *)
Definition filteredFrom_body (choose : option FieldListEdit) : M DynamicSpace unit :=
  match choose with
  | Some choose_ =>
      let names := fle_refs choose_ in
      oldMap <- entries ;;
      dropEntries ;;;
      for_each oldMap
        (fun sv =>
           let included := existsb (fun f => String.eqb (fre_refString f) (fst sv)) names in
           let accepting := match fle_edit choose_ with accept => true | except => false end in
           if Bool.eqb included accepting then setEntry (fst sv) (snd sv) else ret tt)
  | None => ret tt
  end.

Definition filteredFrom {O} (from : StructDef) (choose : option FieldListEdit)
  : M O DynamicSpace :=
  fun w => match filteredFrom_body choose (mkWorld (log w) (new from)) with
           | (Ok _, w') => (Ok (objs w'), mkWorld (log w') (objs w))
           | (Throw e, w') => (Throw e, mkWorld (log w') (objs w))
           end.

Definition addParameters (params : list HasParameter) : M DynamicSpace unit :=
  for_each params (fun oneP => setEntry (hp_name oneP) (AbstractParameter oneP)).

Definition newEntry (name : string) (astEl : ElementId) (entry_ : SpaceEntry)
  : M DynamicSpace unit :=
  e <- entry name ;;
  match e with
  | Some _ => log_at astEl ("Cannot redefine '" +++ name +++ "'")
  | None => setEntry name entry_
  end.

Definition addFieldDef (fd : FieldDef) : M DynamicSpace unit :=
  setEntry (nameOf (QField fd)) (StaticSpace.fromFieldDef fd).

(** The accumulators of the first loop of [structDef]. *)
Record Sorted : Type := mkSorted {
  s_fields : list (string * SpaceEntry);
  s_joins : list (string * SpaceEntry);
  s_turtles : list (string * SpaceEntry);
  s_parameters : Obj Param
}.

Definition sortEntry (acc : Sorted) (ne : string * SpaceEntry) : M DynamicSpace Sorted :=
  let '(name, spaceEntry) := ne in
  if isStructSpaceField spaceEntry then
    ret (mkSorted (s_fields acc) (s_joins acc ++ [ne]) (s_turtles acc) (s_parameters acc))
  else if isQueryField spaceEntry then
    ret (mkSorted (s_fields acc) (s_joins acc) (s_turtles acc ++ [ne]) (s_parameters acc))
  else if isSpaceField spaceEntry then
    ret (mkSorted (s_fields acc ++ [ne]) (s_joins acc) (s_turtles acc) (s_parameters acc))
  else
    p <- SpaceEntry.parameter spaceEntry ;;
    match p with
    | Some p_ => ret (mkSorted (s_fields acc) (s_joins acc) (s_turtles acc)
                               (obj_set name p_ (s_parameters acc)))
    | None => ret acc
    end.

Fixpoint sortEntries (acc : Sorted) (es : list (string * SpaceEntry))
  : M DynamicSpace Sorted :=
  match es with
  | [] => ret acc
  | ne :: rest => acc' <- sortEntry acc ne ;; sortEntries acc' rest
  end.

(** [this.final.fields.push(fd)]; the answer is the index it got. *)
Definition pushField (fd : FieldDef) : M DynamicSpace nat :=
  this <- get ;;
  match final this with
  | Some f =>
      set_final (Some (sd_with_fields f (sd_fields f ++ [fd]))) ;;;
      ret (length (sd_fields f))
  | None => throw "TypeError: Cannot read properties of undefined (reading 'fields')"
  end.

(** The body of the second loop: emit one entry's definition.
    [fixupJoins] collects the joins to revisit, each with the index of
    its struct in [final.fields]. *)
Definition emitField (fixupJoins : list (Join * nat)) (nf : string * SpaceEntry)
  : M DynamicSpace (list (Join * nat)) :=
  let '(fieldName, field) := nf in
  match field with
  | JoinSpaceField _ join =>
      joinStruct <- run_outcome (join_structDef join) ;;
      if negb (isErrorStructDef joinStruct) then
        i <- pushField (StructField joinStruct) ;;
        ret (fixupJoins ++ [(join, i)])
      else ret fixupJoins
  | _ =>
      fieldDef_ <- SpaceEntry.fieldDef asFieldSpace field ;;
      match fieldDef_ with
      | Some fd => pushField fd ;;; ret fixupJoins
      | None => throw ("'" +++ fieldName +++ "' doesn't have a FieldDef")
      end
  end.

Fixpoint emitFields (fixupJoins : list (Join * nat)) (fs : list (string * SpaceEntry))
  : M DynamicSpace (list (Join * nat)) :=
  match fs with
  | [] => ret fixupJoins
  | nf :: rest => fj <- emitField fixupJoins nf ;; emitFields fj rest
  end.

(** [join.fixupJoinOn(this, missingOn)], where [missingOn] is the
    struct at index [i] of [final.fields]; the struct is changed in
    place. *)
Definition fixupJoin (ji : Join * nat) : M DynamicSpace unit :=
  let '(join, i) := ji in
  this <- get ;;
  match final this with
  | Some f =>
      match nth_error (sd_fields f) i with
      | Some (StructField missingOn) =>
          fixed <- run_eval asFieldSpace (join_fixupJoinOn join missingOn) ;;
          this' <- get ;;
          match final this' with
          | Some f' =>
              set_final (Some (sd_with_fields f'
                                 (list_set i (StructField fixed) (sd_fields f'))))
          | None => ret tt
          end
      | _ => ret tt
      end
  | None => ret tt
  end.

(** The shared parameters object: when the struct has one, the first
    loop writes into it, and so into [fromStruct] and [final], which
    both refer to it. *)
Definition writeSharedParameters (parameters : Obj Param) : M DynamicSpace unit :=
  modify (fun this =>
            match sd_parameters (fromStruct (base this)) with
            | Some _ =>
                mkDynamicSpace
                  (mkStaticSpace (sd_with_parameters (fromStruct (base this)) (Some parameters))
                                 (memoMap (base this)))
                  (option_map (fun f => sd_with_parameters f (Some parameters)) (final this))
                  (completions this) (complete this)
            | None => this
            end).

Definition structDef : M DynamicSpace StructDef :=
  this <- get ;;
  let parameters0 := match sd_parameters (fromStruct (base this)) with
                     | Some p => p
                     | None => []
                     end in
  (match final this with
   | None =>
       set_final (Some (sd_with_fields (fromStruct (base this)) [])) ;;;
       es <- entries ;;
       sorted <- sortEntries (mkSorted [] [] [] parameters0) es ;;
       writeSharedParameters (s_parameters sorted) ;;;
       let reorderFields := s_fields sorted ++ s_joins sorted ++ s_turtles sorted in
       fixupJoins <- emitFields [] reorderFields ;;
       (match s_parameters sorted with
        | [] => ret tt
        | _ :: _ =>
            this1 <- get ;;
            set_final (option_map (fun f => sd_with_parameters f (Some (s_parameters sorted)))
                                  (final this1))
        end) ;;;
       for_each fixupJoins fixupJoin
   | Some _ => ret tt
   end) ;;;
  isComplete ;;;
  this2 <- get ;;
  match final this2 with
  | Some f => ret f
  | None => throw "final is undefined"
  end.
End Methods.
End DynamicSpace.

(** ** Adding fields to a dynamic space *)

Inductive ExploreField : Type :=
| EFDecl (d : FieldDeclaration)
| EFTurtle (t : TurtleDecl)
| EFRename (r : RenameField)
| EFJoin (j : Join)
| EFTurtles (id : ElementId).

Module AddField.
Section Methods.
Context {D : AnalysisDeps}.

(** Modelled from the spec: [FieldName.getField(fs)] ([field-space.ts]
    is absent): a lookup of the one-name path, "lookup(path) ->
    {found | error}". *)
Definition FieldName_getField (n : FieldName) : M DynamicSpace LookupResult :=
  DynamicSpace.lookup [n].

(** The body of the loop of [DynamicSpace.addField]. *)
Definition addOne (def : ExploreField) : M DynamicSpace unit :=
  match def with
  | EFDecl d =>
      DynamicSpace.newEntry (defineName d) (fd_id d) (ExpressionFieldFromAst d)
  | EFTurtle t =>
      DynamicSpace.newEntry (tdl_name t) (tdl_id t) (QueryFieldAST t (tdl_name t) None)
  | EFRename r =>
      if String.eqb (refString (rf_oldName r)) (rf_newName r) then
        log_at (rf_id r) "Can't rename field to itself"
      else
        oldValue <- FieldName_getField (rf_oldName r) ;;
        match found oldValue with
        | Some f =>
            if isSpaceField f then
              DynamicSpace.setEntry (rf_newName r)
                (RenameSpaceField f (rf_newName r) (rf_id r)) ;;;
              DynamicSpace.dropEntry (refString (rf_oldName r))
            else
              log_at (rf_id r) ("'" +++ refString (rf_oldName r) +++ "' cannot be renamed")
        | None =>
            log_at (rf_id r)
                   ("Can't rename '" +++ refString (rf_oldName r) +++ "', no such field")
        end
  | EFJoin j =>
      sourceDef <- run_outcome (join_structDef j) ;;
      DynamicSpace.newEntry (refString (join_name j)) (join_id j) (JoinSpaceField sourceDef j)
  | EFTurtles id =>
      log_at id ("Internal error: Expected expression, query, or rename, got '"
                 +++ "turtleDeclarationList" +++ "'")
  end.

Definition addField (defs : list ExploreField) : M DynamicSpace unit :=
  for_each defs addOne.
End Methods.
End AddField.

(** ** Query spaces and result spaces *)

(** The input side of a segment: a dynamic space and the names of the
    fields a segment declared or joined in place. *)
Record QuerySpace : Type := mkQuerySpace {
  qs_space : DynamicSpace;
  extendList : list string
}.

Inductive SegmentKind : Type := KReduce | KProject | KIndex.

Definition segmentKindName (k : SegmentKind) : string :=
  match k with KReduce => "reduce" | KProject => "project" | KIndex => "index" end.

(** The output side of a segment.  [ReduceFieldSpace], [ProjectFieldSpace]
    and [IndexFieldSpace] differ by [segmentType] and by the methods they
    override; [fieldList] is the set of names an [IndexFieldSpace] keeps,
    in insertion order. *)
Record ResultSpace : Type := mkResultSpace {
  rs_space : DynamicSpace;
  exprSpace : QuerySpace;
  astEl : option ElementId;
  segmentType : SegmentKind;
  fieldList : list string
}.

Inductive FieldCollectionMember : Type :=
| FCMRef (r : FieldReference)
| FCMWild (w : WildcardFieldReference)
| FCMDecl (d : FieldDeclaration).

Definition memberOfElement (f : FieldReferenceElement) : FieldCollectionMember :=
  match f with FRRef r => FCMRef r | FRWild w => FCMWild w end.

Inductive QueryItem : Type :=
| QIDecl (d : FieldDeclaration)
| QIRef (r : FieldReference)
| QINest (t : TurtleDecl).

(** [set.add(x)] on a [Set<string>] listed in insertion order. *)
Definition set_add (x : string) (s : list string) : list string :=
  if existsb (String.eqb x) s then s else s ++ [x].

(** Modelled from the spec: the sentinel segments of [ErrorFactory]
    ([error-factory.ts] is absent): "a well-formed (if empty) shape". *)
Definition ErrorFactory_reduceSegment : PipeSegment :=
  QuerySegment reduce [] None None None None None.
Definition ErrorFactory_projectSegment : PipeSegment :=
  QuerySegment project [] None None None None None.
Definition ErrorFactory_indexSegment : PipeSegment :=
  IndexSegment [] None None None None.

Module QuerySpace.
Definition onSpace {A} (m : M DynamicSpace A) : M QuerySpace A :=
  zoom qs_space (fun d this => mkQuerySpace d (extendList this)) m.

Section Methods.
Context {D : AnalysisDeps}.

Definition extendSource (extendField : ExploreField) (name : string) : M QuerySpace unit :=
  onSpace (AddField.addField [extendField]) ;;;
  modify (fun this => mkQuerySpace (qs_space this) (extendList this ++ [name])).
End Methods.
End QuerySpace.

Module ResultSpace.
Definition onSpace {A} (m : M DynamicSpace A) : M ResultSpace A :=
  zoom rs_space
       (fun d this => mkResultSpace d (exprSpace this) (astEl this) (segmentType this)
                                    (fieldList this)) m.

Definition onExprSpace {A} (m : M QuerySpace A) : M ResultSpace A :=
  zoom exprSpace
       (fun q this => mkResultSpace (rs_space this) q (astEl this) (segmentType this)
                                    (fieldList this)) m.

Definition set_fieldList (l : list string) : M ResultSpace unit :=
  modify (fun this => mkResultSpace (rs_space this) (exprSpace this) (astEl this)
                                    (segmentType this) l).

(** [new ReduceFieldSpace(fs)] and its siblings, for an input space that
    is a dynamic space: the result space starts from
    [fs.emptyStructDef()], its expression space from [fs.structDef()]. *)
Definition new {D : AnalysisDeps} (kind : SegmentKind) : M DynamicSpace ResultSpace :=
  emptyStruct <- DynamicSpace.emptyStructDef ;;
  inputStruct <- DynamicSpace.structDef ;;
  ret (mkResultSpace (DynamicSpace.new emptyStruct)
                     (mkQuerySpace (DynamicSpace.new inputStruct) [])
                     None kind []).

(** [this.exprSpace] as the field space expressions are evaluated in. *)
Definition exprFS : FieldSpace ResultSpace :=
  mkFieldSpace
    (fun path => r <- onExprSpace (QuerySpace.onSpace (DynamicSpace.lookup path)) ;;
                 ret (view_of r))
    None.

Definition log_ (s : string) : M ResultSpace unit :=
  this <- get ;;
  match astEl this with
  | Some el => log_at el s
  | None => ret tt
  end.

Section Methods.
Context {D : AnalysisDeps}.

Definition addReference (ref : FieldReference) : M ResultSpace unit :=
  this <- get ;;
  match segmentType this with
  | KIndex =>
      r <- SpaceEntry.FieldReference_getField ref exprFS ;;
      match lv_found r with
      | Some _ => set_fieldList (set_add (fr_refString ref) (fieldList this))
      | None => ret tt
      end
  | _ =>
      let refName := fr_outputName ref in
      e <- onSpace (DynamicSpace.entry refName) ;;
      match e with
      | Some _ =>
          log_at (fr_id ref) ("Output already has a field named '" +++ refName +++ "'")
      | None => onSpace (DynamicSpace.setEntry refName (ReferenceField ref))
      end
  end.

Definition addWild (wild : WildcardFieldReference) : M ResultSpace unit :=
  this <- get ;;
  match segmentType this with
  | KIndex => set_fieldList (set_add (wr_refString wild) (fieldList this))
  | _ => onSpace (DynamicSpace.setEntry (wr_refString wild)
                                        (WildSpaceField (wr_refString wild)))
  end.

Definition addMembers (members : list FieldCollectionMember) : M ResultSpace unit :=
  for_each members
    (fun member =>
       match member with
       | FCMRef r => addReference r
       | FCMWild w => addWild w
       | FCMDecl d => onSpace (AddField.addField [EFDecl d])
       end).

Definition addQueryItems (qiList : list QueryItem) : M ResultSpace unit :=
  for_each qiList
    (fun qi =>
       match qi with
       | QIRef r => addReference r
       | QIDecl d => onSpace (AddField.addField [EFDecl d])
       | QINest t =>
           onSpace (DynamicSpace.setEntry (tdl_name t) (QueryFieldAST t (tdl_name t) None))
       end).

(** [canContain]: every query field is legal, except that
    [ProjectFieldSpace] refuses turtles and aggregates. *)
Definition canContain (qd : QueryFieldDef) : M ResultSpace bool :=
  this <- get ;;
  match segmentType this with
  | KProject =>
      match qd with
      | QName _ => ret true
      | QFiltered _ => ret true
      | QField d =>
          if FieldValueType_eqb (fieldDef_type d) TTurtle then
            log_ "Cannot nest queries in project" ;;; ret false
          else if expressionIsAggregate (fieldDef_expressionType d) then
            log_ "Cannot add aggregate measures to project" ;;; ret false
          else ret true
      end
  | _ => ret true
  end.

(** The loop of [queryFieldDefs], with [fields] the array built so
    far. *)
Fixpoint queryFieldDefs_loop (es : list (string * SpaceEntry))
         (fields : list QueryFieldDef) : M ResultSpace (list QueryFieldDef) :=
  match es with
  | [] => ret fields
  | (name, field) :: rest =>
      if isSpaceField field then
        fieldQueryDef <- SpaceEntry.getQueryFieldDef field exprFS ;;
        match fieldQueryDef with
        | Some qd =>
            ok <- canContain qd ;;
            if ok then queryFieldDefs_loop rest (fields ++ [qd])
            else
              this <- get ;;
              log_ ("'" +++ name +++ "' not legal in "
                    +++ segmentKindName (segmentType this)) ;;;
              queryFieldDefs_loop rest fields
        | None => throw ("'" +++ name +++ "' does not have a QueryFieldDef")
        end
      else queryFieldDefs_loop rest fields
  end.

Definition queryFieldDefs : M ResultSpace (list QueryFieldDef) :=
  es <- onSpace DynamicSpace.entries ;;
  fields <- queryFieldDefs_loop es [] ;;
  onSpace DynamicSpace.isComplete ;;;
  ret fields.

(** [ResultSpace.getPipeSegment(refineFrom)], for reduce and project
    spaces. *)
Definition getPipeSegment (refineFrom : option PipeSegment) : M ResultSpace PipeSegment :=
  this <- get ;;
  match segmentType this with
  | KIndex => throw "INDEX FIELD PIPE SEGMENT MIS HANDLED"
  | (KReduce | KProject) as k =>
      let fromExtend := match refineFrom with
                        | Some f => seg_extendSource f
                        | None => None
                        end in
      (match fromExtend with
       | Some xs =>
           for_each xs (fun xField =>
                          onExprSpace (QuerySpace.onSpace (DynamicSpace.addFieldDef xField)))
       | None => ret tt
       end) ;;;
      newFields <- queryFieldDefs ;;
      let fields := mergeFields (option_map seg_fields_query refineFrom) newFields in
      this1 <- get ;;
      extendSource_ <-
        (match extendList (exprSpace this1) with
         | [] => ret fromExtend
         | _ :: _ =>
             extendedStruct <- onExprSpace (QuerySpace.onSpace DynamicSpace.structDef) ;;
             let newExtends :=
               flat_map (fun extendName =>
                           match find (fun f => String.eqb (nameOf (QField f)) extendName)
                                      (sd_fields extendedStruct) with
                           | Some extendEnt => [extendEnt]
                           | None => []
                           end)
                        (extendList (exprSpace this1)) in
             ret (Some (mergeFieldDefs fromExtend newExtends))
         end) ;;
      onSpace DynamicSpace.isComplete ;;;
      ret (QuerySegment (match k with KProject => project | _ => reduce end)
                        fields None None None None extendSource_)
  end.

(** [getQuerySegment]: the pipe segment, which is a query segment. *)
Definition getQuerySegment (rf : option PipeSegment) : M ResultSpace PipeSegment :=
  p <- getPipeSegment rf ;;
  match p with
  | QuerySegment _ _ _ _ _ _ _ => ret p
  | IndexSegment _ _ _ _ _ => throw "TODO NOT POSSIBLE"
  end.

(** [IndexFieldSpace.getPipeSegment(refineIndex)] *)
Definition index_getPipeSegment (refineIndex : option PipeSegment)
  : M ResultSpace PipeSegment :=
  (match refineIndex with
   | Some ri =>
       for_each (seg_fields_query ri)
         (fun exists_ =>
            match exists_ with
            | QName s => this <- get ;; set_fieldList (set_add s (fieldList this))
            | _ => ret tt
            end)
   | None => ret tt
   end) ;;;
  onSpace DynamicSpace.isComplete ;;;
  this <- get ;;
  ret (IndexSegment (fieldList this) None None None None).
End Methods.
End ResultSpace.

(** ** Query properties and segment executors *)

Record Index : Type := mkIndex {
  idx_id : ElementId;
  idx_fields : list FieldReferenceElement;
  idx_weightBy : option FieldName
}.

Record SampleProperty : Type := mkSampleProperty { sp_id : ElementId; sp_sample : Sampling }.

Inductive DeclareKind : Type := KDeclare | KMeasure | KDimension.

Inductive QueryProperty : Type :=
| QPOrdering (o : Ordering)
| QPTop (t : Top)
| QPLimit (l : Limit)
| QPFilter (f : Filter)
| QPIndex (i : Index)
| QPSampleProperty (s : SampleProperty)
| QPJoins (id : ElementId) (list_ : list Join)
| QPDeclareFields (id : ElementId) (kind : DeclareKind) (list_ : list FieldDeclaration)
| QPProjectStatement (id : ElementId) (list_ : list FieldCollectionMember)
| QPNestedQuery (qi : QueryItem)
| QPNests (id : ElementId) (list_ : list QueryItem)
| QPAggregate (id : ElementId) (list_ : list QueryItem)
| QPGroupBy (id : ElementId) (list_ : list QueryItem).

Definition qp_id (qp : QueryProperty) : ElementId :=
  match qp with
  | QPOrdering o => ord_id o
  | QPTop t => top_id t
  | QPLimit l => lim_id l
  | QPFilter f => f_id f
  | QPIndex i => idx_id i
  | QPSampleProperty s => sp_id s
  | QPJoins id _ | QPDeclareFields id _ _ | QPProjectStatement id _
  | QPNests id _ | QPAggregate id _ | QPGroupBy id _ => id
  | QPNestedQuery (QIDecl d) => fd_id d
  | QPNestedQuery (QIRef r) => fr_id r
  | QPNestedQuery (QINest t) => tdl_id t
  end.

Inductive OrderSource : Type :=
| OrderTop (t : Top)
| OrderOrdering (o : Ordering).

(** [ReduceExecutor] (and [ProjectExecutor], which adds no field).
    [inputFS] is [resultFS.exprSpace]. *)
Record ReduceExecutor : Type := mkReduceExecutor {
  re_resultFS : ResultSpace;
  re_filters : list FilterExpression;
  re_order : option OrderSource;
  re_limit : option Z
}.

Definition seg_set_orderBy (s : PipeSegment) (o : list OrderBy) : PipeSegment :=
  match s with
  | QuerySegment t f _ b l fl x => QuerySegment t f (Some o) b l fl x
  | IndexSegment _ _ _ _ _ => s
  end.
Definition seg_set_by (s : PipeSegment) (b : By) : PipeSegment :=
  match s with
  | QuerySegment t f o _ l fl x => QuerySegment t f o (Some b) l fl x
  | IndexSegment _ _ _ _ _ => s
  end.
Definition seg_set_limit (s : PipeSegment) (l : Z) : PipeSegment :=
  match s with
  | QuerySegment t f o b _ fl x => QuerySegment t f o b (Some l) fl x
  | IndexSegment f w sa fl _ => IndexSegment f w sa fl (Some l)
  end.
Definition seg_set_filterList (s : PipeSegment) (fl : list FilterExpression) : PipeSegment :=
  match s with
  | QuerySegment t f o b l _ x => QuerySegment t f o b l (Some fl) x
  | IndexSegment f w sa _ l => IndexSegment f w sa (Some fl) l
  end.
Definition seg_set_weightMeasure (s : PipeSegment) (w : string) : PipeSegment :=
  match s with
  | IndexSegment f _ sa fl l => IndexSegment f (Some w) sa fl l
  | QuerySegment _ _ _ _ _ _ _ => s
  end.
Definition seg_set_sample (s : PipeSegment) (sa : Sampling) : PipeSegment :=
  match s with
  | IndexSegment f w _ fl l => IndexSegment f w (Some sa) fl l
  | QuerySegment _ _ _ _ _ _ _ => s
  end.

Definition isIndexSegment (s : PipeSegment) : bool :=
  match s with IndexSegment _ _ _ _ _ => true | _ => false end.
Definition isReduceSegment (s : PipeSegment) : bool :=
  match s with QuerySegment reduce _ _ _ _ _ _ => true | _ => false end.
Definition isProjectSegment (s : PipeSegment) : bool :=
  match s with QuerySegment project _ _ _ _ _ _ => true | _ => false end.

Module ReduceExecutor.
Definition onResultFS {A} (m : M ResultSpace A) : M ReduceExecutor A :=
  zoom re_resultFS
       (fun r this => mkReduceExecutor r (re_filters this) (re_order this) (re_limit this)) m.

(** [this.inputFS] as a field space. *)
Definition inputFS : FieldSpace ReduceExecutor :=
  mkFieldSpace (fun path => onResultFS (fs_lookup ResultSpace.exprFS path)) None.

Definition set_limit (l : Z) : M ReduceExecutor unit :=
  modify (fun this => mkReduceExecutor (re_resultFS this) (re_filters this)
                                       (re_order this) (Some l)).
Definition set_order (o : OrderSource) : M ReduceExecutor unit :=
  modify (fun this => mkReduceExecutor (re_resultFS this) (re_filters this)
                                       (Some o) (re_limit this)).
Definition push_filters (fs : list FilterExpression) : M ReduceExecutor unit :=
  modify (fun this => mkReduceExecutor (re_resultFS this) (re_filters this ++ fs)
                                       (re_order this) (re_limit this)).

Section Methods.
Context {D : AnalysisDeps}.

(** [new ReduceExecutor(baseFS)] / [new ProjectExecutor(baseFS)] *)
Definition new (kind : SegmentKind) : M DynamicSpace ReduceExecutor :=
  resultFS <- ResultSpace.new kind ;;
  ret (mkReduceExecutor resultFS [] None None).

(** The [Limit] branch of [execute], shared with the limit part of
    the [Top] branch. *)
Definition takeLimit (el : ElementId) (limit_ : Z) : M ReduceExecutor unit :=
  this <- get ;;
  if truthy_opt_number (re_limit this) then log_at el "Query operation already limited"
  else set_limit limit_.

Definition execute (qp : QueryProperty) : M ReduceExecutor unit :=
  match qp with
  | QPGroupBy _ l | QPAggregate _ l | QPNests _ l =>
      onResultFS (ResultSpace.addQueryItems l)
  | QPNestedQuery qi => onResultFS (ResultSpace.addQueryItems [qi])
  | QPFilter f =>
      fl <- Filter.getFilterList f inputFS ;;
      push_filters fl
  | QPTop t =>
      takeLimit (top_id t) (top_limit t) ;;;
      match top_by t with
      | Some _ =>
          this <- get ;;
          match re_order this with
          | Some _ => log_at (top_id t) "Query operation is already sorted"
          | None => set_order (OrderTop t)
          end
      | None => ret tt
      end
  | QPLimit l => takeLimit (lim_id l) (lim_limit l)
  | QPOrdering o =>
      this <- get ;;
      match re_order this with
      | Some _ => log_at (ord_id o) "Query operation already sorted"
      | None => set_order (OrderOrdering o)
      end
  | QPJoins _ l =>
      for_each l (fun qel =>
                    onResultFS (ResultSpace.onExprSpace
                                  (QuerySpace.extendSource (EFJoin qel)
                                                           (refString (join_name qel)))))
  | QPDeclareFields _ _ l =>
      for_each l (fun qel =>
                    onResultFS (ResultSpace.onExprSpace
                                  (QuerySpace.extendSource (EFDecl qel) (defineName qel))))
  | QPIndex _ | QPSampleProperty _ | QPProjectStatement _ _ => ret tt
  end.

(** [refineFrom(from, to)]; the segment [to] it fills in is handed
    back. *)
Definition refineFrom (from : option PipeSegment) (to : PipeSegment)
  : M ReduceExecutor PipeSegment :=
  this <- get ;;
  let to1 :=
    match from with
    | Some f =>
        if negb (isIndexSegment f) then
          let to_ :=
            match re_order this with
            | None =>
                match seg_orderBy f with
                | Some o => seg_set_orderBy to o
                | None => match seg_by f with
                          | Some b => seg_set_by to b
                          | None => to
                          end
                end
            | Some _ => to
            end in
          if (negb (truthy_opt_number (re_limit this))
              && truthy_opt_number (seg_limit f))%bool then
            match seg_limit f with Some l => seg_set_limit to_ l | None => to_ end
          else to_
        else to
    | None => to
    end in
  let to2 :=
    if truthy_opt_number (re_limit this) then
      match re_limit this with Some l => seg_set_limit to1 l | None => to1 end
    else to1 in
  to3 <- (match re_order this with
          | Some (OrderTop t) =>
              topBy <- Top.getBy t inputFS ;;
              ret (match topBy with Some b => seg_set_by to2 b | None => to2 end)
          | Some (OrderOrdering o) => ret (seg_set_orderBy to2 (Ordering.getOrderBy o))
          | None => ret to2
          end) ;;
  this' <- get ;;
  (* [from?.filterList || []] is an array, and an array is truthy:
     the list is always written *)
  let oldFilters := match from with
                    | Some f => match seg_filterList f with Some l => l | None => [] end
                    | None => []
                    end in
  ret (seg_set_filterList to3 (oldFilters ++ re_filters this')).

Definition finalize (fromSeg : option PipeSegment) : M ReduceExecutor PipeSegment :=
  let go (from : option PipeSegment) :=
      reduceSegment <- onResultFS (ResultSpace.getQuerySegment from) ;;
      refineFrom from reduceSegment in
  match fromSeg with
  | Some s =>
      if isReduceSegment s then go (Some s)
      else
        onResultFS (ResultSpace.log_ ("Can't refine reduce with " +++ seg_typeName s)) ;;;
        ret ErrorFactory_reduceSegment
  | None => go None
  end.
End Methods.
End ReduceExecutor.

Module ProjectExecutor.
Section Methods.
Context {D : AnalysisDeps}.

Definition execute (qp : QueryProperty) : M ReduceExecutor unit :=
  match qp with
  | QPProjectStatement _ l => ReduceExecutor.onResultFS (ResultSpace.addMembers l)
  | QPFilter f =>
      if String.eqb (f_elementType f) "having" then
        log_at (f_id f) "Illegal statement in a project query operation"
      else ReduceExecutor.execute qp
  | QPDeclareFields id KMeasure _ | QPGroupBy id _ =>
      log_at id "Illegal statement in a project query operation"
  | _ => ReduceExecutor.execute qp
  end.

Definition finalize (fromSeg : option PipeSegment) : M ReduceExecutor PipeSegment :=
  let go (from : option PipeSegment) :=
      projectSegment <- ReduceExecutor.onResultFS (ResultSpace.getQuerySegment from) ;;
      ReduceExecutor.refineFrom from projectSegment in
  match fromSeg with
  | Some s =>
      if isProjectSegment s then go (Some s)
      else
        ReduceExecutor.onResultFS
          (ResultSpace.log_ ("Can't refine project with " +++ seg_typeName s)) ;;;
        ret ErrorFactory_projectSegment
  | None => go None
  end.
End Methods.
End ProjectExecutor.

Record IndexExecutor : Type := mkIndexExecutor {
  ie_filters : list FilterExpression;
  ie_limit : option Limit;
  ie_indexOn : option FieldName;
  ie_sample : option Sampling;
  ie_resultFS : ResultSpace
}.

Module IndexExecutor.
Definition onResultFS {A} (m : M ResultSpace A) : M IndexExecutor A :=
  zoom ie_resultFS
       (fun r this => mkIndexExecutor (ie_filters this) (ie_limit this) (ie_indexOn this)
                                      (ie_sample this) r) m.

Definition inputFS : FieldSpace IndexExecutor :=
  mkFieldSpace (fun path => onResultFS (fs_lookup ResultSpace.exprFS path)) None.

Section Methods.
Context {D : AnalysisDeps}.

Definition new : M DynamicSpace IndexExecutor :=
  resultFS <- ResultSpace.new KIndex ;;
  ret (mkIndexExecutor [] None None None resultFS).

Definition execute (qp : QueryProperty) : M IndexExecutor unit :=
  match qp with
  | QPFilter f =>
      fl <- Filter.getFilterList f inputFS ;;
      modify (fun this => mkIndexExecutor (ie_filters this ++ fl) (ie_limit this)
                                          (ie_indexOn this) (ie_sample this)
                                          (ie_resultFS this))
  | QPLimit l =>
      this <- get ;;
      (match ie_limit this with
       | Some earlier => log_at (lim_id earlier) "Ignored, too many limit: statements"
       | None => ret tt
       end) ;;;
      modify (fun this => mkIndexExecutor (ie_filters this) (Some l) (ie_indexOn this)
                                          (ie_sample this) (ie_resultFS this))
  | QPIndex i =>
      onResultFS (ResultSpace.addMembers (map memberOfElement (idx_fields i))) ;;;
      match idx_weightBy i with
      | Some weightBy =>
          this <- get ;;
          (match ie_indexOn this with
           | Some prev => log_at (fn_id prev) "Ignoring previous BY"
           | None => ret tt
           end) ;;;
          modify (fun this => mkIndexExecutor (ie_filters this) (ie_limit this)
                                              (Some weightBy) (ie_sample this)
                                              (ie_resultFS this))
      | None => ret tt
      end
  | QPSampleProperty s =>
      modify (fun this => mkIndexExecutor (ie_filters this) (ie_limit this)
                                          (ie_indexOn this) (Some (sp_sample s))
                                          (ie_resultFS this))
  | _ => log_at (qp_id qp) "Not legal in an index query operation"
  end.

Definition finalize (from : option PipeSegment) : M IndexExecutor PipeSegment :=
  let refuse := match from with
                | Some f => negb (isIndexSegment f)
                | None => false
                end in
  if refuse then
    onResultFS (ResultSpace.log_
                  ("Can't refine index with "
                   +++ match from with Some f => seg_typeName f | None => "" end)) ;;;
    ret ErrorFactory_indexSegment
  else
    indexSegment <- onResultFS (ResultSpace.index_getPipeSegment from) ;;
    this <- get ;;
    (* [from?.filterList || []] is an array, and an array is truthy *)
    let oldFilters := match from with
                      | Some f => match seg_filterList f with Some l => l | None => [] end
                      | None => []
                      end in
    let s1 := seg_set_filterList indexSegment (oldFilters ++ ie_filters this) in
    let s2 := match from with
              | Some f => match seg_limit f with
                          | Some l => if truthy_number l then seg_set_limit s1 l else s1
                          | None => s1
                          end
              | None => s1
              end in
    let s3 := match ie_limit this with
              | Some l => seg_set_limit s2 (lim_limit l)
              | None => s2
              end in
    let s4 := match ie_indexOn this with
              | Some n => seg_set_weightMeasure s3 (refString n)
              | None => s3
              end in
    let s5 := match from with
              | Some f => match seg_sample f with
                          | Some sa => seg_set_sample s4 sa
                          | None => s4
                          end
              | None => s4
              end in
    let s6 := match ie_sample this with
              | Some sa => seg_set_sample s5 sa
              | None => s5
              end in
    ret s6.

(** The loop of [QOPDesc.getOp] over the properties of an index
    segment, then [finalize]. *)
Definition run (props : list QueryProperty) (refineThis : option PipeSegment)
  : M IndexExecutor PipeSegment :=
  for_each props execute ;;;
  finalize refineThis.
End Methods.
End IndexExecutor.
(** ** More of the operator helpers and of the pipeline helpers *)

(** [getMorphicValue(mv, mt)]: the value itself when it has the type
    asked for, its morphic form of that type when it has one. *)
Definition getMorphicValue (mv : ExprValue) (mt : FieldValueType) : option ExprValue :=
  if is_type mv mt then Some mv
  else match morphic mv with
       | Some m =>
           match assoc_type mt m with
           | Some e => Some (mkExprValue mt (expressionType mv) (evalSpace mv) e
                                         (morphic mv) (timeframe mv) (rawType mv))
           | None => None
           end
       | None => None
       end.

Definition td_pipeline (t : TurtleDef) : list PipeSegment :=
  let 'mkTurtleDef _ _ p _ := t in p.
Definition td_location (t : TurtleDef) : option Location :=
  let 'mkTurtleDef _ _ _ l := t in l.

(** [getStructFieldDef(s, fn)]: the first field of [s] that goes by
    [fn]. *)
Definition getStructFieldDef (s : StructDef) (fn : string) : option FieldDef :=
  find (fun fld => String.eqb (fieldDef_name fld) fn) (sd_fields s).

(** [isTurtle(fd)] *)
Definition isTurtle (fd : option QueryFieldDef) : bool :=
  match fd with
  | Some (QField d) => FieldValueType_eqb (fieldDef_type d) TTurtle
  | _ => false
  end.

(** [PipelineDesc.expandTurtle(turtleName, fromStruct)], for the
    pipeline element [this_]: the pipeline and location of the query of
    that name. *)
Definition expandTurtle {O} (this_ : ElementId) (turtleName : string)
           (fromStruct_ : StructDef) : M O (list PipeSegment * option Location) :=
  match getStructFieldDef fromStruct_ turtleName with
  | None =>
      log_at this_ ("Query '" +++ turtleName +++ "' is not defined in source") ;;;
      ret ([], None)
  | Some turtle =>
      match turtle with
      | TurtleField t => ret (td_pipeline t, td_location t)
      | _ =>
          log_at this_ ("'" +++ turtleName +++ "' is not a query") ;;;
          ret ([], None)
      end
  end.

(** ** Query operations ([QOPDesc]) *)

Inductive QOPType : Type := QGrouping | QAggregate | QProject | QIndex.

Definition qopTypeName (t : QOPType) : string :=
  match t with
  | QGrouping => "grouping" | QAggregate => "aggregate"
  | QProject => "project" | QIndex => "index"
  end.

Record QOPDesc : Type := mkQOPDesc {
  qop_id : ElementId;
  qop_list : list QueryProperty;
  refineThis : option PipeSegment
}.

(** Run a computation on an object of its own, created for the call; the
    caller's objects are left as they are and the log is shared. *)
Definition run_with {O S A} (s0 : S) (m : M S A) : M O A :=
  fun w => match m (mkWorld (log w) s0) with
           | (r, w') => (r, mkWorld (log w') (objs w))
           end.

Module QOPDesc.
(** [firstGuess ||= t] *)
Definition guessOr (firstGuess : option QOPType) (t : QOPType) : QOPType :=
  match firstGuess with Some g => g | None => t end.

Definition projectOrIndex (t : QOPType) : bool :=
  match t with QProject | QIndex => true | _ => false end.

(** The body of the loop of [computeType]; the state is [firstGuess]
    and [anyGrouping]. *)
Definition computeType_step {O} (st : option QOPType * bool) (el : QueryProperty)
  : M O (option QOPType * bool) :=
  let '(firstGuess, anyGrouping) := st in
  match el with
  | QPIndex _ =>
      let g := guessOr firstGuess QIndex in
      (match g with
       | QIndex => ret tt
       | _ => log_at (qp_id el) ("index: not legal in " +++ qopTypeName g +++ " query")
       end) ;;;
      ret (Some g, anyGrouping)
  | QPNests _ _ | QPNestedQuery _ | QPGroupBy _ _ =>
      let g := guessOr firstGuess QGrouping in
      (if projectOrIndex g then
         log_at (qp_id el) ("group_by: not legal in " +++ qopTypeName g +++ " query")
       else ret tt) ;;;
      ret (Some g, true)
  | QPAggregate _ _ =>
      let g := guessOr firstGuess QAggregate in
      (if projectOrIndex g then
         log_at (qp_id el) ("aggregate: not legal in " +++ qopTypeName g +++ " query")
       else ret tt) ;;;
      ret (Some g, anyGrouping)
  | QPProjectStatement _ _ =>
      let g := guessOr firstGuess QProject in
      (match g with
       | QProject => ret tt
       | _ => log_at (qp_id el) ("project: not legal in " +++ qopTypeName g +++ " query")
       end) ;;;
      ret (Some g, anyGrouping)
  | _ => ret st
  end.

Fixpoint computeType_loop {O} (st : option QOPType * bool) (els : list QueryProperty)
  : M O (option QOPType * bool) :=
  match els with
  | [] => ret st
  | el :: rest => st' <- computeType_step st el ;; computeType_loop st' rest
  end.

(** The first guess a refined segment gives. *)
Definition typeOfSegment (s : PipeSegment) : QOPType :=
  match s with
  | QuerySegment reduce _ _ _ _ _ _ => QGrouping
  | QuerySegment project _ _ _ _ _ _ => QProject
  | IndexSegment _ _ _ _ _ => QIndex
  end.

(** [computeType()]; the type it returns is also written to
    [this.opType]. *)
Definition computeType {O} (this : QOPDesc) : M O QOPType :=
  st <- computeType_loop (option_map typeOfSegment (refineThis this), false)
                         (qop_list this) ;;
  let firstGuess :=
    match fst st with
    | Some QAggregate => if snd st then Some QGrouping else Some QAggregate
    | g => g
    end in
  (match firstGuess with
   | None =>
       log_at (qop_id this)
              "Can't determine query type (group_by/aggregate/nest,project,index)"
   | Some _ => ret tt
   end) ;;;
  ret (guessOr firstGuess QGrouping).

(** [refineFrom(existing)] *)
Definition refineFrom (this : QOPDesc) (existing : PipeSegment) : QOPDesc :=
  mkQOPDesc (qop_id this) (qop_list this) (Some existing).

Section Methods.
Context {D : AnalysisDeps}.

Definition withAstEl (r : ResultSpace) (el : ElementId) : ResultSpace :=
  mkResultSpace (rs_space r) (exprSpace r) (Some el) (segmentType r) (fieldList r).

(** The segment of [getOp(inputFS, forPipeline)], for an input space that
    is a dynamic space: the executor [getExecutor] picks is created on the
    input space, messages of its result space go to this element, every
    property is executed and the executor finalized against the refined
    segment.  ([nestParent], which [getOp] hands to the executor's input
    space, is read only by code outside the modelled sources.) *)
Definition getOp_segment (this : QOPDesc) : M DynamicSpace PipeSegment :=
  t <- computeType this ;;
  match t with
  | QAggregate | QGrouping =>
      qex <- ReduceExecutor.new KReduce ;;
      run_with (mkReduceExecutor (withAstEl (re_resultFS qex) (qop_id this))
                                 (re_filters qex) (re_order qex) (re_limit qex))
               (for_each (qop_list this) ReduceExecutor.execute ;;;
                ReduceExecutor.finalize (refineThis this))
  | QProject =>
      qex <- ReduceExecutor.new KProject ;;
      run_with (mkReduceExecutor (withAstEl (re_resultFS qex) (qop_id this))
                                 (re_filters qex) (re_order qex) (re_limit qex))
               (for_each (qop_list this) ProjectExecutor.execute ;;;
                ProjectExecutor.finalize (refineThis this))
  | QIndex =>
      qex <- IndexExecutor.new ;;
      run_with (mkIndexExecutor (ie_filters qex) (ie_limit qex) (ie_indexOn qex)
                                (ie_sample qex)
                                (withAstEl (ie_resultFS qex) (qop_id this)))
               (for_each (qop_list this) IndexExecutor.execute ;;;
                IndexExecutor.finalize (refineThis this))
  end.
End Methods.
End QOPDesc.

(** ** Pipelines *)

(** [model.Pipeline]: [{pipeHead?: {name}, pipeline}] *)
Record Pipeline : Type := mkPipeline {
  pipeHead : option string;
  pipeline : list PipeSegment
}.

Module PipelineDesc.
Section Methods.
Context {D : AnalysisDeps}.

(** [refinePipeline(fs, modelPipe)] of the pipeline element [this_]
    with the head refinement [headRefinement], for a space [fs] that is a
    dynamic space. *)
Definition refinePipeline (this_ : ElementId) (headRefinement : option QOPDesc)
           (modelPipe : Pipeline) : M DynamicSpace Pipeline :=
  match headRefinement with
  | None => ret modelPipe
  | Some refinement =>
      turtlePipe <-
        (match pipeHead modelPipe with
         | Some name =>
             sd <- DynamicSpace.structDef ;;
             r <- expandTurtle this_ name sd ;;
             ret (fst r)
         | None => ret []
         end) ;;
      let pipeline_ := turtlePipe ++ pipeline modelPipe in
      let refinement' :=
        match pipeline_ with
        | firstSeg :: _ => QOPDesc.refineFrom refinement firstSeg
        | [] => refinement
        end in
      seg <- QOPDesc.getOp_segment refinement' ;;
      ret (mkPipeline None (match pipeline_ with
                            | _ :: rest => seg :: rest
                            | [] => [seg]
                            end))
  end.
End Methods.
End PipelineDesc.

Definition seg_weightMeasure (s : PipeSegment) : option string :=
  match s with IndexSegment _ w _ _ _ => w | QuerySegment _ _ _ _ _ _ _ => None end.

(** The fields of an index segment. *)
Definition seg_fields_index (s : PipeSegment) : list string :=
  match s with IndexSegment f _ _ _ _ => f | QuerySegment _ _ _ _ _ _ _ => [] end.

(** ** Vocabulary of the properties *)

(** The [Limit] properties of a segment, in order. *)
Definition limitsOf (props : list QueryProperty) : list Limit :=
  flat_map (fun qp => match qp with QPLimit l => [l] | _ => [] end) props.

Definition tooManyLimits (l : Limit) : Diagnostic :=
  mkDiag (lim_id l) "Ignored, too many limit: statements".

(** The limit an index executor holds after [props], starting from [cur]. *)
Definition heldLimit (cur : option Limit) (props : list QueryProperty) : option Limit :=
  fold_left (fun c qp => match qp with QPLimit l => Some l | _ => c end) props cur.

Definition opt_list {A} (o : option A) : list A :=
  match o with Some a => [a] | None => [] end.

(** The segment a finalize call answered with (the segment of the error
    sentinel when it threw). *)
Definition fst_ok {O} (r : Result PipeSegment * World O) : PipeSegment :=
  match fst r with
  | Ok s => s
  | Throw _ => ErrorFactory_reduceSegment
  end.

(** The paths an expression asks its field space for while it is
    evaluated from [w]. *)
Fixpoint lookups {O A} (fs : FieldSpace O) (p : Eval A) (w : World O)
  : list (list FieldName) :=
  match p with
  | Ret _ | Raise _ => []
  | LogAt el msg k => lookups fs k (snd (log_at el msg w))
  | Lookup path k =>
      path :: match fs_lookup fs path w with
              | (Ok r, w') => lookups fs (k r) w'
              | (Throw _, _) => []
              end
  end.

Definition expr_lookups {O} (fs : FieldSpace O) (e : ExpressionDef) (w : World O)
  : list (list FieldName) :=
  match e with
  | ExprNode _ p => lookups fs p w
  | ExprDuration _ _ _ => []
  end.

(** The path starts with the name [name]. *)
Definition refersTo (name : string) (path : list FieldName) : bool :=
  match path with
  | s0 :: _ => String.eqb (refString s0) name
  | [] => false
  end.

Definition circularError (name : string) : string :=
  "Circular reference to '" +++ name +++ "' in definition".

(** [dimension: x is x]: the reference looks [x] up, logs the error it is
    given, and has an error value. *)
Definition selfReference : FieldDeclaration :=
  mkFieldDeclaration (Src 40)
    (ExprNode (Src 41)
       (Lookup [mkFieldName (Src 41) "x"]
          (fun r => match lv_error r with
                    | Some e => LogAt (Src 41) e
                                  (Ret (plainValue TError scalar constant [FString "_ERROR_"]))
                    | None => Ret (plainValue TNumber scalar input [FString "x"])
                    end)))
    "x" (Some "x"%string) (Some false).

(** The world of a declaration evaluated in an empty space, next to a
    fresh def-space. *)
Definition defWorld0 : World (unit * bool) := mkWorld [] (tt, false).

(** Whether the edit keeps the entry called [name]: with no edit every
    name is kept, [accept] keeps the listed names, [except] the others. *)
Definition chosen (choose : option FieldListEdit) (name : string) : bool :=
  match choose with
  | None => true
  | Some c =>
      Bool.eqb (existsb (fun f => String.eqb (fre_refString f) name) (fle_refs c))
               (match fle_edit c with accept => true | except => false end)
  end.

(** The entries of the space over a struct [s] ([Object.entries] of its
    name map), when the map can be built. *)
Definition entriesOf (s : StructDef) : Result (list (string * SpaceEntry)) :=
  fst (StaticSpace.entries (mkWorld [] (StaticSpace.new s))).

Definition entriesOfSpace (ds : DynamicSpace) : Result (list (string * SpaceEntry)) :=
  fst (DynamicSpace.entries (mkWorld [] ds)).

Definition ref (name : string) : FieldReferenceElement :=
  FRRef (mkFieldReference (Src 50) [mkFieldName (Src 50) name] name name).

(** [accept: carrier, origin] *)
Definition acceptCarrierOrigin : FieldListEdit :=
  mkFieldListEdit (Src 51) accept [ref "carrier"; ref "origin"].
(** [except: carrier, origin] *)
Definition exceptCarrierOrigin : FieldListEdit :=
  mkFieldListEdit (Src 52) except [ref "carrier"; ref "origin"].

(** What the loop of [filteredFrom] makes of the name map [acc] when it
    goes over the old entries. *)
Definition refill (choose : FieldListEdit) (acc : FieldMap)
           (oldMap : list (string * SpaceEntry)) : FieldMap :=
  fold_left (fun a sv => if chosen (Some choose) (fst sv) then obj_set (fst sv) (snd sv) a
                         else a)
            oldMap acc.

(** ** Vocabulary of the frame lemmas *)

(** [keeps F w w']: from [w] to [w'] the log has only grown and the part
    [F] of the objects is the same. *)
Definition keeps {O X} (F : O -> X) (w w' : World O) : Prop :=
  (exists l, log w' = log w ++ l) /\ F (objs w') = F (objs w).

Definition frames {O X A} (F : O -> X) (m : M O A) : Prop :=
  forall w, keeps F w (snd (m w)).

Definition nothing {O} (o : O) : unit := tt.


(** The part of a dynamic space that is not its name map. *)
Definition lifecycle (ds : DynamicSpace) : option StructDef * list (Outcome unit) * bool :=
  (final ds, completions ds, complete ds).


(** What the executor itself holds, apart from its result space. *)
Definition reduceState (ex : ReduceExecutor) :=
  (re_filters ex, re_order ex, re_limit ex).


(** A query field that is the definition of an aggregate expression or of
    a nested query (a turtle).  Names and filtered names are references,
    not definitions. *)
Definition aggregateOrTurtle (q : QueryFieldDef) : bool :=
  match q with
  | QField d =>
      (FieldValueType_eqb (fieldDef_type d) TTurtle
       || expressionIsAggregate (fieldDef_expressionType d))%bool
  | _ => false
  end.

Definition projectLegal (fields : list QueryFieldDef) : Prop :=
  Forall (fun q => aggregateOrTurtle q = false) fields.

(** What the proofs need of [mergeFields]: it makes nothing up. *)
Definition mergeFields_members (D : AnalysisDeps) : Prop :=
  forall older newer q,
    In q (mergeFields older newer) ->
    In q newer \/ exists o, older = Some o /\ In q o.


(** ** Vocabulary of the field order of a struct *)

(** Atomic definitions, then structs (joins), then turtles. *)
Definition fieldKind (f : FieldDef) : nat :=
  match f with AtomicDef _ => 0 | StructField _ => 1 | TurtleField _ => 2 end.

(** The order as the spec words it, on the emitted definitions: no struct
    before an atomic field, no turtle before a struct or an atomic field. *)
Definition kindsInOrder (fs : list FieldDef) : Prop :=
  forall i j a b,
    i < j -> nth_error fs i = Some a -> nth_error fs j = Some b ->
    fieldKind a <= fieldKind b.

(** The three groups of the first loop of [structDef], by the class of the
    entry: a field entry that is neither a [StructSpaceField] nor a
    [QueryField]; a [StructSpaceField]; a [QueryField]. *)
Definition isPlainField (e : SpaceEntry) : bool :=
  (negb (isStructSpaceField e) && negb (isQueryField e) && isSpaceField e)%bool.

Definition plainEntries (es : list (string * SpaceEntry)) : list (string * SpaceEntry) :=
  filter (fun ne => isPlainField (snd ne)) es.
Definition joinEntries (es : list (string * SpaceEntry)) : list (string * SpaceEntry) :=
  filter (fun ne => isStructSpaceField (snd ne)) es.
Definition turtleEntries (es : list (string * SpaceEntry)) : list (string * SpaceEntry) :=
  filter (fun ne => (negb (isStructSpaceField (snd ne)) && isQueryField (snd ne))%bool) es.

Definition emissionOrder (es : list (string * SpaceEntry)) : list (string * SpaceEntry) :=
  plainEntries es ++ joinEntries es ++ turtleEntries es.

(** The definition an entry gives through [fieldDef()]. *)
Fixpoint defShape (e : SpaceEntry) (fd : FieldDef) : Prop :=
  match e with
  | ColumnSpaceField def => fd = AtomicDef def
  | StructSpaceField s => fd = StructField s
  | JoinSpaceField s _ => fd = StructField s
  | QueryFieldStruct t => fd = TurtleField t
  | QueryFieldAST _ _ _ => exists t, fd = TurtleField t
  | ExpressionFieldFromAst _ => exists d, fd = AtomicDef d
  | RenameSpaceField other n l =>
      exists raw, defShape other raw /\ fd = fieldDef_with_as_location raw n l
  | _ => False
  end.

(** What one entry adds to [final.fields] in the second loop: a join adds
    the struct of [join.structDef()] unless that is the error struct; any
    other entry adds its definition. *)
Definition emitted {D : AnalysisDeps} (ne : string * SpaceEntry) (fds : list FieldDef) : Prop :=
  match snd ne with
  | JoinSpaceField _ join =>
      exists joinStruct,
        out_result (join_structDef join) = Ok joinStruct
        /\ fds = if isErrorStructDef joinStruct then [] else [StructField joinStruct]
  | e => exists fd, defShape e fd /\ fds = [fd]
  end.

(** The joins of a list of entries whose struct is not the error struct:
    the ones the second pass revisits. *)
Definition keptJoins {D : AnalysisDeps} (es : list (string * SpaceEntry)) : list Join :=
  flat_map (fun ne => match snd ne with
                      | JoinSpaceField _ join =>
                          match out_result (join_structDef join) with
                          | Ok s => if isErrorStructDef s then [] else [join]
                          | Throw _ => []
                          end
                      | _ => []
                      end) es.

(** The second pass changes a struct in place: a slot holds the same
    definition as before, or a struct where a struct was. *)
Definition sameSlot (a b : FieldDef) : Prop :=
  a = b \/ exists s s', a = StructField s /\ b = StructField s'.

Definition finalFields (w : World DynamicSpace) : option (list FieldDef) :=
  option_map sd_fields (final (objs w)).

(** ** Vocabulary of the name map of a space *)

(** The world [w] once the name map of its space has been built and is
    [m]. *)
Definition withMap (w : World DynamicSpace) (m : FieldMap) : World DynamicSpace :=
  mkWorld (log w)
          (mkDynamicSpace (mkStaticSpace (fromStruct (base (objs w))) (Some m))
                          (final (objs w)) (completions (objs w)) (complete (objs w))).

(** The last field of a struct that goes by the name [n]. *)
Definition lastNamed (n : string) (fields : list FieldDef) : option FieldDef :=
  find (fun f => String.eqb (fieldDef_name f) n) (rev fields).

(** The fields of one kind, in order. *)
Definition fieldsOfKind (k : nat) (fields : list FieldDef) : list FieldDef :=
  filter (fun f => Nat.eqb (fieldKind f) k) fields.

(** The entry a static space makes of a field of its struct. *)
Definition entryOf (f : FieldDef) : string * SpaceEntry :=
  (fieldDef_name f, StaticSpace.fromFieldDef f).

(** ** Vocabulary of query operations *)

(** The type a property speaks for, if any. *)
Definition typeOfProperty (qp : QueryProperty) : option QOPType :=
  match qp with
  | QPIndex _ => Some QIndex
  | QPNests _ _ | QPNestedQuery _ | QPGroupBy _ _ => Some QGrouping
  | QPAggregate _ _ => Some QAggregate
  | QPProjectStatement _ _ => Some QProject
  | _ => None
  end.

(** The type of the first property that speaks for one. *)
Fixpoint decidingType (els : list QueryProperty) : option QOPType :=
  match els with
  | [] => None
  | el :: rest =>
      match typeOfProperty el with
      | Some t => Some t
      | None => decidingType rest
      end
  end.

Definition isGroupingProperty (qp : QueryProperty) : bool :=
  match typeOfProperty qp with Some QGrouping => true | _ => false end.

(** The kind of segment an executor for a type of operation builds, and
    the kind of a segment. *)
Definition segmentOfType (t : QOPType) : SegmentKind :=
  match t with
  | QGrouping | QAggregate => KReduce
  | QProject => KProject
  | QIndex => KIndex
  end.

Definition kindOfSegment (s : PipeSegment) : SegmentKind :=
  match s with
  | QuerySegment reduce _ _ _ _ _ _ => KReduce
  | QuerySegment project _ _ _ _ _ _ => KProject
  | IndexSegment _ _ _ _ _ => KIndex
  end.

(** ** Invariants of a computation *)

(** [m] keeps the property [P] of the objects. *)
Definition preserves {O A} (P : O -> Prop) (m : M O A) : Prop :=
  forall w, P (objs w) -> P (objs (snd (m w))).

(** The limits the properties of a reduce or project operation give, in
    order: those of [limit:] and of [top:]. *)
Definition reduceLimitsOf (props : list QueryProperty) : list Z :=
  flat_map (fun qp => match qp with
                      | QPLimit l => [lim_limit l]
                      | QPTop t => [top_limit t]
                      | _ => []
                      end) props.

(** The limit a reduce executor holds after it was given the limits
    [ls], when it held [cur]: a limit is taken only while the one held
    is absent or zero. *)
Definition heldReduceLimit (cur : option Z) (ls : list Z) : option Z :=
  fold_left (fun c n => if truthy_opt_number c then c else Some n) ls cur.

(** The ordering a property of a reduce or project operation gives: an
    [order_by:], or a [top:] with a [by]. *)
Definition orderOfProperty (qp : QueryProperty) : option OrderSource :=
  match qp with
  | QPOrdering o => Some (OrderOrdering o)
  | QPTop t => match top_by t with Some _ => Some (OrderTop t) | None => None end
  | _ => None
  end.

Fixpoint firstOrder (props : list QueryProperty) : option OrderSource :=
  match props with
  | [] => None
  | qp :: rest =>
      match orderOfProperty qp with
      | Some o => Some o
      | None => firstOrder rest
      end
  end.

(** ** Concrete objects for runs *)

Definition column (name : string) (t : FieldValueType) : FieldTypeDef :=
  mkFieldTypeDef name None t None None None None None.

(** A table [flights] with columns [carrier], [distance] and [origin]. *)
Definition flights : StructDef :=
  mkStructDef "flights" None "standardsql"
              [AtomicDef (column "carrier" TString);
               AtomicDef (column "distance" TNumber);
               AtomicDef (column "origin" TString)]
              None None None SrcTable RelBasetable None.

Definition flightsEmpty : StructDef := sd_with_fields flights [].

Definition resultSpace0 (kind : SegmentKind) : ResultSpace :=
  mkResultSpace (DynamicSpace.new flightsEmpty)
                (mkQuerySpace (DynamicSpace.new flights) [])
                (Some (Src 100)) kind [].

Definition indexWorld0 : World IndexExecutor :=
  mkWorld [] (mkIndexExecutor [] None None None (resultSpace0 KIndex)).

Definition reduceWorld0 : World ReduceExecutor :=
  mkWorld [] (mkReduceExecutor (resultSpace0 KReduce) [] None None).

Definition projectWorld0 : World ReduceExecutor :=
  mkWorld [] (mkReduceExecutor (resultSpace0 KProject) [] None None).

(** [limit: 5] followed by [limit: 7]. *)
Definition limit5 : Limit := mkLimit (Src 30) 5.
Definition limit7 : Limit := mkLimit (Src 31) 7.
Definition twoLimits : list QueryProperty := [QPLimit limit5; QPLimit limit7].

(** An existing reduce segment ordered by its first column, limited to 10
    rows and filtered, and one whose limit is 0. *)
Definition carrierFilter : FilterExpression :=
  mkFilterExpression "carrier = 'AA'" [FString "carrier='AA'"] scalar.
Definition distanceFilter : FilterExpression :=
  mkFilterExpression "distance > 100" [FString "distance>100"] scalar.

Definition existingReduce : PipeSegment :=
  QuerySegment reduce [QName "carrier"]
               (Some [mkOrderBy (OrderIndex 1) (Some desc)]) None (Some 10%Z)
               (Some [carrierFilter]) None.

Definition existingReduceLimit0 : PipeSegment :=
  QuerySegment reduce [QName "carrier"] None None (Some 0%Z) None None.

(** A reduce executor that has seen one more filter, and no ordering or
    limit. *)
Definition refiningWorld : World ReduceExecutor :=
  mkWorld [] (mkReduceExecutor (resultSpace0 KReduce) [distanceFilter] None None).

Definition flightsWorld0 : World DynamicSpace := mkWorld [] (DynamicSpace.new flights).

(** [project: total is sum(distance), carrier]: the declaration of an
    aggregate and a reference. *)
Definition totalDistance : FieldDeclaration :=
  mkFieldDeclaration (Src 60)
    (ExprNode (Src 61) (Ret (plainValue TNumber aggregate input [FString "sum(distance)"])))
    "total" (Some "sum(distance)"%string) (Some true).

Definition carrierRef : FieldReference :=
  mkFieldReference (Src 62) [mkFieldName (Src 62) "carrier"] "carrier" "carrier".

Definition projectTotal : list QueryProperty :=
  [QPProjectStatement (Src 63) [FCMDecl totalDistance; FCMRef carrierRef]].

(** The project executor after it has executed [projectTotal]. *)
Definition projectedWorld : World ReduceExecutor :=
  Eval vm_compute in
    snd (for_each projectTotal (ProjectExecutor.execute (D:=sampleAnalysisDeps)) projectWorld0).

(** [flights] with a join to [carriers], extended by
    [rename: c2 is carriers] and [dimension: miles is 1]. *)
Definition carriers : StructDef :=
  mkStructDef "carriers" None "standardsql"
              [AtomicDef (column "code" TString)]
              None None None SrcTable (RelJoin None) None.

Definition flightsJoined : StructDef :=
  sd_with_fields flights (sd_fields flights ++ [StructField carriers]).

Definition renameCarriers : RenameField :=
  mkRenameField (Src 70) "c2" (mkFieldName (Src 71) "carriers").

Definition miles : FieldDeclaration :=
  mkFieldDeclaration (Src 72)
    (ExprNode (Src 73) (Ret (plainValue TNumber scalar literal [FString "1"])))
    "miles" (Some "1"%string) None.

Definition renamedJoinWorld : World DynamicSpace :=
  Eval vm_compute in
    snd (AddField.addField [EFRename renameCarriers; EFDecl miles]
           (mkWorld [] (DynamicSpace.new flightsJoined))).

Definition renamedJoinEntries : list (string * SpaceEntry) :=
  Eval vm_compute in
    match fst (DynamicSpace.entries renamedJoinWorld) with
    | Ok es => es
    | Throw _ => []
    end.

Definition renamedJoinStruct : StructDef :=
  Eval vm_compute in
    match fst (DynamicSpace.structDef (D:=sampleAnalysisDeps) renamedJoinWorld) with
    | Ok sd => sd
    | Throw _ => flightsJoined
    end.

Definition renamedJoinFinal : World DynamicSpace :=
  Eval vm_compute in snd (DynamicSpace.structDef (D:=sampleAnalysisDeps) renamedJoinWorld).

(** Operands for runs of the dispatcher: a string, a null, a timestamp and
    a plain number. *)
Definition stringNode : ExpressionDef :=
  ExprNode (Src 80) (Ret (plainValue TString scalar input [FString "carrier"])).
Definition nullNode : ExpressionDef :=
  ExprNode (Src 81) (Ret (plainValue TNull scalar constant [FString "NULL"])).
Definition timestampNode : ExpressionDef :=
  ExprNode (Src 82) (Ret (plainValue TTimestamp scalar input [FString "dep_time"])).
Definition oneNode : ExpressionDef :=
  ExprNode (Src 83) (Ret (plainValue TNumber scalar literal [FString "1"])).

(** A date that can stand for a timestamp. *)
Definition morphicDate : ExprValue :=
  mkExprValue TDate scalar literal [FString "DATE '2020-01-01'"]
              (Some [(TTimestamp, [FString "TIMESTAMP '2020-01-01 00:00:00'"])])
              (Some day) None.

(** The name map of the space over [flights]. *)
Definition flightsEntries : FieldMap :=
  Eval vm_compute in
    match fst (DynamicSpace.entries flightsWorld0) with
    | Ok m => m
    | Throw _ => []
    end.

(** [flights] with a parameter named like its column [carrier]. *)
Definition carrierParam : Param := ValueParameter "carrier" TString None false.
Definition flightsClash : StructDef :=
  sd_with_parameters flights (Some [("carrier"%string, carrierParam)]).

(** [rename: airline is carrier] *)
Definition renameCarrier : RenameField :=
  mkRenameField (Src 92) "airline" (mkFieldName (Src 93) "carrier").

(** Query operations: one that refines [existingReduce], and
    [aggregate: ... group_by: ...] after a limit. *)
Definition qopRefine : QOPDesc :=
  mkQOPDesc (Src 110) [QPLimit limit5] (Some existingReduce).
Definition qopAggregate : QOPDesc :=
  mkQOPDesc (Src 111) [QPLimit limit5; QPAggregate (Src 112) []; QPGroupBy (Src 113) []] None.

(** The segment [qopRefine] builds over [flights], and the world it
    leaves. *)
Definition qopRefineSegment : PipeSegment :=
  Eval vm_compute in
    match fst (QOPDesc.getOp_segment (D:=sampleAnalysisDeps) qopRefine flightsWorld0) with
    | Ok s => s
    | Throw _ => ErrorFactory_indexSegment
    end.
Definition qopRefineWorld : World DynamicSpace :=
  Eval vm_compute in
    snd (QOPDesc.getOp_segment (D:=sampleAnalysisDeps) qopRefine flightsWorld0).

(** A two-segment pipeline whose head is refined by [limit: 5]. *)
Definition qopLimit : QOPDesc := mkQOPDesc (Src 114) [QPLimit limit5] None.
Definition headPipe : Pipeline := mkPipeline None [existingReduce; existingReduceLimit0].
Definition refinedPipe : Pipeline :=
  Eval vm_compute in
    match fst (PipelineDesc.refinePipeline (D:=sampleAnalysisDeps) (Src 115) (Some qopLimit)
                 headPipe flightsWorld0) with
    | Ok p => p
    | Throw _ => headPipe
    end.
Definition refinedPipeWorld : World DynamicSpace :=
  Eval vm_compute in
    snd (PipelineDesc.refinePipeline (D:=sampleAnalysisDeps) (Src 115) (Some qopLimit)
           headPipe flightsWorld0).

(** A completion step that logs. *)
Definition missingFromOutput : Outcome unit :=
  mkOutcome [mkDiag (Src 95) "all() 'carrier' is missing from query output"] (Ok tt).

(** [dimension: bad is 1 ~ 'carrier']: its expression throws. *)
Definition throwingDecl : FieldDeclaration :=
  mkFieldDeclaration (Src 96)
    (ExprNode (Src 97) (Raise "Incompatible types for match('~') operator"))
    "bad" (Some "1 ~ 'carrier'"%string) None.

(** An existing index segment with a weight measure, and what the empty
    index executor makes of it. *)
Definition existingIndex : PipeSegment :=
  IndexSegment ["carrier"%string] (Some "flight_count"%string) None
               (Some [carrierFilter]) (Some 10%Z).
Definition refinedIndex : PipeSegment :=
  Eval vm_compute in
    match fst (IndexExecutor.finalize (Some existingIndex) indexWorld0) with
    | Ok s => s
    | Throw _ => ErrorFactory_reduceSegment
    end.
Definition refinedIndexWorld : World IndexExecutor :=
  Eval vm_compute in
    snd (IndexExecutor.finalize (Some existingIndex) indexWorld0).

(** [index: carrier, carrier, origin] against [existingIndex], which
    lists [carrier] already. *)
Definition indexTwice : list QueryProperty :=
  [QPIndex (mkIndex (Src 116) [ref "carrier"; ref "carrier"; ref "origin"] None)].
Definition indexTwiceSegment : PipeSegment :=
  Eval vm_compute in
    match fst (IndexExecutor.run (D:=sampleAnalysisDeps) indexTwice (Some existingIndex)
                                 indexWorld0) with
    | Ok s => s
    | Throw _ => IndexSegment ["x"; "x"]%string None None None None
    end.
Definition indexTwiceWorld : World IndexExecutor :=
  Eval vm_compute in
    snd (IndexExecutor.run (D:=sampleAnalysisDeps) indexTwice (Some existingIndex)
                           indexWorld0).

(** [limit: 0] then [top: 5] then [limit: 7] *)
Definition zeroThenLimits : list QueryProperty :=
  [QPLimit (mkLimit (Src 117) 0); QPTop (mkTop (Src 118) 5 None); QPLimit limit7].
Definition zeroThenLimitsWorld : World ReduceExecutor :=
  Eval vm_compute in
    snd (for_each zeroThenLimits (ReduceExecutor.execute (D:=sampleAnalysisDeps))
                  reduceWorld0).

(** [top: 5 by carrier] then [order_by: 1 desc] *)
Definition topByCarrier : Top :=
  mkTop (Src 119) 5 (Some (TopByName (mkFieldName (Src 119) "carrier"))).
Definition topThenOrder : list QueryProperty :=
  [QPTop topByCarrier; QPOrdering (mkOrdering (Src 121) [])].
Definition topThenOrderWorld : World ReduceExecutor :=
  Eval vm_compute in
    snd (for_each topThenOrder (ReduceExecutor.execute (D:=sampleAnalysisDeps))
                  reduceWorld0).

(** The reduce result space over [flights] after [group_by: carrier]. *)
Definition carrierReference : FieldReference :=
  mkFieldReference (Src 122) [mkFieldName (Src 122) "carrier"] "carrier" "carrier".
Definition groupedWorld : World ResultSpace :=
  Eval vm_compute in
    snd (ResultSpace.addReference carrierReference (mkWorld [] (resultSpace0 KReduce))).
Definition groupedEntries : FieldMap :=
  Eval vm_compute in
    match entriesOfSpace (rs_space (objs groupedWorld)) with
    | Ok m => m
    | Throw _ => []
    end.

(** * Properties *)

(** ** Monad and list helpers *)

Lemma bind_ok {O A B} (m : M O A) (k : A -> M O B) w a w' :
  m w = (Ok a, w') -> bind m k w = k a w'.
Proof. intros H. unfold bind. rewrite H. reflexivity. Qed.

Lemma bind_throw {O A B} (m : M O A) (k : A -> M O B) w e w' :
  m w = (Throw e, w') -> bind m k w = (Throw e, w').
Proof. intros H. unfold bind. rewrite H. reflexivity. Qed.

Lemma bind_assoc {O A B C} (m : M O A) (k : A -> M O B) (k' : B -> M O C) w :
  bind (bind m k) k' w = bind m (fun a => bind (k a) k') w.
Proof. unfold bind. destruct (m w) as [[a|e] w']; reflexivity. Qed.

Lemma bind_ret_l {O A B} (a : A) (k : A -> M O B) w : bind (ret a) k w = k a w.
Proof. reflexivity. Qed.

Lemma FieldValueType_eqb_eq a b : FieldValueType_eqb a b = true <-> a = b.
Proof. split; [destruct a, b; simpl; congruence | intros ->; destruct b; reflexivity]. Qed.

Lemma maxExpressionType_scalar_l a : maxExpressionType scalar a = a.
Proof. destruct a; reflexivity. Qed.

(** [maxExpressionType] is the maximum in the order
    scalar < aggregate < analytic < ungrouped_aggregate. *)
Lemma maxExpressionType_rank a b :
  ExpressionType_rank (maxExpressionType a b)
  = Nat.max (ExpressionType_rank a) (ExpressionType_rank b).
Proof. destruct a, b; reflexivity. Qed.

Lemma maxOfExpressionTypes_pair a b :
  maxOfExpressionTypes [a; b] = maxExpressionType a b.
Proof. unfold maxOfExpressionTypes. simpl. now rewrite maxExpressionType_scalar_l. Qed.

(** ** Error cascade in the operator dispatcher *)

Section EvaluatorFacts.
Context {X : EvaluatorDeps} {O : Type} (fs : FieldSpace O).

Lemma errorCascade_some dt lhs rhs :
  (is_type lhs TError || is_type rhs TError)%bool = true ->
  errorCascade dt [lhs; rhs]
  = Some (plainValue dt (maxExpressionType (expressionType lhs) (expressionType rhs))
                     (mergeEvalSpaces [evalSpace lhs; evalSpace rhs])
                     [FString "'cascading error'"]).
Proof.
  intros H. unfold errorCascade. simpl existsb. rewrite orb_false_r, H.
  simpl map. now rewrite maxOfExpressionTypes_pair.
Qed.

Lemma unsupportError_none l lhs r rhs w :
  is_type lhs TUnsupported = false -> is_type rhs TUnsupported = false ->
  unsupportError (O:=O) l lhs r rhs w = (Ok None, w).
Proof. intros Hl Hr. unfold unsupportError. now rewrite Hl, Hr. Qed.

Lemma error_not_unsupported v :
  is_type v TError = true -> is_type v TUnsupported = false.
Proof. unfold is_type. destruct (dataType v); simpl; congruence. Qed.

Lemma error_not_time v :
  is_type v TError = true -> isTimeFieldType (dataType v) = false.
Proof. unfold is_type. destruct (dataType v); simpl; congruence. Qed.

(** C1 (as amended).  When an operand of a binary operator application is
    in error (and, for the additive operators and division, no operand is
    of the unsupported type), the dispatcher returns the cascading-error
    value: its data type is the result type of the operator class
    (boolean for equality and comparison, number for the arithmetic
    operators, error only for an additive operator whose left side is a
    time), its expression type is the maximum of the operands'
    expression types, and the world it leaves is the one the evaluation
    of the two operands left: no diagnostic is added. *)
Theorem applyBinary_error_cascade
        (d : nat) (left right : ExpressionDef) (op : string)
        (w w1 w2 : World O) (lhs rhs : ExprValue) :
  isBinaryOperator op = true ->
  getExpression left fs w = (Ok lhs, w1) ->
  getExpression right fs w1 = (Ok rhs, w2) ->
  (is_type lhs TError || is_type rhs TError)%bool = true ->
  ((isAdditive op || isDivision op)%bool = true ->
   is_type lhs TUnsupported = false /\ is_type rhs TUnsupported = false) ->
  applyBinary fs (S d) left op right w
  = (Ok (plainValue (cascadeType op lhs)
                    (maxExpressionType (expressionType lhs) (expressionType rhs))
                    (mergeEvalSpaces [evalSpace lhs; evalSpace rhs])
                    [FString "'cascading error'"]), w2).
Proof.
  intros Hop Hl Hr Herr Huns.
  unfold isBinaryOperator, isAdditive, isMultiplicative, isDivision in *.
  unfold cascadeType, isAdditive.
  simpl applyBinary. unfold applyBinary_body.
  remember (isEquality op) as eq_ eqn:Eeq.
  remember (isComparison op) as cmp eqn:Ecmp.
  remember (oneOf op ["+"; "-"]%string) as add eqn:Eadd.
  remember (oneOf op ["*"; "%"]%string) as mul eqn:Emul.
  remember (oneOf op ["/"]%string) as dv eqn:Ediv.
  destruct eq_.
  { unfold equality. rewrite (bind_ok _ _ _ _ _ Hl), (bind_ok _ _ _ _ _ Hr).
    now rewrite (errorCascade_some _ _ _ Herr). }
  destruct cmp.
  { unfold compare. rewrite (bind_ok _ _ _ _ _ Hl), (bind_ok _ _ _ _ _ Hr).
    now rewrite (errorCascade_some _ _ _ Herr). }
  destruct add.
  { destruct (Huns eq_refl) as [Ul Ur].
    unfold delta. rewrite (bind_ok _ _ _ _ _ Hl), (bind_ok _ _ _ _ _ Hr).
    rewrite (bind_ok _ _ _ _ _ (unsupportError_none left lhs right rhs w2 Ul Ur)).
    now rewrite (errorCascade_some _ _ _ Herr). }
  destruct mul.
  { unfold numeric. rewrite (bind_ok _ _ _ _ _ Hl), (bind_ok _ _ _ _ _ Hr).
    now rewrite (errorCascade_some _ _ _ Herr). }
  destruct dv; [| discriminate Hop].
  destruct (Huns eq_refl) as [Ul Ur].
  rewrite (bind_ok _ _ _ _ _ Hl), (bind_ok _ _ _ _ _ Hr).
  rewrite (bind_ok _ _ _ _ _ (unsupportError_none left lhs right rhs w2 Ul Ur)).
  now rewrite (errorCascade_some _ _ _ Herr).
Qed.
End EvaluatorFacts.

(** A sum whose left operand is in error. *)
Lemma applyBinary_error_cascade_witness :
  applyBinary (X:=sampleDeps) emptyFieldSpace 1 errorNode "+" numberNode world0
  = (Ok (plainValue TNumber aggregate input [FString "'cascading error'"]),
     mkWorld [mkDiag (Src 1) "'x' is not defined"] tt).
Proof.
  exact (applyBinary_error_cascade (X:=sampleDeps) emptyFieldSpace 0 errorNode numberNode "+"
           world0 _ _ _ _ eq_refl eq_refl eq_refl eq_refl
           (fun _ => conj eq_refl eq_refl)).
Defined.

(** C1 as stated fails: the value returned for an equality with an operand
    in error is boolean-typed, not error-typed. *)
Lemma applyBinary_error_operand_result_not_error_typed :
  exists v w',
    applyBinary (X:=sampleDeps) emptyFieldSpace 1 errorNode "=" numberNode world0 = (Ok v, w')
    /\ dataType v = TBoolean /\ dataType v <> TError.
Proof.
  eexists; eexists; split; [reflexivity | split; [reflexivity | discriminate]].
Qed.

(** With an unsupported left operand and a right operand in error, an
    additive operator and division log before the cascade is consulted
    (equality, comparison and the multiplicative operators check the
    cascade first). *)
Lemma applyBinary_unsupported_before_cascade :
  log (snd (applyBinary (X:=sampleDeps) emptyFieldSpace 1 unsupportedNode "+" errorNode world0))
  = [mkDiag (Src 1) "'x' is not defined";
     mkDiag (Src 3) "Unsupported type not allowed in expression"]
  /\ log (snd (applyBinary (X:=sampleDeps) emptyFieldSpace 1 unsupportedNode "/" errorNode world0))
  = [mkDiag (Src 1) "'x' is not defined";
     mkDiag (Src 3) "Unsupported type not allowed in expression";
     mkDiag (Src 3) "Cannot operate with unsupported type"]
  /\ log (snd (applyBinary (X:=sampleDeps) emptyFieldSpace 1 unsupportedNode "*" errorNode world0))
  = [mkDiag (Src 1) "'x' is not defined"].
Proof. repeat split; reflexivity. Qed.

(** ** What a computation leaves alone *)

Lemma keeps_refl {O X} (F : O -> X) w : keeps F w w.
Proof. split; [exists []; now rewrite app_nil_r | reflexivity]. Qed.

Lemma keeps_trans {O X} (F : O -> X) w1 w2 w3 :
  keeps F w1 w2 -> keeps F w2 w3 -> keeps F w1 w3.
Proof.
  intros [[l1 H1] E1] [[l2 H2] E2]. split.
  - exists (l1 ++ l2). now rewrite H2, H1, app_assoc.
  - congruence.
Qed.

Lemma frames_run {O X A} (F : O -> X) (m : M O A) w r w' :
  frames F m -> m w = (r, w') -> keeps F w w'.
Proof. intros H E. specialize (H w). now rewrite E in H. Qed.

Section FrameRules.
Context {O X : Type} (F : O -> X).

Lemma frames_ret {A} (a : A) : frames F (ret a).
Proof. intros w. apply keeps_refl. Qed.

Lemma frames_throw {A} msg : frames F (throw (A:=A) msg).
Proof. intros w. apply keeps_refl. Qed.

Lemma frames_get : frames F get.
Proof. intros w. apply keeps_refl. Qed.

Lemma frames_log_at el msg : frames F (log_at el msg).
Proof. intros w. split; [now exists [mkDiag el msg] | reflexivity]. Qed.

Lemma frames_run_outcome {A} (o : Outcome A) : frames F (run_outcome o).
Proof. intros w. split; [now exists (out_log o) | reflexivity]. Qed.

Lemma frames_modify (f : O -> O) : (forall o, F (f o) = F o) -> frames F (modify f).
Proof. intros H w. split; [exists []; simpl; now rewrite app_nil_r | apply H]. Qed.

Lemma frames_bind {A B} (m : M O A) (k : A -> M O B) :
  frames F m -> (forall a, frames F (k a)) -> frames F (bind m k).
Proof.
  intros Hm Hk w. unfold bind. specialize (Hm w).
  destruct (m w) as [[a|e] w1]; simpl in *; [|exact Hm].
  eapply keeps_trans; [exact Hm | apply Hk].
Qed.

Lemma frames_try_catch {A} (m : M O A) (h : string -> M O A) :
  frames F m -> (forall e, frames F (h e)) -> frames F (try_catch m h).
Proof.
  intros Hm Hh w. unfold try_catch. specialize (Hm w).
  destruct (m w) as [[a|e] w1]; simpl in *; [exact Hm|].
  eapply keeps_trans; [exact Hm | apply Hh].
Qed.

Lemma frames_for_each {A} (xs : list A) (body : A -> M O unit) :
  (forall x, frames F (body x)) -> frames F (for_each xs body).
Proof.
  intros H. induction xs; simpl; [apply frames_ret|].
  apply frames_bind; auto.
Qed.

Lemma frames_map_m {A B} (f : A -> M O B) (xs : list A) :
  (forall x, frames F (f x)) -> frames F (map_m f xs).
Proof.
  intros H. induction xs; simpl; [apply frames_ret|].
  apply frames_bind; [apply H|]. intros y.
  apply frames_bind; [apply IHxs|]. intros ys. apply frames_ret.
Qed.

Lemma frames_run_eval {A} (fs : FieldSpace O) (p : Eval A) :
  (forall path, frames F (fs_lookup fs path)) -> frames F (run_eval fs p).
Proof.
  intros H. induction p as [a|msg|el msg k IH|path k IH]; simpl.
  - apply frames_ret.
  - apply frames_throw.
  - apply frames_bind; [apply frames_log_at | intros _; exact IH].
  - apply frames_bind; [apply H | intros r; apply IH].
Qed.

Lemma frames_getExpression (fs : FieldSpace O) (e : ExpressionDef) :
  (forall path, frames F (fs_lookup fs path)) -> frames F (getExpression e fs).
Proof.
  intros H. destruct e; simpl; [now apply frames_run_eval | apply frames_ret].
Qed.

(** A method call on a sub-object: the caller's [F] is kept when the
    write-back of the sub-object cannot change it, given what the callee
    keeps ([G]). *)
Lemma frames_zoom {P Y A} (G : P -> Y) (getp : O -> P) (setp : P -> O -> O) (m : M P A) :
  (forall o p', G p' = G (getp o) -> F (setp p' o) = F o) ->
  frames G m -> frames F (zoom getp setp m).
Proof.
  intros Hset Hm w. unfold zoom.
  specialize (Hm (mkWorld (log w) (getp (objs w)))).
  destruct (m _) as [r w1]. simpl in *. destruct Hm as [Hl Hg].
  split; [exact Hl | now apply Hset].
Qed.

Lemma frames_with_local {S A} (s0 : S) (m : M (O * S) A) :
  frames (fun os => F (fst os)) m -> frames F (with_local s0 m).
Proof.
  intros Hm w. unfold with_local.
  specialize (Hm (mkWorld (log w) (objs w, s0))).
  destruct (m _) as [[a|e] w1]; simpl in *; exact Hm.
Qed.
End FrameRules.

Lemma frames_put {O} (o : O) : frames (nothing (O:=O)) (put o).
Proof. intros w. split; [exists []; simpl; now rewrite app_nil_r | reflexivity]. Qed.

(** One step of a frame proof: a rule for the head construct, or a case
    split on what the computation branches on. *)
Ltac frame_step :=
  match goal with
  | |- frames _ (ret _) => apply frames_ret
  | |- frames _ (throw _) => apply frames_throw
  | |- frames _ get => apply frames_get
  | |- frames _ (log_at _ _) => apply frames_log_at
  | |- frames _ (run_outcome _) => apply frames_run_outcome
  | |- frames _ (put _) => apply frames_put
  | |- frames _ (modify _) => apply frames_modify; intros; try reflexivity
  | |- frames _ (bind _ _) => apply frames_bind; [| intros ?]
  | |- frames _ (try_catch _ _) => apply frames_try_catch; [| intros ?]
  | |- frames _ (for_each _ _) => apply frames_for_each; intros ?
  | |- frames _ (map_m _ _) => apply frames_map_m; intros ?
  | |- frames _ (with_local _ _) => apply frames_with_local
  | |- frames _ (getExpression _ _) => apply frames_getExpression; intros ?
  | |- frames _ (run_eval _ _) => apply frames_run_eval; intros ?
  | |- frames _ (match ?x with _ => _ end) => destruct x
  | |- frames _ (let (_, _) := ?x in _) => destruct x
  end.

Create HintDb frames.

Ltac frame_solve := repeat first [ frame_step | solve [eauto with frames] ].

(** ** Filters: the having/where check *)

Section FilterFacts.
Context {D : AnalysisDeps} {O : Type}.

(** A filter made by the constructor, with or without a later use of the
    [having] setter, has no [havingClause]. *)
Lemma Filter_havingClause_never_set id els :
  f_havingClause (Filter.new id els) = None
  /\ forall b, f_havingClause (Filter.set_having (Filter.new id els) b) = None.
Proof. split; reflexivity. Qed.

(** Without a [havingClause], the loop checks nothing: every element's
    filter expression is appended and no element is logged against. *)
Lemma getFilterList_loop_unchecked (this : Filter) (fs : FieldSpace O) :
  f_havingClause this = None ->
  forall els checked w,
    Filter.getFilterList_loop this fs els checked w
    = (more <- map_m (fun el => FilterElement.filterExpression el fs) els ;;
       ret (checked ++ more)) w.
Proof.
  intros Hnone. induction els as [|el rest IH]; intros checked w; simpl.
  - unfold bind, ret. now rewrite app_nil_r.
  - rewrite bind_assoc.
    destruct (FilterElement.filterExpression el fs w) as [[fExpr|e] w1] eqn:E.
    + rewrite !(bind_ok _ _ _ _ _ E), Hnone, IH, bind_assoc.
      destruct (map_m (fun el0 => FilterElement.filterExpression el0 fs) rest w1)
        as [[more|e] w2] eqn:E2.
      * rewrite !(bind_ok _ _ _ _ _ E2). unfold bind, ret. now rewrite <- app_assoc.
      * now rewrite !(bind_throw _ _ _ _ _ E2).
    + now rewrite !(bind_throw _ _ _ _ _ E).
Qed.

Lemma getFilterList_unchecked id els b (fs : FieldSpace O) w :
  Filter.getFilterList (Filter.set_having (Filter.new id els) b) fs w
  = map_m (fun el => FilterElement.filterExpression el fs) els w.
Proof.
  unfold Filter.getFilterList. rewrite getFilterList_loop_unchecked by reflexivity.
  simpl. unfold bind, ret.
  destruct (map_m _ els w) as [[more|e] w2]; reflexivity.
Qed.
End FilterFacts.

(** C2 (the code departs from the claim).  A WHERE filter whose one
    condition is an aggregate expression: [getFilterList] returns the
    condition and logs nothing. *)
Theorem getFilterList_where_keeps_aggregate :
  Filter.getFilterList (D:=sampleAnalysisDeps)
    (Filter.set_having (Filter.new (Src 9) [aggregateCondition]) false)
    emptyFieldSpace world0
  = (Ok [mkFilterExpression "sum(n) > 10" [FString "sum(n)>10"] aggregate], world0).
Proof. reflexivity. Qed.

(** A HAVING filter whose one condition is a scalar expression is returned
    as well, without a diagnostic. *)
Lemma getFilterList_having_keeps_scalar :
  Filter.getFilterList (D:=sampleAnalysisDeps)
    (Filter.set_having (Filter.new (Src 9) [scalarCondition]) true)
    emptyFieldSpace world0
  = (Ok [mkFilterExpression "state = 'CA'" [FString "state='CA'"] scalar], world0).
Proof. reflexivity. Qed.

(** Were [havingClause] ever true, the loop would reject the calculations
    (the test under HAVING is the same way round as the one under WHERE). *)
Lemma getFilterList_having_branch_rejects_aggregate :
  Filter.getFilterList (D:=sampleAnalysisDeps)
    (mkFilter (Src 9) "having" (Some true) [aggregateCondition; scalarCondition])
    emptyFieldSpace world0
  = (Ok [mkFilterExpression "state = 'CA'" [FString "state='CA'"] scalar],
     mkWorld [mkDiag (Src 10) "Aggregate or Analytical expression expected in HAVING filter"] tt).
Proof. reflexivity. Qed.

(** ** Top: the by-expression check *)

Section TopFacts.
Context {D : AnalysisDeps} {O : Type}.

(** [getBy] on a by-expression logs "top by expression must be an
    aggregate" exactly when the expression is an aggregate. *)
Lemma Top_getBy_logs_iff_aggregate (this : Top) (e : ExpressionDef)
      (fs : FieldSpace O) (w w1 : World O) (byExpr : ExprValue) :
  top_by this = Some (TopByExpr e) ->
  getExpression e fs w = (Ok byExpr, w1) ->
  Top.getBy this fs w
  = (Ok (Some (ByExpression (compressExpr (value byExpr)))),
     if expressionIsAggregate (Some (expressionType byExpr))
     then mkWorld (log w1 ++ [mkDiag (top_id this) "top by expression must be an aggregate"])
                  (objs w1)
     else w1).
Proof.
  intros Hby He. unfold Top.getBy. rewrite Hby.
  rewrite (bind_ok _ _ _ _ _ He).
  destruct (expressionIsAggregate _); reflexivity.
Qed.
End TopFacts.

(** C3 (the code departs from the claim).  [top: 10 by sum(n)], an
    aggregate by-expression: the diagnostic is logged. *)
Theorem Top_getBy_aggregate_logs :
  Top.getBy (D:=sampleAnalysisDeps) topByAggregate emptyFieldSpace world0
  = (Ok (Some (ByExpression [FString "sum(n)"])),
     mkWorld [mkDiag (Src 20) "top by expression must be an aggregate"] tt).
Proof. reflexivity. Qed.

(** [top: 10 by n + 1], a scalar by-expression: nothing is logged. *)
Lemma Top_getBy_scalar_silent :
  Top.getBy (D:=sampleAnalysisDeps) topByScalar emptyFieldSpace world0
  = (Ok (Some (ByExpression [FString "n+1"])), world0).
Proof. reflexivity. Qed.

(** ** Frames of the modelled methods *)

Lemma frames_weaken {O X Y A} (F : O -> X) (H : X -> Y) (m : M O A) :
  frames F m -> frames (fun o => H (F o)) m.
Proof. intros Hm w. destruct (Hm w) as [Hl Hf]. split; [exact Hl | now rewrite Hf]. Qed.

Lemma frames_nothing {O X A} (F : O -> X) (m : M O A) : frames F m -> frames nothing m.
Proof. intros Hm w. destruct (Hm w) as [Hl _]. now split. Qed.

Section QueryFieldDefFrames.
Context {D : AnalysisDeps} {O X : Type} (F : O -> X).

Lemma frames_DefSpace_lookup (fs : FieldSpace O) (c : FieldDeclaration) path :
  (forall p, frames F (fs_lookup fs p)) ->
  frames (fun os : O * bool => F (fst os)) (DefSpace.lookup fs c path).
Proof.
  intros H. unfold DefSpace.lookup.
  destruct path as [|s0 rest].
  - apply (frames_zoom _ F); [intros o p' E; exact E | apply H].
  - destruct (String.eqb _ _).
    + frame_solve.
    + apply (frames_zoom _ F); [intros o p' E; exact E | apply H].
Qed.

Lemma frames_queryFieldDef (decl : FieldDeclaration) (fs : FieldSpace O) name :
  (forall p, frames F (fs_lookup fs p)) ->
  frames F (FieldDeclaration.queryFieldDef decl fs name).
Proof. intros H. unfold FieldDeclaration.queryFieldDef. frame_solve. Qed.

End QueryFieldDefFrames.

Section EntryFrames.
Context {D : AnalysisDeps} {O X : Type} (F : O -> X).

Lemma frames_fieldDef (decl : FieldDeclaration) (fs : FieldSpace O) name :
  (forall p, frames F (fs_lookup fs p)) ->
  frames F (FieldDeclaration.fieldDef decl fs name).
Proof.
  intros H. unfold FieldDeclaration.fieldDef.
  apply frames_bind; [| intros; apply frames_ret].
  apply frames_with_local. apply frames_queryFieldDef.
  intros p. simpl. now apply frames_DefSpace_lookup.
Qed.

Lemma frames_queryFieldAST_def t r (fs : FieldSpace O) :
  (forall p, frames F (fs_lookup fs p)) ->
  frames F (SpaceEntry.queryFieldAST_def t r fs).
Proof.
  intros H. unfold SpaceEntry.queryFieldAST_def, TurtleDecl.getFieldDef. frame_solve.
Qed.

Lemma frames_entry_fieldDef (fs : FieldSpace O) (e : SpaceEntry) :
  (forall p, frames F (fs_lookup fs p)) ->
  frames F (SpaceEntry.fieldDef fs e).
Proof.
  intros H. induction e; simpl; try apply frames_ret.
  - apply frames_bind; [now apply frames_queryFieldAST_def | intros; apply frames_ret].
  - apply frames_bind; [now apply frames_fieldDef | intros; apply frames_ret].
  - apply frames_bind; [exact IHe | intros [raw|]; apply frames_ret].
Qed.

Lemma frames_getQueryFieldDef (fs : FieldSpace O) (e : SpaceEntry) :
  (forall p, frames F (fs_lookup fs p)) ->
  frames F (SpaceEntry.getQueryFieldDef e fs).
Proof.
  intros H. destruct e; simpl; try apply frames_ret.
  - apply frames_bind; [now apply frames_queryFieldAST_def | intros; apply frames_ret].
  - apply frames_bind; [now apply frames_queryFieldDef | intros; apply frames_ret].
  - unfold SpaceEntry.FieldReference_getField. frame_solve.
Qed.

Lemma frames_parameter (e : SpaceEntry) : frames F (SpaceEntry.parameter (O:=O) e).
Proof.
  destruct e; simpl; try apply frames_ret.
  unfold HasParameter.parameter. frame_solve.
Qed.

Lemma frames_filterExpression (el : FilterElement) (fs : FieldSpace O) :
  (forall p, frames F (fs_lookup fs p)) ->
  frames F (FilterElement.filterExpression el fs).
Proof. intros H. unfold FilterElement.filterExpression. frame_solve. Qed.

Lemma frames_getFilterList_loop (f : Filter) (fs : FieldSpace O) els checked :
  (forall p, frames F (fs_lookup fs p)) ->
  frames F (Filter.getFilterList_loop f fs els checked).
Proof.
  intros H. revert checked. induction els as [|el rest IH]; intros checked; simpl.
  - apply frames_ret.
  - apply frames_bind; [now apply frames_filterExpression|]. intros fExpr.
    destruct (f_havingClause f) as [[|]|]; frame_solve.
Qed.

Lemma frames_getFilterList (f : Filter) (fs : FieldSpace O) :
  (forall p, frames F (fs_lookup fs p)) -> frames F (Filter.getFilterList f fs).
Proof. intros H. now apply frames_getFilterList_loop. Qed.

Lemma frames_Top_getBy (t : Top) (fs : FieldSpace O) :
  (forall p, frames F (fs_lookup fs p)) -> frames F (Top.getBy t fs).
Proof. intros H. unfold Top.getBy. frame_solve. Qed.
End EntryFrames.

#[export] Hint Resolve frames_queryFieldDef frames_fieldDef frames_entry_fieldDef
  frames_getQueryFieldDef frames_parameter frames_getFilterList frames_Top_getBy : frames.

(** Static and dynamic spaces: the log only grows. *)
Lemma frames_StaticSpace_map : frames nothing StaticSpace.map_.
Proof. unfold StaticSpace.map_. frame_solve. Qed.
#[export] Hint Resolve frames_StaticSpace_map : frames.

Lemma frames_StaticSpace_lookup path : frames nothing (StaticSpace.lookup path).
Proof. unfold StaticSpace.lookup. frame_solve. Qed.

Lemma frames_StaticSpace_entry name : frames nothing (StaticSpace.entry name).
Proof. unfold StaticSpace.entry. frame_solve. Qed.

Lemma frames_StaticSpace_setEntry name v : frames nothing (StaticSpace.setEntry name v).
Proof. unfold StaticSpace.setEntry, StaticSpace.set_memoMap. frame_solve. Qed.

Lemma frames_StaticSpace_dropEntry name : frames nothing (StaticSpace.dropEntry name).
Proof. unfold StaticSpace.dropEntry, StaticSpace.set_memoMap. frame_solve. Qed.

Lemma frames_StaticSpace_dropEntries : frames nothing StaticSpace.dropEntries.
Proof. unfold StaticSpace.dropEntries, StaticSpace.set_memoMap. frame_solve. Qed.

Lemma frames_StaticSpace_emptyStructDef : frames nothing StaticSpace.emptyStructDef.
Proof. unfold StaticSpace.emptyStructDef. frame_solve. Qed.

#[export] Hint Resolve frames_StaticSpace_lookup frames_StaticSpace_entry
  frames_StaticSpace_setEntry frames_StaticSpace_dropEntry frames_StaticSpace_dropEntries
  frames_StaticSpace_emptyStructDef : frames.

Lemma frames_onBase {A} (m : M StaticSpace A) :
  frames nothing m -> frames lifecycle (DynamicSpace.onBase m).
Proof.
  intros H. unfold DynamicSpace.onBase.
  apply (frames_zoom _ nothing); [reflexivity | exact H].
Qed.

Lemma frames_DynamicSpace_lookup path : frames lifecycle (DynamicSpace.lookup path).
Proof. apply frames_onBase. auto with frames. Qed.

Lemma frames_DynamicSpace_entries : frames lifecycle DynamicSpace.entries.
Proof. apply frames_onBase. unfold StaticSpace.entries. auto with frames. Qed.

Lemma frames_asFieldSpace path :
  frames lifecycle (fs_lookup DynamicSpace.asFieldSpace path).
Proof.
  simpl. apply frames_bind; [apply frames_DynamicSpace_lookup | intros; apply frames_ret].
Qed.

#[export] Hint Resolve frames_DynamicSpace_lookup frames_DynamicSpace_entries
  frames_asFieldSpace : frames.

Create HintDb frames_unfold.

#[export] Hint Unfold
  DynamicSpace.onBase DynamicSpace.set_final DynamicSpace.entries DynamicSpace.entry
  DynamicSpace.dropEntries DynamicSpace.dropEntry DynamicSpace.lookup
  DynamicSpace.emptyStructDef DynamicSpace.whenComplete DynamicSpace.isComplete
  DynamicSpace.setEntry DynamicSpace.addParameters DynamicSpace.newEntry
  DynamicSpace.addFieldDef DynamicSpace.sortEntry DynamicSpace.pushField
  DynamicSpace.emitField DynamicSpace.fixupJoin DynamicSpace.writeSharedParameters
  DynamicSpace.structDef DynamicSpace.filteredFrom_body
  StaticSpace.entries StaticSpace.set_memoMap
  AddField.FieldName_getField AddField.addOne AddField.addField
  QuerySpace.onSpace QuerySpace.extendSource
  ResultSpace.onSpace ResultSpace.onExprSpace ResultSpace.set_fieldList ResultSpace.log_
  ResultSpace.addReference ResultSpace.addWild ResultSpace.addMembers
  ResultSpace.addQueryItems ResultSpace.canContain ResultSpace.queryFieldDefs
  ResultSpace.getPipeSegment ResultSpace.getQuerySegment ResultSpace.index_getPipeSegment
  SpaceEntry.FieldReference_getField
  : frames_unfold.

Ltac frame_auto :=
  repeat first
    [ frame_step
    | match goal with
      | |- frames ?F (zoom _ _ _) => apply (frames_zoom F nothing); [intros; reflexivity |]
      end
    | solve [eauto with frames]
    | progress autounfold with frames_unfold ].

Section SpaceFrames.
Context {D : AnalysisDeps}.

Lemma frames_sortEntries acc es : frames nothing (DynamicSpace.sortEntries acc es).
Proof.
  revert acc. induction es as [|ne rest IH]; intros acc; simpl; [apply frames_ret|].
  apply frames_bind; [| intros; apply IH]. destruct ne. frame_auto.
Qed.

Lemma frames_asFieldSpace_nothing path :
  frames nothing (fs_lookup DynamicSpace.asFieldSpace path).
Proof. eapply frames_nothing. apply frames_asFieldSpace. Qed.
Hint Resolve frames_asFieldSpace_nothing : frames.

Lemma frames_emitFields fj fs : frames nothing (DynamicSpace.emitFields fj fs).
Proof.
  revert fj. induction fs as [|nf rest IH]; intros fj; simpl; [apply frames_ret|].
  apply frames_bind; [| intros; apply IH]. destruct nf. frame_auto.
Qed.
Hint Resolve frames_sortEntries frames_emitFields : frames.

Lemma frames_DynamicSpace_structDef : frames nothing DynamicSpace.structDef.
Proof. frame_auto. Qed.
Hint Resolve frames_DynamicSpace_structDef : frames.

Lemma frames_exprFS path : frames nothing (fs_lookup ResultSpace.exprFS path).
Proof. simpl. frame_auto. Qed.
Hint Resolve frames_exprFS : frames.

Lemma frames_queryFieldDefs_loop es fields :
  frames nothing (ResultSpace.queryFieldDefs_loop es fields).
Proof.
  revert fields. induction es as [|[name field] rest IH]; intros fields; simpl;
    [apply frames_ret|].
  destruct (isSpaceField field); [|apply IH].
  apply frames_bind; [auto with frames|]. intros [qd|]; [|apply frames_throw].
  apply frames_bind; [frame_auto|]. intros [|]; [apply IH|].
  apply frames_bind; [apply frames_get|]. intros this.
  apply frames_bind; [frame_auto | intros; apply IH].
Qed.
Hint Resolve frames_queryFieldDefs_loop : frames.

Lemma frames_addMembers ms : frames nothing (ResultSpace.addMembers ms).
Proof. frame_auto. Qed.

Lemma frames_addQueryItems qs : frames nothing (ResultSpace.addQueryItems qs).
Proof. frame_auto. Qed.

Lemma frames_getQuerySegment rf : frames nothing (ResultSpace.getQuerySegment rf).
Proof. frame_auto. Qed.

Lemma frames_index_getPipeSegment rf : frames nothing (ResultSpace.index_getPipeSegment rf).
Proof. frame_auto. Qed.

Lemma frames_ResultSpace_log s : frames nothing (ResultSpace.log_ s).
Proof. frame_auto. Qed.
End SpaceFrames.

#[export] Hint Resolve frames_sortEntries frames_emitFields frames_asFieldSpace_nothing
  frames_DynamicSpace_structDef frames_exprFS frames_queryFieldDefs_loop
  frames_addMembers frames_addQueryItems frames_getQuerySegment
  frames_index_getPipeSegment frames_ResultSpace_log : frames.

(** ** Index segments: the last limit wins *)

#[export] Hint Unfold IndexExecutor.onResultFS ReduceExecutor.onResultFS : frames_unfold.

Section IndexFacts.
Context {D : AnalysisDeps}.

Lemma frames_IndexExecutor_inputFS {X} (F : IndexExecutor -> X) path :
  (forall r o, F (mkIndexExecutor (ie_filters o) (ie_limit o) (ie_indexOn o)
                                  (ie_sample o) r) = F o) ->
  frames F (fs_lookup IndexExecutor.inputFS path).
Proof.
  intros HF. simpl. unfold IndexExecutor.onResultFS.
  apply (frames_zoom F nothing); [intros; apply HF | apply frames_exprFS].
Qed.

(** Every property but a limit leaves the held limit alone. *)
Lemma IndexExecutor_execute_keeps_limit qp :
  (forall l, qp <> QPLimit l) -> frames ie_limit (IndexExecutor.execute qp).
Proof.
  intros Hq. destruct qp; simpl; try (apply frames_log_at);
    try solve [frame_auto].
  - now elim (Hq l).
  - frame_auto. apply frames_getFilterList. intros p.
    now apply frames_IndexExecutor_inputFS.
Qed.

(** A limit replaces the held one and is logged against it. *)
Lemma IndexExecutor_execute_limit (l : Limit) (w : World IndexExecutor) :
  exists w',
    IndexExecutor.execute (QPLimit l) w = (Ok tt, w')
    /\ ie_limit (objs w') = Some l
    /\ log w' = log w ++ map tooManyLimits (opt_list (ie_limit (objs w))).
Proof.
  destruct w as [lg o]. simpl. unfold bind, get, modify, log_at, ret. simpl.
  destruct (ie_limit o) as [earlier|]; simpl;
    (eexists; split; [reflexivity | split; [reflexivity |]]); simpl;
    [reflexivity | now rewrite app_nil_r].
Qed.

Lemma last_cons {A} (a : A) l d : last (a :: l) d = last l a.
Proof.
  revert a d. induction l as [|x l' IH]; intros a d; [reflexivity|].
  change (last (a :: x :: l') d) with (last (x :: l') d).
  now rewrite !IH.
Qed.

Lemma heldLimit_last cur props :
  heldLimit cur props = last (map Some (limitsOf props)) cur.
Proof.
  unfold heldLimit. revert cur. induction props as [|qp rest IH]; intros cur; simpl;
    [reflexivity|].
  rewrite IH. destruct qp; try reflexivity.
  cbn [limitsOf flat_map app map]. fold (limitsOf rest). now rewrite last_cons.
Qed.

Lemma seg_limit_set_sample s sa : seg_limit (seg_set_sample s sa) = seg_limit s.
Proof. now destruct s. Qed.

Lemma seg_limit_set_weightMeasure s x : seg_limit (seg_set_weightMeasure s x) = seg_limit s.
Proof. now destruct s. Qed.

Lemma seg_limit_set_limit s l : seg_limit (seg_set_limit s l) = Some l.
Proof. now destruct s. Qed.

Lemma In_log_grows {O} (w w' : World O) d :
  (exists l, log w' = log w ++ l) -> In d (log w) -> In d (log w').
Proof. intros [l ->] H. apply in_or_app. now left. Qed.

Lemma IndexExecutor_execute_all props :
  forall w w1,
    for_each props IndexExecutor.execute w = (Ok tt, w1) ->
    ie_limit (objs w1) = heldLimit (ie_limit (objs w)) props
    /\ (exists l, log w1 = log w ++ l)
    /\ Forall (fun x => In (tooManyLimits x) (log w1))
              (removelast (opt_list (ie_limit (objs w)) ++ limitsOf props)).
Proof.
  induction props as [|qp rest IH]; intros w w1 Hrun; simpl in Hrun.
  - inversion Hrun; subst. simpl. rewrite app_nil_r.
    repeat split; [exists []; now rewrite app_nil_r|].
    destruct (ie_limit (objs w1)); simpl; constructor.
  - unfold bind in Hrun.
    destruct (IndexExecutor.execute qp w) as [[[]|e] wa] eqn:Ea; [|discriminate].
    destruct (IH _ _ Hrun) as (Hlim & Hext & Hdiags).
    assert (Hother : (forall l, qp <> QPLimit l) ->
                     ie_limit (objs w1) = heldLimit (ie_limit (objs w)) (qp :: rest)
                     /\ (exists l, log w1 = log w ++ l)
                     /\ Forall (fun x => In (tooManyLimits x) (log w1))
                               (removelast (opt_list (ie_limit (objs w)) ++ limitsOf (qp :: rest)))).
    { intros Hq.
      destruct (frames_run _ _ _ _ _ (IndexExecutor_execute_keeps_limit qp Hq) Ea)
        as [Hexta Hsame].
      assert (limitsOf (qp :: rest) = limitsOf rest) as ->
          by (destruct qp; try reflexivity; now elim (Hq l)).
      assert (heldLimit (ie_limit (objs w)) (qp :: rest)
              = heldLimit (ie_limit (objs wa)) rest) as ->
          by (rewrite Hsame; destruct qp; try reflexivity; now elim (Hq l)).
      rewrite <- Hsame. repeat split; [exact Hlim | | exact Hdiags].
      destruct Hexta as [l1 H1], Hext as [l2 H2]. exists (l1 ++ l2).
      now rewrite H2, H1, app_assoc. }
    destruct qp; try (apply Hother; discriminate).
    destruct (IndexExecutor_execute_limit l w) as (wa' & Ea' & Hla & Hlog).
    rewrite Ea in Ea'. inversion Ea'; subst wa'. clear Ea'.
    rewrite Hla in *. simpl in *.
    repeat split.
    + exact Hlim.
    + destruct Hext as [l2 H2]. eexists. now rewrite H2, Hlog, <- app_assoc.
    + rewrite removelast_app by discriminate.
      apply Forall_app. split; [|exact Hdiags].
      destruct (ie_limit (objs w)) as [earlier|]; simpl; constructor; [|constructor].
      apply (In_log_grows wa w1 _ Hext). rewrite Hlog. apply in_or_app. right. now left.
Qed.

(** C10.  In an index segment with [props], whose limits are [earlier]
    followed by [last_], finalized on its own or against an index
    segment: the finalized segment's limit is the value of [last_], and
    for every earlier limit the diagnostic "Ignored, too many limit:
    statements" is in the log, attached to that earlier limit. *)
Theorem IndexExecutor_last_limit_wins
        (props : list QueryProperty) (from : option PipeSegment)
        (w w' : World IndexExecutor) (seg : PipeSegment)
        (earlier : list Limit) (last_ : Limit) :
  ie_limit (objs w) = None ->
  limitsOf props = earlier ++ [last_] ->
  match from with Some f => isIndexSegment f = true | None => True end ->
  IndexExecutor.run props from w = (Ok seg, w') ->
  seg_limit seg = Some (lim_limit last_)
  /\ Forall (fun l => In (tooManyLimits l) (log w')) earlier.
Proof.
  intros Hfresh Hlims Hfrom Hrun. unfold IndexExecutor.run in Hrun.
  unfold bind in Hrun.
  destruct (for_each props IndexExecutor.execute w) as [[[]|e] w1] eqn:Eloop;
    [|discriminate].
  destruct (IndexExecutor_execute_all _ _ _ Eloop) as (Hlim & Hext & Hdiags).
  rewrite Hfresh, heldLimit_last, Hlims, map_app in Hlim. simpl in Hlim.
  rewrite last_last in Hlim.
  rewrite Hfresh, Hlims in Hdiags. simpl in Hdiags. rewrite removelast_last in Hdiags.
  unfold IndexExecutor.finalize in Hrun.
  assert (Hrefuse : match from with Some f => negb (isIndexSegment f) | None => false end = false)
    by (destruct from as [f|]; [now rewrite Hfrom | reflexivity]).
  rewrite Hrefuse in Hrun. unfold bind in Hrun.
  destruct (IndexExecutor.onResultFS (ResultSpace.index_getPipeSegment from) w1)
    as [[indexSegment|e] w2] eqn:Eseg; [|discriminate].
  assert (Hk : keeps ie_limit w1 w2).
  { eapply frames_run; [|exact Eseg]. frame_auto. }
  destruct Hk as [Hext2 Hsame].
  unfold get, ret in Hrun. simpl in Hrun. rewrite Hsame, Hlim in Hrun.
  inversion Hrun; subst. split.
  - repeat match goal with
           | |- context [match ?x with _ => _ end] => destruct x
           end;
      rewrite ?seg_limit_set_sample, ?seg_limit_set_weightMeasure, ?seg_limit_set_limit;
      reflexivity.
  - eapply Forall_impl; [|exact Hdiags]. intros l Hin.
    now apply (In_log_grows w1 w').
Qed.
End IndexFacts.

(** [limit: 5] then [limit: 7] in an index segment. *)
Lemma IndexExecutor_last_limit_wins_witness :
  seg_limit (IndexSegment [] None None (Some []) (Some 7%Z)) = Some (lim_limit limit7)
  /\ Forall (fun l => In (tooManyLimits l)
                         (log (snd (IndexExecutor.run (D:=sampleAnalysisDeps)
                                      twoLimits None indexWorld0))))
            [limit5].
Proof.
  exact (IndexExecutor_last_limit_wins (D:=sampleAnalysisDeps) twoLimits None indexWorld0
           (snd (IndexExecutor.run (D:=sampleAnalysisDeps) twoLimits None indexWorld0))
           (IndexSegment [] None None (Some []) (Some 7%Z)) [limit5] limit7
           eq_refl eq_refl I eq_refl).
Defined.

(** The run itself: one diagnostic, at the first limit. *)
Lemma IndexExecutor_two_limits_run :
  IndexExecutor.run (D:=sampleAnalysisDeps) twoLimits None indexWorld0
  = (Ok (IndexSegment [] None None (Some []) (Some 7%Z)),
     mkWorld [mkDiag (Src 30) "Ignored, too many limit: statements"]
             (mkIndexExecutor [] (Some limit7) None None
                (mkResultSpace (mkDynamicSpace (StaticSpace.new flightsEmpty) None [] true)
                               (mkQuerySpace (DynamicSpace.new flights) [])
                               (Some (Src 100)) KIndex []))).
Proof. vm_compute. reflexivity. Qed.

(** In a reduce segment the first limit is kept, and the later one is
    logged against, when the first limit is not 0. *)
Lemma ReduceExecutor_first_limit_kept (first_ : Z) (l : Limit) (w : World ReduceExecutor) :
  re_limit (objs w) = Some first_ -> first_ <> 0%Z ->
  ReduceExecutor.execute (D:=sampleAnalysisDeps) (QPLimit l) w
  = (Ok tt, mkWorld (log w ++ [mkDiag (lim_id l) "Query operation already limited"]) (objs w)).
Proof.
  intros H Hnz. destruct w as [lg o]. simpl in *.
  unfold ReduceExecutor.takeLimit, bind, get. simpl. rewrite H. simpl.
  unfold truthy_number. destruct (Z.eqb_spec first_ 0); [contradiction | reflexivity].
Qed.

(** ** Reduce segments: refinement of an existing segment *)

Lemma bind_inv {O A B} (m : M O A) (k : A -> M O B) w b w' :
  bind m k w = (Ok b, w') ->
  exists a w1, m w = (Ok a, w1) /\ k a w1 = (Ok b, w').
Proof.
  unfold bind. destruct (m w) as [[a|e] w1]; [|discriminate].
  intros H. now exists a, w1.
Qed.

Ltac bind_inv H :=
  let a := fresh "a" in
  let w := fresh "w" in
  let H1 := fresh "E" in
  apply bind_inv in H; destruct H as (a & w & H1 & H).

Tactic Notation "bind_split" hyp(H) "as" ident(a) ident(w) ident(E) :=
  apply bind_inv in H; destruct H as (a & w & E & H).

Section ReduceFacts.
Context {D : AnalysisDeps}.

Lemma frames_ReduceExecutor_onResultFS {A} (m : M ResultSpace A) :
  frames nothing m -> frames reduceState (ReduceExecutor.onResultFS m).
Proof.
  intros H. unfold ReduceExecutor.onResultFS.
  apply (frames_zoom reduceState nothing); [reflexivity | exact H].
Qed.

Lemma frames_ReduceExecutor_inputFS path :
  frames reduceState (fs_lookup ReduceExecutor.inputFS path).
Proof. simpl. apply frames_ReduceExecutor_onResultFS. apply frames_exprFS. Qed.

(** A segment fresh from the result space carries no ordering, limit or
    filter yet. *)
Lemma getQuerySegment_fresh rf (w w' : World ResultSpace) p :
  ResultSpace.getQuerySegment rf w = (Ok p, w') ->
  exists k f x, p = QuerySegment k f None None None None x.
Proof.
  unfold ResultSpace.getQuerySegment. intros H. bind_inv H.
  destruct a; [|discriminate]. inversion H; subst. clear H.
  unfold ResultSpace.getPipeSegment in E. bind_inv E.
  destruct (segmentType a); repeat bind_inv E; try discriminate;
    inversion E; eauto.
Qed.

Lemma seg_filterList_set s l : seg_filterList (seg_set_filterList s l) = Some l.
Proof. now destruct s. Qed.

(** C8 (as amended).  Finalizing a reduce executor against an existing
    reduce segment [from]: when no new ordering was given, the result has
    the existing [orderBy], or else the existing [by]; when no new
    (non-zero) limit was given, the result has the existing limit if that
    is non-zero, and none otherwise; and the result's filter list is the
    existing filters followed by the executor's filters. *)
Theorem ReduceExecutor_finalize_inherits
        (from seg : PipeSegment) (w w' : World ReduceExecutor) :
  isReduceSegment from = true ->
  ReduceExecutor.finalize (Some from) w = (Ok seg, w') ->
  (re_order (objs w) = None ->
   seg_orderBy seg = seg_orderBy from
   /\ seg_by seg = match seg_orderBy from with Some _ => None | None => seg_by from end)
  /\ (truthy_opt_number (re_limit (objs w)) = false ->
      seg_limit seg = if truthy_opt_number (seg_limit from) then seg_limit from else None)
  /\ seg_filterList seg
     = Some (match seg_filterList from with Some l => l | None => [] end
             ++ re_filters (objs w)).
Proof.
  intros Hred Hfin. unfold ReduceExecutor.finalize in Hfin. rewrite Hred in Hfin.
  bind_inv Hfin. rename a into to, w0 into w1.
  assert (Hk1 : keeps reduceState w w1).
  { eapply frames_run; [|exact E]. apply frames_ReduceExecutor_onResultFS.
    apply frames_getQuerySegment. }
  destruct Hk1 as [_ Hs1]. unfold reduceState in Hs1.
  injection Hs1 as Hf1 Ho1 Hl1.
  unfold ReduceExecutor.onResultFS, zoom in E.
  destruct (ResultSpace.getQuerySegment _ _) as [r wr] eqn:Eq in E.
  inversion E; subst r. clear E.
  destruct (getQuerySegment_fresh _ _ _ _ Eq) as (k & f & x & ->).
  unfold ReduceExecutor.refineFrom in Hfin.
  bind_inv Hfin. unfold get in E. inversion E; subst a w0. clear E.
  bind_inv Hfin. rename a into to3, w0 into w2.
  bind_inv Hfin. unfold get in E0. inversion E0; subst a w0. clear E0.
  unfold ret in Hfin. inversion Hfin; subst seg w'. clear Hfin.
  assert (Hk2 : keeps reduceState w1 w2).
  { eapply frames_run; [|exact E].
    destruct (re_order (objs w1)) as [[t|o]|]; frame_auto.
    apply frames_Top_getBy. apply frames_ReduceExecutor_inputFS. }
  destruct Hk2 as [_ Hs2]. unfold reduceState in Hs2.
  injection Hs2 as Hf2 Ho2 Hl2.
  rewrite Hf2, Hf1. rewrite Ho1, Hl1 in E.
  destruct from as [ty ff fo fb fl ffl fx|]; [|discriminate Hred].
  destruct ty; [|discriminate Hred]. simpl in *.
  split; [|split].
  - intros Hnone. rewrite Hnone in E. unfold ret in E. inversion E; subst to3.
    split;
      destruct fo, fb, (truthy_opt_number (re_limit (objs w))), (re_limit (objs w)),
        (truthy_opt_number fl), fl; reflexivity.
  - intros Hl. rewrite Hl in E. simpl in E.
    assert (Hlim : seg_limit to3 = if truthy_opt_number fl then fl else None).
    { destruct (re_order (objs w)) as [[t|o]|].
      - bind_inv E. inversion E; subst to3.
        destruct a, fo, fb, fl as [z|]; try destruct (truthy_number z) eqn:Ez;
          simpl; rewrite ?Ez; reflexivity.
      - inversion E; subst to3.
        destruct fo, fb, fl as [z|]; try destruct (truthy_number z) eqn:Ez;
          simpl; rewrite ?Ez; reflexivity.
      - inversion E; subst to3.
        destruct fo, fb, fl as [z|]; try destruct (truthy_number z) eqn:Ez;
          simpl; rewrite ?Ez; reflexivity. }
    destruct to3; exact Hlim.
  - apply seg_filterList_set.
Qed.
End ReduceFacts.

(** Refining [existingReduce] with one more filter and nothing else. *)
Lemma ReduceExecutor_finalize_inherits_witness :
  (seg_orderBy (fst_ok (ReduceExecutor.finalize (D:=sampleAnalysisDeps)
                          (Some existingReduce) refiningWorld))
   = Some [mkOrderBy (OrderIndex 1) (Some desc)]
   /\ seg_by (fst_ok (ReduceExecutor.finalize (D:=sampleAnalysisDeps)
                        (Some existingReduce) refiningWorld)) = None)
  /\ seg_limit (fst_ok (ReduceExecutor.finalize (D:=sampleAnalysisDeps)
                          (Some existingReduce) refiningWorld)) = Some 10%Z
  /\ seg_filterList (fst_ok (ReduceExecutor.finalize (D:=sampleAnalysisDeps)
                               (Some existingReduce) refiningWorld))
     = Some [carrierFilter; distanceFilter].
Proof.
  destruct (ReduceExecutor_finalize_inherits (D:=sampleAnalysisDeps)
              existingReduce
              (fst_ok (ReduceExecutor.finalize (D:=sampleAnalysisDeps)
                         (Some existingReduce) refiningWorld))
              refiningWorld
              (snd (ReduceExecutor.finalize (D:=sampleAnalysisDeps)
                      (Some existingReduce) refiningWorld))
              eq_refl eq_refl) as (Ho & Hl & Hf).
  split; [exact (Ho eq_refl) | split; [exact (Hl eq_refl) | exact Hf]].
Defined.

(** C8 as stated fails for a limit of 0: the existing segment's limit is
    0 and no new limit was given, yet the refined segment has no limit. *)
Lemma ReduceExecutor_finalize_drops_zero_limit :
  seg_limit existingReduceLimit0 = Some 0%Z
  /\ re_limit (objs reduceWorld0) = None
  /\ fst (ReduceExecutor.finalize (D:=sampleAnalysisDeps) (Some existingReduceLimit0)
                                   reduceWorld0)
     = Ok (QuerySegment reduce [QName "carrier"] None None None (Some []) None)
  /\ seg_limit (QuerySegment reduce [QName "carrier"] None None None (Some []) None)
     <> seg_limit existingReduceLimit0.
Proof.
  split; [reflexivity | split; [reflexivity | split; [vm_compute; reflexivity | discriminate]]].
Qed.

(** ** Circular definitions *)

Section QueryFieldDefFacts.
Context {D : AnalysisDeps} {O : Type}.

(** When the expression has an atomic type, or the space is a def-space
    that saw a circular lookup, the declaration leaves the world as the
    expression's evaluation left it. *)
Lemma queryFieldDef_returned (decl : FieldDeclaration) (exprFS : FieldSpace O)
      exprName (w we : World O) v :
  getExpression (fd_expr decl) exprFS w = (Ok v, we) ->
  (isAtomicFieldType (dataType v) = true
   \/ exists f, fs_foundCircle exprFS = Some f /\ f (objs we) = true) ->
  snd (FieldDeclaration.queryFieldDef decl exprFS exprName w) = we.
Proof.
  intros Hget Hquiet. unfold FieldDeclaration.queryFieldDef, bind, try_catch.
  rewrite Hget. simpl.
  destruct (isAtomicFieldType (dataType v)) eqn:Ea; [reflexivity|].
  destruct Hquiet as [Hq|(f & Hf & Hc)]; [discriminate|].
  rewrite Hf. unfold get, ret. simpl. rewrite Hc. reflexivity.
Qed.

Lemma queryFieldDef_threw (decl : FieldDeclaration) (exprFS : FieldSpace O)
      exprName (w we : World O) msg :
  getExpression (fd_expr decl) exprFS w = (Throw msg, we) ->
  FieldDeclaration.queryFieldDef decl exprFS exprName w
  = (Ok (FieldDeclaration.errorDef exprName),
     mkWorld (log we ++ [mkDiag (fd_id decl)
                                ("Cannot define '" +++ exprName +++ "', " +++ msg)])
             (objs we)).
Proof.
  intros Hget. unfold FieldDeclaration.queryFieldDef, bind, try_catch.
  rewrite Hget. reflexivity.
Qed.
End QueryFieldDefFacts.

Section DefSpaceFacts.
Context {D : AnalysisDeps} {O : Type}.
Variable realFS : FieldSpace O.
Variable decl : FieldDeclaration.

Lemma DefSpace_lookup_circular path (w : World (O * bool)) :
  refersTo (defineName decl) path = true ->
  DefSpace.lookup realFS decl path w
  = (Ok (mkLookupView None (Some (circularError (defineName decl)))),
     mkWorld (log w) (fst (objs w), true)).
Proof.
  intros H. destruct path as [|s0 rest]; [discriminate|].
  simpl in H. unfold DefSpace.lookup. now rewrite H.
Qed.

Lemma DefSpace_lookup_flag path (w w' : World (O * bool)) r :
  DefSpace.lookup realFS decl path w = (r, w') ->
  snd (objs w) = true -> snd (objs w') = true.
Proof.
  intros H Hflag. unfold DefSpace.lookup in H.
  assert (Hz : forall m : M O LookupView,
             zoom fst (fun (o' : O) (o : O * bool) => (o', snd o)) m w = (r, w') ->
             snd (objs w') = true).
  { intros m Hm. unfold zoom in Hm. destruct (m _) as [r1 w1].
    inversion Hm; subst. exact Hflag. }
  destruct path as [|s0 rest]; [now apply (Hz _ H)|].
  destruct (String.eqb _ _); [|now apply (Hz _ H)].
  inversion H; subst. reflexivity.
Qed.

Lemma run_eval_flag_stays {A} (p : Eval A) :
  forall (w w' : World (O * bool)) r,
    run_eval (DefSpace.fieldSpace realFS decl) p w = (r, w') -> snd (objs w) = true -> snd (objs w') = true.
Proof.
  induction p as [a|msg|el msg k IH|path k IH]; intros w w' r Hrun Hflag; simpl in Hrun.
  - inversion Hrun; now subst.
  - inversion Hrun; now subst.
  - apply (IH _ _ _ Hrun). exact Hflag.
  - unfold bind in Hrun. simpl in Hrun.
    destruct (DefSpace.lookup realFS decl path w) as [[lr|e] w1] eqn:El.
    + apply (IH lr _ _ _ Hrun). now apply (DefSpace_lookup_flag _ _ _ _ El).
    + inversion Hrun; subst. now apply (DefSpace_lookup_flag _ _ _ _ El).
Qed.

Lemma run_eval_circle_found {A} (p : Eval A) :
  forall (w w' : World (O * bool)) r,
    run_eval (DefSpace.fieldSpace realFS decl) p w = (r, w') ->
    existsb (refersTo (defineName decl)) (lookups (DefSpace.fieldSpace realFS decl) p w) = true ->
    snd (objs w') = true.
Proof.
  induction p as [a|msg|el msg k IH|path k IH]; intros w w' r Hrun Hasks;
    simpl in Hrun, Hasks; try discriminate.
  - apply (IH _ _ _ Hrun). exact Hasks.
  - unfold bind in Hrun. simpl in Hrun.
    destruct (refersTo (defineName decl) path) eqn:Eself.
    + rewrite (DefSpace_lookup_circular _ _ Eself) in Hrun.
      now apply (run_eval_flag_stays _ _ _ _ Hrun).
    + simpl in Hasks.
      destruct (DefSpace.lookup realFS decl path w) as [[lr|e] w1] eqn:El;
        [|discriminate].
      apply (IH lr _ _ _ Hrun). exact Hasks.
Qed.

(** C9.  A field declaration is defined against a [DefSpace] around the
    real space.  (1) Every lookup of a path that starts with the name
    being defined is answered, without consulting the real space and
    without logging, by the one error "Circular reference to '<name>' in
    definition" with nothing found, and sets [foundCircle].  (2) When the
    evaluation of the declaration's expression makes such a lookup,
    [foundCircle] is set once [queryFieldDef] is done, and the
    declaration adds no "unknown type" or "unexpected type" diagnostic:
    the log is the one the expression's evaluation left (followed, when
    that evaluation threw, by the "Cannot define" record of the thrown
    message). *)
Theorem FieldDeclaration_circular_reference
        (exprName : string) (w : World (O * bool)) :
  (forall path w0,
      refersTo (defineName decl) path = true ->
      fs_lookup (DefSpace.fieldSpace realFS decl) path w0
      = (Ok (mkLookupView None (Some (circularError (defineName decl)))),
         mkWorld (log w0) (fst (objs w0), true)))
  /\ (existsb (refersTo (defineName decl)) (expr_lookups (DefSpace.fieldSpace realFS decl) (fd_expr decl) w) = true ->
      let after := FieldDeclaration.queryFieldDef decl (DefSpace.fieldSpace realFS decl) exprName w in
      let evaluated := getExpression (fd_expr decl) (DefSpace.fieldSpace realFS decl) w in
      snd (objs (snd after)) = true
      /\ log (snd after)
         = log (snd evaluated)
           ++ match fst evaluated with
              | Ok _ => []
              | Throw msg =>
                  [mkDiag (fd_id decl) ("Cannot define '" +++ exprName +++ "', " +++ msg)]
              end).
Proof.
  split; [intros path w0 H; now apply DefSpace_lookup_circular|].
  intros Hasks after evaluated. subst after evaluated.
  destruct (fd_expr decl) as [id p|id n tf] eqn:Eexpr; [|discriminate Hasks].
  simpl in Hasks.
  assert (Eget : getExpression (fd_expr decl) (DefSpace.fieldSpace realFS decl) w = run_eval (DefSpace.fieldSpace realFS decl) p w)
    by now rewrite Eexpr.
  rewrite <- Eexpr.
  destruct (run_eval (DefSpace.fieldSpace realFS decl) p w) as [[v|msg] we] eqn:Erun;
    pose proof (run_eval_circle_found _ _ _ _ Erun Hasks) as Hflag.
  - rewrite (queryFieldDef_returned _ _ _ _ _ _ Eget); simpl.
    + rewrite Eget. simpl. split; [exact Hflag | now rewrite app_nil_r].
    + right. exists snd. split; [reflexivity | exact Hflag].
  - rewrite (queryFieldDef_threw _ _ _ _ _ _ Eget), Eget. simpl.
    split; [exact Hflag | reflexivity].
Qed.
End DefSpaceFacts.

(** [dimension: x is x] in an empty space: one diagnostic, the circular
    reference, and the flag is set. *)
Lemma FieldDeclaration_circular_reference_witness :
  snd (objs (snd (FieldDeclaration.queryFieldDef (D:=sampleAnalysisDeps) selfReference
                    (DefSpace.fieldSpace emptyFieldSpace selfReference) "x" defWorld0)))
  = true
  /\ log (snd (FieldDeclaration.queryFieldDef (D:=sampleAnalysisDeps) selfReference
                 (DefSpace.fieldSpace emptyFieldSpace selfReference) "x" defWorld0))
     = [mkDiag (Src 41) "Circular reference to 'x' in definition"].
Proof.
  exact (proj2 (FieldDeclaration_circular_reference (D:=sampleAnalysisDeps)
                  emptyFieldSpace selfReference "x" defWorld0) eq_refl).
Defined.

(** The same declaration through [fieldDef]: the definition is the error
    placeholder and the log holds the circular reference only. *)
Lemma FieldDeclaration_fieldDef_self_reference :
  FieldDeclaration.fieldDef (D:=sampleAnalysisDeps) selfReference emptyFieldSpace "x" world0
  = (Ok (FieldDeclaration.errorDef "x"),
     mkWorld [mkDiag (Src 41) "Circular reference to 'x' in definition"] tt).
Proof. vm_compute. reflexivity. Qed.

(** ** Name maps *)

Section ObjFacts.
Context {A : Type}.
Implicit Types (m : Obj A) (k : string) (v : A).

Lemma obj_get_None k m : obj_get k m = None <-> ~ In k (map fst m).
Proof.
  induction m as [|[k' v'] rest IH]; simpl; [tauto|].
  destruct (String.eqb_spec k' k) as [->|Hne].
  - split; [discriminate | intros H; exfalso; apply H; now left].
  - rewrite IH. split; [intros H [E|E]; auto | intros H E; apply H; now right].
Qed.

Lemma obj_get_Some_In k v m : obj_get k m = Some v -> In (k, v) m.
Proof.
  induction m as [|[k' v'] rest IH]; simpl; [discriminate|].
  destruct (String.eqb_spec k' k) as [->|Hne].
  - intros [= ->]. now left.
  - intros H. right. auto.
Qed.

Lemma obj_replace_keys k v m : map fst (obj_replace k v m) = map fst m.
Proof.
  induction m as [|[k' v'] rest IH]; simpl; [reflexivity|].
  destruct (String.eqb k' k); simpl; [reflexivity | now rewrite IH].
Qed.

Lemma obj_insert_index_In n k v m x :
  In x (obj_insert_index n k v m) <-> x = (k, v) \/ In x m.
Proof.
  induction m as [|[k' v'] rest IH]; simpl.
  - split; [intros [E|[]]; now left | intros [E|[]]; now left].
  - destruct (array_index k') as [n'|]; [destruct (n <? n')%N|]; simpl;
      rewrite ?IH; intuition congruence.
Qed.

Lemma obj_insert_index_keys n k v m x :
  In x (map fst (obj_insert_index n k v m)) <-> x = k \/ In x (map fst m).
Proof.
  induction m as [|[k' v'] rest IH]; simpl.
  - split; [intros [E|[]]; now left | intros [E|[]]; now left].
  - destruct (array_index k') as [n'|]; [destruct (n <? n')%N|]; simpl;
      rewrite ?IH; intuition congruence.
Qed.

Lemma obj_insert_index_NoDup n k v m :
  ~ In k (map fst m) -> NoDup (map fst m) -> NoDup (map fst (obj_insert_index n k v m)).
Proof.
  induction m as [|[k' v'] rest IH]; simpl; intros Hk Hnd.
  - constructor; [tauto | constructor].
  - inversion Hnd as [|? ? Hk' Hrest]; subst.
    assert (Hfront : NoDup (k :: k' :: map fst rest)) by (constructor; assumption).
    destruct (array_index k') as [n'|]; [destruct (n <? n')%N|]; simpl; try exact Hfront.
    constructor.
    + rewrite obj_insert_index_keys. intros [E|E]; [apply Hk; now left | contradiction].
    + apply IH; [intros E; apply Hk; now right | exact Hrest].
Qed.

(** Writing a key that the map does not have yet. *)
Lemma obj_set_fresh_In k v m x :
  ~ In k (map fst m) -> (In x (obj_set k v m) <-> x = (k, v) \/ In x m).
Proof.
  intros Hk. unfold obj_set. rewrite (proj2 (obj_get_None k m) Hk).
  destruct (array_index k); [apply obj_insert_index_In|].
  rewrite in_app_iff. simpl. intuition congruence.
Qed.

Lemma obj_set_keys k v m x :
  In x (map fst (obj_set k v m)) <-> x = k \/ In x (map fst m).
Proof.
  unfold obj_set. destruct (obj_get k m) as [v0|] eqn:Eg.
  - rewrite obj_replace_keys. split; [now right|]. intros [->|H]; [|exact H].
    apply obj_get_Some_In in Eg. change k with (fst (k, v0)). now apply in_map.
  - destruct (array_index k); [apply obj_insert_index_keys|].
    rewrite map_app, in_app_iff. simpl. intuition congruence.
Qed.

Lemma obj_set_NoDup k v m : NoDup (map fst m) -> NoDup (map fst (obj_set k v m)).
Proof.
  intros Hnd. unfold obj_set. destruct (obj_get k m) as [v0|] eqn:Eg.
  - now rewrite obj_replace_keys.
  - apply obj_get_None in Eg.
    destruct (array_index k); [now apply obj_insert_index_NoDup|].
    rewrite map_app. simpl. apply NoDup_app; [exact Hnd | constructor; [tauto|constructor] |].
    intros x Hx [<-|[]]. contradiction.
Qed.
End ObjFacts.

Lemma fieldEntries_NoDup fields : NoDup (map fst (StaticSpace.fieldEntries fields)).
Proof.
  unfold StaticSpace.fieldEntries.
  assert (H : forall acc, NoDup (map fst acc) ->
                          NoDup (map fst (fold_left
                                            (fun m f => obj_set (fieldDef_name f)
                                                                (StaticSpace.fromFieldDef f) m)
                                            fields acc))).
  { induction fields as [|f rest IH]; intros acc Hacc; simpl; [exact Hacc|].
    apply IH. now apply obj_set_NoDup. }
  apply H. constructor.
Qed.

Lemma paramEntries_NoDup name params :
  forall m, NoDup (map fst m) -> NoDup (map fst (fst (StaticSpace.paramEntries name params m))).
Proof.
  induction params as [|[p d] rest IH]; intros m Hm; simpl; [exact Hm|].
  destruct (obj_get p m); [exact Hm|]. apply IH. now apply obj_set_NoDup.
Qed.

Lemma buildMap_NoDup s : NoDup (map fst (fst (StaticSpace.buildMap s))).
Proof.
  unfold StaticSpace.buildMap. destruct (sd_parameters s).
  - apply paramEntries_NoDup. apply fieldEntries_NoDup.
  - apply fieldEntries_NoDup.
Qed.

Lemma entriesOf_buildMap s m :
  entriesOf s = Ok m <-> StaticSpace.buildMap s = (m, None).
Proof.
  unfold entriesOf, StaticSpace.entries, StaticSpace.map_, bind, get, put. simpl.
  destruct (StaticSpace.buildMap s) as [m0 [e|]]; simpl;
    split; intros H; inversion H; reflexivity.
Qed.

(** ** Accept and except edits *)

Section FilteredFrom.

Lemma setEntry_open (from : StructDef) lg acc k v :
  DynamicSpace.setEntry k v
    (mkWorld lg (mkDynamicSpace (mkStaticSpace from (Some acc)) None [] false))
  = (Ok tt, mkWorld lg (mkDynamicSpace (mkStaticSpace from (Some (obj_set k v acc)))
                                       None [] false)).
Proof. reflexivity. Qed.

Lemma filteredFrom_loop (choose : FieldListEdit) (from : StructDef) lg oldMap :
  forall acc,
    for_each oldMap
      (fun sv =>
         let included := existsb (fun f => String.eqb (fre_refString f) (fst sv))
                                 (fle_refs choose) in
         let accepting := match fle_edit choose with accept => true | except => false end in
         if Bool.eqb included accepting then DynamicSpace.setEntry (fst sv) (snd sv)
         else ret tt)
      (mkWorld lg (mkDynamicSpace (mkStaticSpace from (Some acc)) None [] false))
    = (Ok tt, mkWorld lg (mkDynamicSpace (mkStaticSpace from (Some (refill choose acc oldMap)))
                                         None [] false)).
Proof.
  induction oldMap as [|[k v] rest IH]; intros acc; [reflexivity|].
  cbn [for_each refill fold_left fst snd chosen].
  destruct (Bool.eqb _ _).
  - rewrite (bind_ok _ _ _ _ _ (setEntry_open from lg acc k v)). apply IH.
  - rewrite bind_ret_l. apply IH.
Qed.

Lemma entries_new (S : StructDef) lg m :
  StaticSpace.buildMap S = (m, None) ->
  DynamicSpace.entries (mkWorld lg (DynamicSpace.new S))
  = (Ok m, mkWorld lg (mkDynamicSpace (mkStaticSpace S (Some m)) None [] false)).
Proof.
  intros Hm.
  unfold DynamicSpace.entries, DynamicSpace.onBase, zoom, StaticSpace.entries,
    StaticSpace.map_, bind, get, put. simpl. rewrite Hm. reflexivity.
Qed.

Lemma filteredFrom_body_run (c : FieldListEdit) (S : StructDef) lg m :
  StaticSpace.buildMap S = (m, None) ->
  DynamicSpace.filteredFrom_body (Some c) (mkWorld lg (DynamicSpace.new S))
  = (Ok tt, mkWorld lg (mkDynamicSpace (mkStaticSpace S (Some (refill c [] m)))
                                       None [] false)).
Proof.
  intros Hm. unfold DynamicSpace.filteredFrom_body.
  rewrite (bind_ok _ _ _ _ _ (entries_new S lg m Hm)).
  assert (Hdrop : DynamicSpace.dropEntries
                    (mkWorld lg (mkDynamicSpace (mkStaticSpace S (Some m)) None [] false))
                  = (Ok tt, mkWorld lg (mkDynamicSpace (mkStaticSpace S (Some []))
                                                       None [] false)))
    by reflexivity.
  rewrite (bind_ok _ _ _ _ _ Hdrop).
  apply filteredFrom_loop.
Qed.

Lemma refill_spec (choose : FieldListEdit) oldMap :
  forall acc,
    NoDup (map fst oldMap) -> NoDup (map fst acc) ->
    (forall k, In k (map fst acc) -> ~ In k (map fst oldMap)) ->
    NoDup (map fst (refill choose acc oldMap))
    /\ forall x, In x (refill choose acc oldMap)
                 <-> In x acc \/ (In x oldMap /\ chosen (Some choose) (fst x) = true).
Proof.
  unfold refill.
  induction oldMap as [|[k v] rest IH]; intros acc Hold Hacc Hdisj;
    cbn [fold_left fst snd In].
  - split; [exact Hacc | intros x; tauto].
  - inversion Hold as [|? ? Hk Hrest]; subst.
    assert (Hdisj' : forall k0, In k0 (map fst acc) -> k <> k0 /\ ~ In k0 (map fst rest)).
    { intros k0 H0. split; intros E; apply (Hdisj _ H0); [now left | now right]. }
    clear Hdisj.
    destruct (chosen (Some choose) k) eqn:Ek.
    + assert (Hfresh : ~ In k (map fst acc))
        by (intros E; now destruct (Hdisj' _ E) as [Hne _]).
      destruct (IH (obj_set k v acc) Hrest (obj_set_NoDup _ _ _ Hacc)) as [Hnd Hin].
      { intros k' Hk'. apply obj_set_keys in Hk'. destruct Hk' as [->|Hk']; [exact Hk|].
        now destruct (Hdisj' _ Hk'). }
      split; [exact Hnd|]. intros x. rewrite Hin, (obj_set_fresh_In _ _ _ _ Hfresh).
      split.
      * intros [[->|H]|[H1 H2]]; [right; split; [now left | exact Ek] | now left |].
        right. split; [now right | exact H2].
      * intros [H|[[<-|H1] H2]]; [left; now right | left; now left |].
        right. now split.
    + destruct (IH acc Hrest Hacc) as [Hnd Hin].
      { intros k' Hk'. now destruct (Hdisj' _ Hk'). }
      split; [exact Hnd|]. intros x. rewrite Hin. split.
      * intros [H|[H1 H2]]; [now left | right; split; [now right | exact H2]].
      * intros [H|[[<-|H1] H2]]; [now left | cbn [fst] in H2; congruence |].
        right. now split.
Qed.

(** C7.  For a struct [S] whose entries are [m] and a field list edit
    [choose]: [filteredFrom(S, choose)] yields, without logging, a space
    whose entries [m'] are exactly the entries of [S] the edit keeps:
    with [accept L], those whose names appear in [L]; with [except L],
    those whose names do not; with no edit, all of them. *)
Theorem filteredFrom_entry_set {O} (S : StructDef) (choose : option FieldListEdit)
        (m : list (string * SpaceEntry)) (w : World O) :
  entriesOf S = Ok m ->
  exists edited m',
    DynamicSpace.filteredFrom S choose w = (Ok edited, w)
    /\ entriesOfSpace edited = Ok m'
    /\ NoDup (map fst m')
    /\ forall name e, In (name, e) m' <-> In (name, e) m /\ chosen choose name = true.
Proof.
  intros Hm. apply entriesOf_buildMap in Hm.
  pose proof (buildMap_NoDup S) as Hnd. rewrite Hm in Hnd. simpl in Hnd.
  destruct w as [lg o]. destruct choose as [c|].
  - exists (mkDynamicSpace (mkStaticSpace S (Some (refill c [] m))) None [] false),
           (refill c [] m).
    destruct (refill_spec c m [] Hnd (NoDup_nil _)) as [Hnd' Hin]; [intros k []|].
    split; [|split; [reflexivity | split; [exact Hnd'|]]].
    + unfold DynamicSpace.filteredFrom. cbn [log objs].
      now rewrite (filteredFrom_body_run c S lg m Hm).
    + intros name e. rewrite Hin. simpl. tauto.
  - exists (DynamicSpace.new S), m.
    split; [reflexivity | split; [| split; [exact Hnd|]]].
    + unfold entriesOfSpace. now rewrite (entries_new S [] m Hm).
    + intros name e. simpl. tauto.
Qed.
End FilteredFrom.

(** [accept: carrier, origin] on [flights]. *)
Lemma filteredFrom_entry_set_witness :
  exists edited m',
    DynamicSpace.filteredFrom flights (Some acceptCarrierOrigin) world0
    = (Ok edited, world0)
    /\ entriesOfSpace edited = Ok m'
    /\ NoDup (map fst m')
    /\ forall name e,
        In (name, e) m'
        <-> In (name, e) [("carrier"%string, ColumnSpaceField (column "carrier" TString));
                          ("distance"%string, ColumnSpaceField (column "distance" TNumber));
                          ("origin"%string, ColumnSpaceField (column "origin" TString))]
            /\ chosen (Some acceptCarrierOrigin) name = true.
Proof.
  exact (filteredFrom_entry_set flights (Some acceptCarrierOrigin)
           _ world0 eq_refl).
Defined.

(** The two edits on [flights], run. *)
Lemma filteredFrom_accept_except_run :
  fst (DynamicSpace.filteredFrom flights (Some acceptCarrierOrigin) world0)
  = Ok (mkDynamicSpace
          (mkStaticSpace flights
             (Some [("carrier"%string, ColumnSpaceField (column "carrier" TString));
                    ("origin"%string, ColumnSpaceField (column "origin" TString))]))
          None [] false)
  /\ fst (DynamicSpace.filteredFrom flights (Some exceptCarrierOrigin) world0)
     = Ok (mkDynamicSpace
             (mkStaticSpace flights
                (Some [("distance"%string, ColumnSpaceField (column "distance" TNumber))]))
             None [] false).
Proof. split; vm_compute; reflexivity. Qed.

(** ** Finalize once *)

Section FinalizeOnce.
Context {D : AnalysisDeps}.

Lemma for_each_run_outcome_objs {O} (steps : list (Outcome unit)) (w w' : World O) r :
  for_each steps run_outcome w = (r, w') -> objs w' = objs w.
Proof.
  intros H.
  assert (Hf : frames (fun o : O => o) (for_each steps (run_outcome (O:=O) (A:=unit))))
    by (apply frames_for_each; intros; apply frames_run_outcome).
  destruct (frames_run _ _ _ _ _ Hf H) as [_ E]. exact E.
Qed.

(** After [isComplete] the space is complete, has no pending completion
    step, and the rest of it is as before. *)
Lemma isComplete_done (w w' : World DynamicSpace) :
  DynamicSpace.isComplete w = (Ok tt, w') ->
  objs w' = mkDynamicSpace (base (objs w)) (final (objs w)) [] true.
Proof.
  unfold DynamicSpace.isComplete. intros H.
  bind_inv H. unfold modify in E. inversion E; subst a w0. clear E.
  bind_inv H. unfold get in E. inversion E; subst a w0. clear E.
  bind_inv H. apply for_each_run_outcome_objs in E.
  unfold modify in H. inversion H; subst. simpl in *. rewrite E. reflexivity.
Qed.

(** C6.  When [structDef()] has returned a struct [sd] from a dynamic
    space (a result space's own space included), a second call returns
    the same [sd] and changes and logs nothing, and every [setEntry]
    throws "Space already final", leaving the space as it is. *)
Theorem DynamicSpace_structDef_once (w w1 : World DynamicSpace) (sd : StructDef) :
  DynamicSpace.structDef w = (Ok sd, w1) ->
  DynamicSpace.structDef w1 = (Ok sd, w1)
  /\ forall name entry_,
      DynamicSpace.setEntry name entry_ w1 = (Throw "Space already final", w1).
Proof.
  intros H. unfold DynamicSpace.structDef in H.
  bind_split H as this wa Ea. clear Ea. bind_split H as u wb Eb. clear Eb.
  bind_split H as u' wc Ec. destruct u'.
  apply isComplete_done in Ec.
  bind_split H as this2 wd Ed. unfold get in Ed. inversion Ed; subst this2 wd. clear Ed.
  rewrite Ec in H. simpl in H.
  destruct (final (objs wb)) as [f|] eqn:Ef; [|discriminate].
  inversion H; subst f wc. clear H.
  destruct w1 as [lg o]. simpl in Ec. subst o. split; [|reflexivity].
  unfold DynamicSpace.structDef, DynamicSpace.isComplete, bind, get, modify, ret.
  simpl. reflexivity.
Qed.
End FinalizeOnce.

(** The space over [flights]: its struct is [flights] again, twice. *)
Lemma DynamicSpace_structDef_once_witness :
  DynamicSpace.structDef (D:=sampleAnalysisDeps)
    (snd (DynamicSpace.structDef (D:=sampleAnalysisDeps) flightsWorld0))
  = (Ok flights, snd (DynamicSpace.structDef (D:=sampleAnalysisDeps) flightsWorld0))
  /\ forall name entry_,
      DynamicSpace.setEntry name entry_
        (snd (DynamicSpace.structDef (D:=sampleAnalysisDeps) flightsWorld0))
      = (Throw "Space already final",
         snd (DynamicSpace.structDef (D:=sampleAnalysisDeps) flightsWorld0)).
Proof.
  exact (DynamicSpace_structDef_once (D:=sampleAnalysisDeps) flightsWorld0
           (snd (DynamicSpace.structDef (D:=sampleAnalysisDeps) flightsWorld0))
           flights eq_refl).
Defined.

(** ** Project segments hold no aggregates and no turtles *)

Section ProjectFacts.
Context {D : AnalysisDeps}.

Lemma frames_segmentType_exprFS path :
  frames (fun r => (segmentType r, astEl r)) (fs_lookup ResultSpace.exprFS path).
Proof.
  simpl. apply frames_bind; [| intros; apply frames_ret].
  unfold ResultSpace.onExprSpace.
  apply (frames_zoom _ nothing); [reflexivity | frame_auto].
Qed.

Lemma frames_segmentType_canContain qd :
  frames (fun r => (segmentType r, astEl r)) (ResultSpace.canContain qd).
Proof. unfold ResultSpace.canContain, ResultSpace.log_. frame_auto. Qed.

Lemma frames_segmentType_onSpace {A} (m : M DynamicSpace A) :
  frames nothing m ->
  frames (fun r => (segmentType r, astEl r)) (ResultSpace.onSpace m).
Proof.
  intros H. unfold ResultSpace.onSpace. apply (frames_zoom _ nothing); [reflexivity | exact H].
Qed.

Lemma frames_segmentType_onExprSpace {A} (m : M QuerySpace A) :
  frames nothing m ->
  frames (fun r => (segmentType r, astEl r)) (ResultSpace.onExprSpace m).
Proof.
  intros H. unfold ResultSpace.onExprSpace.
  apply (frames_zoom _ nothing); [reflexivity | exact H].
Qed.

Lemma ResultSpace_log_run s el (w : World ResultSpace) :
  astEl (objs w) = Some el ->
  ResultSpace.log_ s w = (Ok tt, mkWorld (log w ++ [mkDiag el s]) (objs w)).
Proof. intros H. unfold ResultSpace.log_, bind, get. simpl. now rewrite H. Qed.

(** In a project space, [canContain] says yes only to what is neither an
    aggregate definition nor a turtle. *)
Lemma canContain_accepts qd (w w' : World ResultSpace) :
  segmentType (objs w) = KProject ->
  ResultSpace.canContain qd w = (Ok true, w') ->
  aggregateOrTurtle qd = false.
Proof.
  intros Hp H. unfold ResultSpace.canContain, bind, get in H. simpl in H.
  rewrite Hp in H. destruct qd as [s|f|d]; try reflexivity. simpl.
  destruct (FieldValueType_eqb (fieldDef_type d) TTurtle).
  - unfold ResultSpace.log_, bind, get in H. simpl in H.
    destruct (astEl (objs w)); discriminate.
  - destruct (expressionIsAggregate (fieldDef_expressionType d)); [|reflexivity].
    unfold ResultSpace.log_, bind, get in H. simpl in H.
    destruct (astEl (objs w)); discriminate.
Qed.

(** In a project space whose messages go to [el], an aggregate definition
    is refused with the diagnostic. *)
Lemma canContain_refuses_aggregate (d : FieldDef) el (w : World ResultSpace) :
  segmentType (objs w) = KProject -> astEl (objs w) = Some el ->
  FieldValueType_eqb (fieldDef_type d) TTurtle = false ->
  expressionIsAggregate (fieldDef_expressionType d) = true ->
  ResultSpace.canContain (QField d) w
  = (Ok false,
     mkWorld (log w ++ [mkDiag el "Cannot add aggregate measures to project"]) (objs w)).
Proof.
  intros Hp Hel Ht Ha. unfold ResultSpace.canContain, ResultSpace.log_, bind, get.
  simpl. rewrite Hp, Ht, Ha, Hel. reflexivity.
Qed.

Lemma queryFieldDefs_loop_legal es :
  forall fields (w w' : World ResultSpace) out,
    segmentType (objs w) = KProject ->
    projectLegal fields ->
    ResultSpace.queryFieldDefs_loop es fields w = (Ok out, w') ->
    projectLegal out.
Proof.
  induction es as [|[name field] rest IH]; intros fields w w' out Hp Hleg H; simpl in H.
  - inversion H; now subst.
  - destruct (isSpaceField field); [|now apply (IH _ _ _ _ Hp Hleg H)].
    bind_split H as qdo w1 E1.
    assert (Hp1 : segmentType (objs w1) = KProject).
    { destruct (frames_run _ _ _ _ _
                  (frames_getQueryFieldDef (fun r => (segmentType r, astEl r))
                     ResultSpace.exprFS field frames_segmentType_exprFS) E1) as [_ Hs].
      injection Hs as Hs _. congruence. }
    destruct qdo as [qd|]; [|discriminate].
    bind_split H as ok w2 E2.
    assert (Hp2 : segmentType (objs w2) = KProject).
    { destruct (frames_run _ _ _ _ _ (frames_segmentType_canContain qd) E2) as [_ Hs].
      injection Hs as Hs _. congruence. }
    destruct ok.
    + apply (IH _ _ _ _ Hp2) in H; [exact H|].
      apply Forall_app. split; [exact Hleg|]. constructor; [|constructor].
      now apply (canContain_accepts qd w1 w2).
    + bind_split H as this w3 E3. unfold get in E3. inversion E3; subst this w3. clear E3.
      bind_split H as u w4 E4.
      assert (Hp4 : segmentType (objs w4) = KProject).
      { assert (Hf : frames (fun r => (segmentType r, astEl r))
                            (ResultSpace.log_ ("'" +++ name +++ "' not legal in "
                                               +++ segmentKindName (segmentType (objs w2)))))
          by (unfold ResultSpace.log_; frame_auto).
        destruct (frames_run _ _ _ _ _ Hf E4) as [_ Hs]. injection Hs as Hs _. congruence. }
      now apply (IH _ _ _ _ Hp4 Hleg H).
Qed.

Lemma getQuerySegment_project_legal rf (w w' : World ResultSpace) seg :
  mergeFields_members D ->
  segmentType (objs w) = KProject ->
  (forall s, rf = Some s -> projectLegal (seg_fields_query s)) ->
  ResultSpace.getQuerySegment rf w = (Ok seg, w') ->
  projectLegal (seg_fields_query seg).
Proof.
  intros Hmerge Hp Hfrom H. unfold ResultSpace.getQuerySegment in H.
  bind_split H as p w1 E. destruct p; [|discriminate]. inversion H; subst. clear H.
  unfold ResultSpace.getPipeSegment in E.
  bind_split E as this w0 E0. unfold get in E0. inversion E0; subst this w0. clear E0.
  rewrite Hp in E.
  bind_split E as u wa Ea.
  assert (Hpa : segmentType (objs wa) = KProject).
  { assert (Hf : frames (fun r => (segmentType r, astEl r))
                        match match rf with
                              | Some f => seg_extendSource f
                              | None => None
                              end with
                        | Some xs =>
                            for_each xs
                              (fun xField =>
                                 ResultSpace.onExprSpace
                                   (QuerySpace.onSpace (DynamicSpace.addFieldDef xField)))
                        | None => ret tt
                        end).
    { destruct (match rf with Some f => seg_extendSource f | None => None end);
        [|apply frames_ret].
      apply frames_for_each. intros x. apply frames_segmentType_onExprSpace. frame_auto. }
    destruct (frames_run _ _ _ _ _ Hf Ea) as [_ Hs]. injection Hs as Hs _. congruence. }
  bind_split E as newFields wb Eb.
  assert (Hnew : projectLegal newFields).
  { unfold ResultSpace.queryFieldDefs in Eb.
    bind_split Eb as es wc Ec.
    assert (Hpc : segmentType (objs wc) = KProject).
    { destruct (frames_run _ _ _ _ _
                  (frames_segmentType_onSpace DynamicSpace.entries
                     (frames_nothing _ _ frames_DynamicSpace_entries)) Ec) as [_ Hs].
      injection Hs as Hs _. congruence. }
    bind_split Eb as flds wd Ed.
    bind_split Eb as u' we Ee. inversion Eb; subst.
    eapply (queryFieldDefs_loop_legal es [] wc wd); [exact Hpc | constructor | exact Ed]. }
  bind_split E as this1 wc Ec.
  bind_split E as ext wd Ed.
  bind_split E as u' we Ee.
  inversion E; subst. simpl.
  apply Forall_forall. intros q Hq. apply Hmerge in Hq.
  destruct Hq as [Hq|(o & Ho & Hq)].
  - revert q Hq. now apply Forall_forall.
  - destruct rf as [s|]; [|discriminate]. simpl in Ho. inversion Ho; subst o.
    specialize (Hfrom s eq_refl). revert q Hq. now apply Forall_forall.
Qed.

Lemma seg_fields_set_orderBy s o : seg_fields_query (seg_set_orderBy s o) = seg_fields_query s.
Proof. now destruct s. Qed.
Lemma seg_fields_set_by s b : seg_fields_query (seg_set_by s b) = seg_fields_query s.
Proof. now destruct s. Qed.
Lemma seg_fields_set_limit s l : seg_fields_query (seg_set_limit s l) = seg_fields_query s.
Proof. now destruct s. Qed.
Lemma seg_fields_set_filterList s l :
  seg_fields_query (seg_set_filterList s l) = seg_fields_query s.
Proof. now destruct s. Qed.

(** [refineFrom] writes ordering, limit and filters, never the fields. *)
Lemma refineFrom_fields from to (w w' : World ReduceExecutor) seg :
  ReduceExecutor.refineFrom from to w = (Ok seg, w') ->
  seg_fields_query seg = seg_fields_query to.
Proof.
  unfold ReduceExecutor.refineFrom. intros H.
  bind_split H as this w0 E0. unfold get in E0. inversion E0; subst this w0. clear E0.
  bind_split H as to3 w1 E1.
  bind_split H as this' w2 E2. inversion H; subst. clear H.
  rewrite seg_fields_set_filterList.
  assert (Hto3 : forall to2, seg_fields_query to2 = seg_fields_query to ->
                 match re_order (objs w) with
                 | Some (OrderTop t) =>
                     topBy <- Top.getBy t ReduceExecutor.inputFS ;;
                     ret (match topBy with Some b => seg_set_by to2 b | None => to2 end)
                 | Some (OrderOrdering o) => ret (seg_set_orderBy to2 (Ordering.getOrderBy o))
                 | None => ret to2
                 end w = (Ok to3, w1) ->
                 seg_fields_query to3 = seg_fields_query to).
  { intros to2 H2 Hm. destruct (re_order (objs w)) as [[t|o]|].
    - bind_split Hm as topBy wt Et. inversion Hm; subst.
      destruct topBy; now rewrite ?seg_fields_set_by.
    - inversion Hm; subst. now rewrite seg_fields_set_orderBy.
    - inversion Hm; now subst. }
  eapply Hto3; [|exact E1].
  repeat match goal with
         | |- context [match ?x with _ => _ end] => destruct x
         end;
    rewrite ?seg_fields_set_limit, ?seg_fields_set_orderBy, ?seg_fields_set_by;
    reflexivity.
Qed.

(** C4.  A project executor (its result space is a [ProjectFieldSpace])
    finalized on its own or against a segment [fromSeg] whose fields, if
    it is a project segment, hold no aggregate definition and no turtle:
    the fields of the segment it returns hold no definition of an
    aggregate expression and no turtle definition.  And when, in the loop
    that collects the fields, the entry [name] yields the definition [d]
    of an aggregate expression, "Cannot add aggregate measures to project"
    is logged (followed by "'<name>' not legal in project") and the loop
    goes on with the fields it had: [d] is left out. *)
Theorem ProjectExecutor_finalize_no_aggregates
        (fromSeg : option PipeSegment) (w w' : World ReduceExecutor) (seg : PipeSegment) :
  mergeFields_members D ->
  segmentType (re_resultFS (objs w)) = KProject ->
  (forall s, fromSeg = Some s -> isProjectSegment s = true ->
             projectLegal (seg_fields_query s)) ->
  ProjectExecutor.finalize fromSeg w = (Ok seg, w') ->
  projectLegal (seg_fields_query seg)
  /\ forall name field rest fields (d : FieldDef) el (wr w1 : World ResultSpace),
      isSpaceField field = true ->
      SpaceEntry.getQueryFieldDef field ResultSpace.exprFS wr = (Ok (Some (QField d)), w1) ->
      segmentType (objs w1) = KProject -> astEl (objs w1) = Some el ->
      FieldValueType_eqb (fieldDef_type d) TTurtle = false ->
      expressionIsAggregate (fieldDef_expressionType d) = true ->
      ResultSpace.queryFieldDefs_loop ((name, field) :: rest) fields wr
      = ResultSpace.queryFieldDefs_loop rest fields
          (mkWorld (log w1 ++ [mkDiag el "Cannot add aggregate measures to project";
                               mkDiag el ("'" +++ name +++ "' not legal in project")])
                   (objs w1)).
Proof.
  intros Hmerge Hp Hfrom H. split.
  - unfold ProjectExecutor.finalize in H.
    assert (Hgo : forall from,
               (forall s, from = Some s -> projectLegal (seg_fields_query s)) ->
               (projectSegment <-
                  ReduceExecutor.onResultFS (ResultSpace.getQuerySegment from) ;;
                ReduceExecutor.refineFrom from projectSegment) w = (Ok seg, w') ->
               projectLegal (seg_fields_query seg)).
    { intros from Hfr Hrun. bind_split Hrun as ps w1 E1.
      rewrite (refineFrom_fields _ _ _ _ _ Hrun).
      unfold ReduceExecutor.onResultFS, zoom in E1.
      destruct (ResultSpace.getQuerySegment from _) as [r wr] eqn:Eq.
      inversion E1; subst r. clear E1.
      eapply (getQuerySegment_project_legal from); [exact Hmerge | | exact Hfr | exact Eq].
      exact Hp. }
    destruct fromSeg as [s|].
    + destruct (isProjectSegment s) eqn:Es.
      * apply (Hgo (Some s)); [|exact H]. intros s' [= <-]. now apply Hfrom.
      * bind_split H as u w1 E1. inversion H; subst. constructor.
    + apply (Hgo None); [|exact H]. intros s' [=].
  - intros name field rest fields d el wr w1 Hsf Hq Hp1 Hel Ht Ha.
    cbn [ResultSpace.queryFieldDefs_loop]. rewrite Hsf.
    rewrite (bind_ok _ _ _ _ _ Hq).
    rewrite (bind_ok _ _ _ _ _ (canContain_refuses_aggregate d el w1 Hp1 Hel Ht Ha)).
    unfold bind at 1. unfold get. cbn [objs log]. rewrite Hp1.
    erewrite bind_ok by (apply (ResultSpace_log_run _ el); exact Hel).
    cbn [objs log]. rewrite <- app_assoc. reflexivity.
Qed.
End ProjectFacts.

Lemma sample_mergeFields_members : mergeFields_members sampleAnalysisDeps.
Proof.
  intros older newer q. simpl. destruct older as [o|]; [|now left].
  rewrite in_app_iff, filter_In. intros [[H _]|H]; [right; now exists o | now left].
Qed.

(** [project: total is sum(distance), carrier] on [flights]: the segment
    holds the reference only, and the two diagnostics are logged. *)
Lemma ProjectExecutor_finalize_no_aggregates_witness :
  projectLegal (seg_fields_query
                  (fst_ok (ProjectExecutor.finalize (D:=sampleAnalysisDeps) None projectedWorld)))
  /\ fst (ProjectExecutor.finalize (D:=sampleAnalysisDeps) None projectedWorld)
     = Ok (QuerySegment project [QName "carrier"] None None None (Some []) None)
  /\ log (snd (ProjectExecutor.finalize (D:=sampleAnalysisDeps) None projectedWorld))
     = [mkDiag (Src 100) "Cannot add aggregate measures to project";
        mkDiag (Src 100) "'total' not legal in project"].
Proof.
  split; [| split; vm_compute; reflexivity].
  exact (proj1 (ProjectExecutor_finalize_no_aggregates (D:=sampleAnalysisDeps)
                  None projectedWorld
                  (snd (ProjectExecutor.finalize (D:=sampleAnalysisDeps) None projectedWorld))
                  (fst_ok (ProjectExecutor.finalize (D:=sampleAnalysisDeps) None projectedWorld))
                  sample_mergeFields_members eq_refl
                  (fun s H => ltac:(discriminate H))
                  ltac:(vm_compute; reflexivity))).
Defined.

(** ** The field order of a finalized struct *)

Section OrderFacts.
Context {D : AnalysisDeps}.

Lemma frames_lifecycle_sortEntries acc es :
  frames lifecycle (DynamicSpace.sortEntries acc es).
Proof.
  revert acc. induction es as [|ne rest IH]; intros acc; simpl; [apply frames_ret|].
  apply frames_bind; [| intros; apply IH]. destruct ne.
  unfold DynamicSpace.sortEntry. frame_auto.
Qed.

(** The first loop sorts the entries into the three groups, each in entry
    order. *)
Lemma sortEntries_groups es :
  forall acc (w w' : World DynamicSpace) sorted,
    DynamicSpace.sortEntries acc es w = (Ok sorted, w') ->
    DynamicSpace.s_fields sorted = DynamicSpace.s_fields acc ++ plainEntries es
    /\ DynamicSpace.s_joins sorted = DynamicSpace.s_joins acc ++ joinEntries es
    /\ DynamicSpace.s_turtles sorted = DynamicSpace.s_turtles acc ++ turtleEntries es.
Proof.
  induction es as [|[name e] rest IH]; intros acc w w' sorted H; simpl in H.
  - inversion H; subst. unfold plainEntries, joinEntries, turtleEntries. simpl.
    now rewrite !app_nil_r.
  - bind_split H as acc' wa Ea.
    destruct (IH _ _ _ _ H) as (Hf & Hj & Ht). rewrite Hf, Hj, Ht. clear IH H Hf Hj Ht.
    unfold plainEntries, joinEntries, turtleEntries, isPlainField. cbn [filter snd].
    unfold DynamicSpace.sortEntry in Ea.
    destruct (isStructSpaceField e) eqn:Es.
    { inversion Ea; subst. simpl. now rewrite <- app_assoc. }
    destruct (isQueryField e) eqn:Eq.
    { inversion Ea; subst. simpl. now rewrite <- app_assoc. }
    destruct (isSpaceField e) eqn:Ef.
    { inversion Ea; subst. simpl. now rewrite <- app_assoc. }
    bind_split Ea as p wp Ep. destruct p; inversion Ea; subst; simpl; auto.
Qed.

Lemma fieldDef_shape {O} (fs : FieldSpace O) (e : SpaceEntry) :
  forall (w w' : World O) fd,
    SpaceEntry.fieldDef fs e w = (Ok (Some fd), w') -> defShape e fd.
Proof.
  induction e; intros w w' fd H; simpl in H; try (inversion H; subst; reflexivity);
    try discriminate.
  - bind_split H as def wa Ea. inversion H; subst. simpl. eauto.
  - bind_split H as def wa Ea. inversion H; subst. simpl. eauto.
  - bind_split H as raw wa Ea. destruct raw as [raw|]; inversion H; subst.
    simpl. exists raw. split; [eapply IHe; exact Ea | reflexivity].
Qed.

Lemma pushField_run fd (w : World DynamicSpace) f :
  final (objs w) = Some f ->
  DynamicSpace.pushField fd w
  = (Ok (length (sd_fields f)),
     mkWorld (log w)
             (mkDynamicSpace (base (objs w)) (Some (sd_with_fields f (sd_fields f ++ [fd])))
                             (completions (objs w)) (complete (objs w)))).
Proof.
  intros Hf. unfold DynamicSpace.pushField, bind, get. simpl. rewrite Hf. reflexivity.
Qed.

Lemma sd_fields_with_fields f l : sd_fields (sd_with_fields f l) = l.
Proof. now destruct f. Qed.

Lemma sd_fields_with_parameters f p : sd_fields (sd_with_parameters f p) = sd_fields f.
Proof. now destruct f. Qed.

Lemma finalFields_of (w : World DynamicSpace) l :
  finalFields w = Some l -> exists f, final (objs w) = Some f /\ sd_fields f = l.
Proof.
  unfold finalFields. destruct (final (objs w)) as [f|]; [|discriminate].
  intros [= <-]. now exists f.
Qed.

Lemma keeps_lifecycle_finalFields (w w' : World DynamicSpace) :
  keeps lifecycle w w' -> finalFields w' = finalFields w.
Proof. intros [_ H]. unfold lifecycle in H. injection H as H _ _. unfold finalFields. now rewrite H. Qed.

(** One entry of the second loop. *)
Lemma emitField_spec fj ne (w w' : World DynamicSpace) fj' fields0 :
  DynamicSpace.emitField fj ne w = (Ok fj', w') ->
  finalFields w = Some fields0 ->
  exists group,
    emitted ne group
    /\ finalFields w' = Some (fields0 ++ group)
    /\ fj' = fj ++ combine (keptJoins [ne]) [length fields0].
Proof.
  intros H Hf. destruct ne as [name field]. unfold DynamicSpace.emitField in H.
  assert (Hother :
            (fieldDef_ <- SpaceEntry.fieldDef DynamicSpace.asFieldSpace field ;;
             match fieldDef_ with
             | Some fd => DynamicSpace.pushField fd ;;; ret fj
             | None => throw ("'" +++ name +++ "' doesn't have a FieldDef")
             end) w = (Ok fj', w') ->
            (forall s j, field <> JoinSpaceField s j) ->
            exists group,
              emitted (name, field) group
              /\ finalFields w' = Some (fields0 ++ group)
              /\ fj' = fj ++ combine (keptJoins [(name, field)]) [length fields0]).
  { intros Hrun Hnj. bind_split Hrun as fdo wa Ea.
    destruct fdo as [fd|]; [|discriminate].
    pose proof (fieldDef_shape _ _ _ _ _ Ea) as Hshape.
    assert (Hfa : finalFields wa = Some fields0).
    { rewrite <- Hf. apply keeps_lifecycle_finalFields.
      eapply frames_run; [|exact Ea]. apply frames_entry_fieldDef.
      apply frames_asFieldSpace. }
    destruct (finalFields_of _ _ Hfa) as (f & Hfin & Hfl).
    bind_split Hrun as i wb Eb. inversion Hrun; subst fj' w'. clear Hrun.
    rewrite (pushField_run fd wa f Hfin) in Eb. inversion Eb; subst i wb. clear Eb.
    exists [fd]. split; [|split].
    - unfold emitted. simpl. destruct field; try (exists fd; now split).
      now elim (Hnj sourceDef join).
    - unfold finalFields. simpl. now rewrite sd_fields_with_fields, Hfl.
    - unfold keptJoins. simpl. destruct field; simpl; try now rewrite app_nil_r.
      now elim (Hnj sourceDef join). }
  destruct field; try (apply Hother; [exact H | discriminate]).
  clear Hother. bind_split H as joinStruct wa Ea.
  unfold run_outcome in Ea. inversion Ea as [[Hres Hw]]. clear Ea.
  assert (Hfa : finalFields wa = Some fields0) by (rewrite <- Hf, <- Hw; reflexivity).
  destruct (finalFields_of _ _ Hfa) as (f & Hfin & Hfl).
  unfold emitted, keptJoins. simpl. rewrite Hres.
  destruct (isErrorStructDef joinStruct) eqn:Eerr; simpl in H.
  - inversion H; subst. exists []. split; [|split].
    + exists joinStruct. now rewrite Eerr.
    + now rewrite app_nil_r.
    + simpl. now rewrite app_nil_r.
  - bind_split H as i wb Eb. inversion H; subst fj' w'. clear H.
    rewrite (pushField_run _ wa f Hfin) in Eb. inversion Eb; subst i wb. clear Eb.
    exists [StructField joinStruct]. split; [|split].
    + exists joinStruct. now rewrite Eerr.
    + unfold finalFields. simpl. now rewrite sd_fields_with_fields, Hfl.
    + simpl. now rewrite Hfl.
Qed.
Lemma keptJoins_cons ne l : keptJoins (ne :: l) = keptJoins [ne] ++ keptJoins l.
Proof. unfold keptJoins. simpl. now rewrite app_nil_r. Qed.

Lemma keptJoins_app l l' : keptJoins (l ++ l') = keptJoins l ++ keptJoins l'.
Proof. unfold keptJoins. apply flat_map_app. Qed.

Lemma keptJoins_one_indexed ne (n : nat) :
  map fst (combine (keptJoins [ne]) [n]) = keptJoins [ne].
Proof.
  unfold keptJoins. simpl. destruct (snd ne); try reflexivity.
  destruct (out_result (join_structDef join)) as [s|]; [|reflexivity].
  now destruct (isErrorStructDef s).
Qed.

(** The second loop: each entry adds its group at the end of
    [final.fields], and the joins to revisit are the kept joins, in
    order. *)
Lemma emitFields_spec l :
  forall fj (w w' : World DynamicSpace) fj' fields0,
    DynamicSpace.emitFields fj l w = (Ok fj', w') ->
    finalFields w = Some fields0 ->
    exists groups,
      Forall2 emitted l groups
      /\ finalFields w' = Some (fields0 ++ concat groups)
      /\ map fst fj' = map fst fj ++ keptJoins l.
Proof.
  induction l as [|ne rest IH]; intros fj w w' fj' fields0 H Hf; simpl in H.
  - inversion H; subst. exists []. split; [constructor|]. simpl.
    rewrite !app_nil_r. now split.
  - bind_split H as fj1 wa Ea.
    destruct (emitField_spec _ _ _ _ _ _ Ea Hf) as (group & Hg & Hfa & Hfj).
    destruct (IH _ _ _ _ _ H Hfa) as (groups & Hgs & Hfw & Hfjs).
    exists (group :: groups). split; [now constructor|]. split.
    + simpl. now rewrite app_assoc.
    + rewrite Hfjs, Hfj, map_app, keptJoins_one_indexed, (keptJoins_cons ne rest).
      now rewrite app_assoc.
Qed.

Lemma sameSlot_refl a : sameSlot a a.
Proof. now left. Qed.

Lemma sameSlot_trans a b c : sameSlot a b -> sameSlot b c -> sameSlot a c.
Proof.
  intros [->|(s & s' & -> & ->)] [<-|(t & t' & E & ->)]; try (now left).
  - right. eauto.
  - right. eauto.
  - right. eauto.
Qed.

Lemma sameSlots_refl l : Forall2 sameSlot l l.
Proof. induction l; constructor; auto using sameSlot_refl. Qed.

Lemma sameSlots_trans l1 : forall l2 l3,
  Forall2 sameSlot l1 l2 -> Forall2 sameSlot l2 l3 -> Forall2 sameSlot l1 l3.
Proof.
  induction l1 as [|a l1 IH]; intros l2 l3 H12 H23.
  - inversion H12; subst. inversion H23; subst. constructor.
  - inversion H12; subst. inversion H23; subst. constructor.
    + eapply sameSlot_trans; eauto.
    + eapply IH; eauto.
Qed.

Lemma list_set_sameSlot l : forall i s s',
  nth_error l i = Some (StructField s) ->
  Forall2 sameSlot l (list_set i (StructField s') l).
Proof.
  induction l as [|a l IH]; intros [|i] s s' H; simpl in *; try discriminate.
  - inversion H; subst. constructor; [right; eauto | apply sameSlots_refl].
  - constructor; [apply sameSlot_refl | eapply IH; eauto].
Qed.

(** A step of the second pass changes one struct of [final.fields] in
    place, and nothing else of the list. *)
Lemma fixupJoin_slots ji (w w' : World DynamicSpace) r l :
  DynamicSpace.fixupJoin ji w = (r, w') ->
  finalFields w = Some l ->
  exists l', finalFields w' = Some l' /\ Forall2 sameSlot l l'.
Proof.
  intros H Hl. destruct ji as [join i]. unfold DynamicSpace.fixupJoin in H.
  unfold bind at 1 in H. unfold get at 1 in H.
  destruct (finalFields_of _ _ Hl) as (f & Hfin & Hfl). rewrite Hfin, Hfl in H.
  assert (Hsame : forall (u : unit), ret u w = (r, w') ->
            exists l', finalFields w' = Some l' /\ Forall2 sameSlot l l').
  { intros u E. inversion E; subst r w'. exists l. split; [exact Hl | apply sameSlots_refl]. }
  destruct (nth_error l i) as [[d|missingOn|t]|] eqn:En; try (eapply Hsame; exact H).
  clear Hsame. unfold bind at 1 in H.
  destruct (run_eval DynamicSpace.asFieldSpace (join_fixupJoinOn join missingOn) w)
    as [[fixed|e] wa] eqn:Ea.
  - assert (Hfa : finalFields wa = Some l).
    { rewrite <- Hl. apply keeps_lifecycle_finalFields.
      eapply frames_run; [|exact Ea]. apply frames_run_eval. apply frames_asFieldSpace. }
    destruct (finalFields_of _ _ Hfa) as (f' & Hfin' & Hfl').
    unfold bind, get in H. rewrite Hfin', Hfl' in H.
    unfold DynamicSpace.set_final, modify in H. inversion H; subst r w'. clear H.
    exists (list_set i (StructField fixed) l). split.
    + unfold finalFields. simpl. now rewrite sd_fields_with_fields.
    + eapply list_set_sameSlot; exact En.
  - inversion H; subst r w'. exists l. split; [|apply sameSlots_refl].
    rewrite <- Hl. apply keeps_lifecycle_finalFields.
    eapply frames_run; [|exact Ea]. apply frames_run_eval. apply frames_asFieldSpace.
Qed.

Lemma fixupJoins_slots fjs :
  forall (w w' : World DynamicSpace) r l,
    for_each fjs DynamicSpace.fixupJoin w = (r, w') ->
    finalFields w = Some l ->
    exists l', finalFields w' = Some l' /\ Forall2 sameSlot l l'.
Proof.
  induction fjs as [|ji rest IH]; intros w w' r l H Hl; simpl in H.
  - inversion H; subst. exists l. split; [exact Hl | apply sameSlots_refl].
  - unfold bind in H. destruct (DynamicSpace.fixupJoin ji w) as [[u|e] wa] eqn:Ea.
    + destruct (fixupJoin_slots _ _ _ _ _ Ea Hl) as (l1 & Hl1 & S1).
      destruct (IH _ _ _ _ H Hl1) as (l2 & Hl2 & S2).
      exists l2. split; [exact Hl2 | eapply sameSlots_trans; eauto].
    + inversion H; subst. eapply fixupJoin_slots; eauto.
Qed.
End OrderFacts.

Section StructDefOrder.
Context {D : AnalysisDeps}.

(** The entries of a space are read from its name map alone. *)
Lemma entries_base (w w' : World DynamicSpace) :
  base (objs w) = base (objs w') ->
  fst (DynamicSpace.entries w) = fst (DynamicSpace.entries w').
Proof.
  intros E. unfold DynamicSpace.entries, DynamicSpace.onBase, zoom, StaticSpace.entries,
    StaticSpace.map_, bind, get. simpl. rewrite E.
  destruct (memoMap (base (objs w'))); [reflexivity|].
  destruct (StaticSpace.buildMap (fromStruct (base (objs w')))) as [m [e|]]; reflexivity.
Qed.

Lemma writeSharedParameters_fields ps (w w' : World DynamicSpace) r :
  DynamicSpace.writeSharedParameters ps w = (r, w') -> finalFields w' = finalFields w.
Proof.
  unfold DynamicSpace.writeSharedParameters, modify. intros H. inversion H; subst.
  unfold finalFields. simpl.
  destruct (sd_parameters (fromStruct (base (objs w)))); [|reflexivity]. simpl.
  destruct (final (objs w)); [|reflexivity]. simpl. now rewrite sd_fields_with_parameters.
Qed.

End StructDefOrder.



(** * Further properties of the code *)

(** ** The operator dispatcher *)

Lemma is_type_eq v t : is_type v t = true <-> dataType v = t.
Proof. unfold is_type. apply FieldValueType_eqb_eq. Qed.

(** A morphic value, when there is one, has the type asked for and keeps
    the expression type and the eval space; its plan is the one
    [willMorphTo] gives for the same request. *)
Theorem getMorphicValue_willMorphTo (mv : ExprValue) (mt : FieldValueType) :
  option_map value (getMorphicValue mv mt) = willMorphTo mv mt
  /\ forall v, getMorphicValue mv mt = Some v ->
               dataType v = mt
               /\ expressionType v = expressionType mv
               /\ evalSpace v = evalSpace mv.
Proof.
  unfold getMorphicValue, willMorphTo. destruct (is_type mv mt) eqn:E.
  - split; [reflexivity|]. intros v [= <-]. now apply is_type_eq in E.
  - destruct (morphic mv) as [m|]; [|split; [reflexivity | discriminate]].
    destruct (assoc_type mt m) as [e|]; [|split; [reflexivity | discriminate]].
    split; [reflexivity|]. intros v [= <-]. now simpl.
Qed.

Section OperatorFacts.
Context {X : EvaluatorDeps} {O : Type} (fs : FieldSpace O).

Lemma unsupportError_some l lhs r rhs (w w' : World O) n :
  unsupportError l lhs r rhs w = (Ok (Some n), w') ->
  expressionType n = maxExpressionType (expressionType lhs) (expressionType rhs)
  /\ evalSpace n = mergeEvalSpaces [evalSpace lhs; evalSpace rhs].
Proof.
  unfold unsupportError. destruct (is_type lhs TUnsupported).
  - unfold bind, log_at, ret. intros [= <- _]. now split.
  - destruct (is_type rhs TUnsupported).
    + unfold bind, log_at, ret. intros [= <- _]. now split.
    + intros [=].
Qed.

Lemma errorCascade_shape dt lhs rhs err :
  errorCascade dt [lhs; rhs] = Some err ->
  dataType err = dt
  /\ expressionType err = maxExpressionType (expressionType lhs) (expressionType rhs)
  /\ evalSpace err = mergeEvalSpaces [evalSpace lhs; evalSpace rhs].
Proof.
  unfold errorCascade. destruct (existsb _ _); [|discriminate].
  intros [= <-]. simpl. now rewrite maxOfExpressionTypes_pair.
Qed.

Lemma errorCascade_none dt lhs rhs :
  is_type lhs TError = false -> is_type rhs TError = false ->
  errorCascade dt [lhs; rhs] = None.
Proof. intros Hl Hr. unfold errorCascade. simpl. now rewrite Hl, Hr. Qed.

Lemma compareValue_returns left lhs op rhs (w : World O) :
  exists v w', compareValue left lhs op rhs w = (Ok v, w').
Proof.
  unfold compareValue, timeCompare, bind, ret, log_at.
  repeat match goal with
         | |- context [if ?c then _ else _] => destruct c
         | |- context [match willMorphTo ?a ?b with _ => _ end] => destruct (willMorphTo a b)
         end; eauto.
Qed.

Lemma equality_boolean left op right (w w' : World O) v :
  equality fs left op right w = (Ok v, w') ->
  exists lhs rhs w1 w2,
    getExpression left fs w = (Ok lhs, w1)
    /\ getExpression right fs w1 = (Ok rhs, w2)
    /\ dataType v = TBoolean
    /\ expressionType v = maxExpressionType (expressionType lhs) (expressionType rhs)
    /\ evalSpace v = mergeEvalSpaces [evalSpace lhs; evalSpace rhs].
Proof.
  intros H. unfold equality in H.
  bind_split H as lhs w1 El. bind_split H as rhs w2 Er.
  exists lhs, rhs, w1, w2. split; [exact El|]. split; [exact Er|].
  destruct (errorCascade TBoolean [lhs; rhs]) as [err|] eqn:Ec.
  { inversion H; subst. exact (errorCascade_shape _ _ _ _ Ec). }
  cbv zeta in H.
  assert (Hrest : forall wa,
    (value0 <- compareValue left lhs op rhs ;;
     value1 <-
       (if (negb (is_type lhs TError) && negb (is_type rhs TError))%bool then
          if (String.eqb op "~" || String.eqb op "!~")%bool then
            v <- (if (is_type lhs TString && is_type rhs TString)%bool then
                    ret (compose (value lhs) "LIKE" (value rhs))
                  else match regexEqual lhs rhs with
                       | None => throw "Incompatible types for match('~') operator"
                       | Some regexCmp => ret regexCmp
                       end) ;;
            ret (nullsafeNot v op)
          else if (String.eqb op "=" || String.eqb op "!=")%bool then
            match nullCompare lhs op rhs with
            | Some nullCmp => ret nullCmp
            | None =>
                ret (nullsafeNot
                       (match regexEqual lhs rhs with
                        | Some re => re
                        | None => compose (value lhs) "=" (value rhs)
                        end) op)
            end
          else ret value0
        else ret value0) ;;
     ret (plainValue TBoolean
            (maxExpressionType (expressionType lhs) (expressionType rhs))
            (mergeEvalSpaces [evalSpace lhs; evalSpace rhs]) value1)) wa = (Ok v, w') ->
    dataType v = TBoolean
    /\ expressionType v = maxExpressionType (expressionType lhs) (expressionType rhs)
    /\ evalSpace v = mergeEvalSpaces [evalSpace lhs; evalSpace rhs]).
  { intros wa Hr. bind_split Hr as value0 wb Eb. bind_split Hr as value1 wc Ec1.
    inversion Hr; subst. now simpl. }
  destruct (is_type lhs TUnsupported || is_type rhs TUnsupported)%bool; [|eauto].
  match type of H with
  | (if ?c then _ else _) _ = _ => destruct c; [|eauto]
  end.
  bind_split H as noGo wn En. destruct noGo as [n|]; [|eauto].
  inversion H; subst. simpl. split; [reflexivity|].
  exact (unsupportError_some _ _ _ _ _ _ _ En).
Qed.

Lemma compare_boolean left op right (w w' : World O) v :
  compare fs left op right w = (Ok v, w') ->
  exists lhs rhs w1 w2,
    getExpression left fs w = (Ok lhs, w1)
    /\ getExpression right fs w1 = (Ok rhs, w2)
    /\ dataType v = TBoolean
    /\ expressionType v = maxExpressionType (expressionType lhs) (expressionType rhs)
    /\ evalSpace v = mergeEvalSpaces [evalSpace lhs; evalSpace rhs].
Proof.
  intros H. unfold compare in H.
  bind_split H as lhs w1 El. bind_split H as rhs w2 Er.
  exists lhs, rhs, w1, w2. split; [exact El|]. split; [exact Er|].
  destruct (errorCascade TBoolean [lhs; rhs]) as [err|] eqn:Ec.
  { inversion H; subst. exact (errorCascade_shape _ _ _ _ Ec). }
  bind_split H as noCompare wn En. destruct noCompare as [n|].
  - inversion H; subst. simpl. split; [reflexivity|].
    exact (unsupportError_some _ _ _ _ _ _ _ En).
  - bind_split H as v0 wv Ev. inversion H; subst. now simpl.
Qed.

(** Equality and comparison operators answer with a boolean, whatever
    the operands are (in error and unsupported operands included): the
    value returned has data type boolean, the larger of the operands'
    expression types and the merge of their eval spaces. *)
Theorem applyBinary_relational_boolean
        (d : nat) (left right : ExpressionDef) (op : string) (w w' : World O) (v : ExprValue) :
  (isEquality op || isComparison op)%bool = true ->
  applyBinary fs (S d) left op right w = (Ok v, w') ->
  exists lhs rhs w1 w2,
    getExpression left fs w = (Ok lhs, w1)
    /\ getExpression right fs w1 = (Ok rhs, w2)
    /\ dataType v = TBoolean
    /\ expressionType v = maxExpressionType (expressionType lhs) (expressionType rhs)
    /\ evalSpace v = mergeEvalSpaces [evalSpace lhs; evalSpace rhs].
Proof.
  intros Hop H. simpl applyBinary in H. unfold applyBinary_body in H.
  destruct (isEquality op); [exact (equality_boolean _ _ _ _ _ _ H)|].
  simpl in Hop. rewrite Hop in H. exact (compare_boolean _ _ _ _ _ _ H).
Qed.
End OperatorFacts.

(** [sum(n) < 'carrier'] is a boolean aggregate. *)
Lemma applyBinary_relational_boolean_witness :
  exists lhs rhs w1 w2,
    getExpression numberNode emptyFieldSpace world0 = (Ok lhs, w1)
    /\ getExpression stringNode emptyFieldSpace w1 = (Ok rhs, w2)
    /\ dataType (plainValue TBoolean aggregate input
                            [FString "sum(n)"; FString "<"; FString "carrier"]) = TBoolean
    /\ expressionType (plainValue TBoolean aggregate input
                                  [FString "sum(n)"; FString "<"; FString "carrier"])
       = maxExpressionType (expressionType lhs) (expressionType rhs)
    /\ evalSpace (plainValue TBoolean aggregate input
                             [FString "sum(n)"; FString "<"; FString "carrier"])
       = mergeEvalSpaces [evalSpace lhs; evalSpace rhs].
Proof.
  exact (applyBinary_relational_boolean (X:=sampleDeps) emptyFieldSpace 0
           numberNode stringNode "<" world0 world0 _ eq_refl eq_refl).
Defined.

Section OperatorCases.
Context {X : EvaluatorDeps} {O : Type} (fs : FieldSpace O).

Lemma is_type_other v t t' : dataType v = t -> t <> t' -> is_type v t' = false.
Proof.
  intros E Hne. destruct (is_type v t') eqn:H; [|reflexivity].
  apply is_type_eq in H. congruence.
Qed.

Lemma timeCompare_null_r left lhs op rhs (w : World O) :
  is_type rhs TNull = true -> timeCompare left lhs op rhs w = (Ok None, w).
Proof.
  intros Hn. pose proof (proj1 (is_type_eq _ _) Hn) as Hd.
  unfold timeCompare. rewrite Hn, Hd. simpl isTimeFieldType.
  rewrite !andb_false_r. reflexivity.
Qed.

Lemma timeCompare_null_l left lhs op rhs (w : World O) :
  is_type lhs TNull = true -> timeCompare left lhs op rhs w = (Ok None, w).
Proof.
  intros Hn. pose proof (proj1 (is_type_eq _ _) Hn) as Hd.
  unfold timeCompare. rewrite Hn, Hd. simpl isTimeFieldType. simpl andb.
  rewrite !andb_false_r. reflexivity.
Qed.

(** The match operators on operands that are neither two strings nor a
    string and a regular expression throw. *)
Theorem applyBinary_match_mismatch_throws
        (d : nat) (left right : ExpressionDef) (op : string)
        (w w1 w2 : World O) (lhs rhs : ExprValue) :
  op = "~"%string \/ op = "!~"%string ->
  getExpression left fs w = (Ok lhs, w1) ->
  getExpression right fs w1 = (Ok rhs, w2) ->
  is_type lhs TError = false -> is_type rhs TError = false ->
  is_type lhs TUnsupported = false -> is_type rhs TUnsupported = false ->
  (is_type lhs TString && is_type rhs TString)%bool = false ->
  regexEqual lhs rhs = None ->
  fst (applyBinary fs (S d) left op right w)
  = Throw "Incompatible types for match('~') operator".
Proof.
  intros Hop Hl Hr Hel Her Hul Hur Hss Hre.
  destruct (compareValue_returns (O:=O) left lhs op rhs w2) as (v0 & w3 & Ev).
  simpl applyBinary. unfold applyBinary_body.
  destruct Hop; subst op.
  - change (isEquality "~") with true. cbv iota. unfold equality.
    rewrite (bind_ok _ _ _ _ _ Hl), (bind_ok _ _ _ _ _ Hr).
    rewrite (errorCascade_none _ _ _ Hel Her). cbv zeta.
    rewrite Hul, Hur. cbn [orb].
    rewrite (bind_ok _ _ _ _ _ Ev). rewrite Hel, Her, Hss, Hre. reflexivity.
  - change (isEquality "!~") with true. cbv iota. unfold equality.
    rewrite (bind_ok _ _ _ _ _ Hl), (bind_ok _ _ _ _ _ Hr).
    rewrite (errorCascade_none _ _ _ Hel Her). cbv zeta.
    rewrite Hul, Hur. cbn [orb].
    rewrite (bind_ok _ _ _ _ _ Ev). rewrite Hel, Her, Hss, Hre. reflexivity.
Qed.

(** [x = null] and [x != null]: for any left operand that is neither null
    nor in error (an unsupported one included), the value is the left plan
    followed by [IS NULL] or [IS NOT NULL], and nothing is logged. *)
Theorem applyBinary_null_test
        (d : nat) (left right : ExpressionDef) (op : string)
        (w w1 w2 : World O) (lhs rhs : ExprValue) :
  op = "="%string \/ op = "!="%string ->
  getExpression left fs w = (Ok lhs, w1) ->
  getExpression right fs w1 = (Ok rhs, w2) ->
  is_type lhs TError = false -> is_type lhs TNull = false ->
  is_type rhs TNull = true ->
  applyBinary fs (S d) left op right w
  = (Ok (plainValue TBoolean
           (maxExpressionType (expressionType lhs) (expressionType rhs))
           (mergeEvalSpaces [evalSpace lhs; evalSpace rhs])
           (value lhs ++ [FString (if String.eqb op "!=" then " IS NOT NULL"
                                   else " IS NULL")])), w2).
Proof.
  intros Hop Hl Hr Hel Hnl Hnr.
  pose proof (proj1 (is_type_eq _ _) Hnr) as Hd.
  assert (Her : is_type rhs TError = false) by (apply (is_type_other _ _ _ Hd); discriminate).
  assert (Hur : is_type rhs TUnsupported = false)
    by (apply (is_type_other _ _ _ Hd); discriminate).
  simpl applyBinary. unfold applyBinary_body.
  destruct Hop; subst op.
  - change (isEquality "=") with true. cbv iota. unfold equality.
    rewrite (bind_ok _ _ _ _ _ Hl), (bind_ok _ _ _ _ _ Hr).
    rewrite (errorCascade_none _ _ _ Hel Her). cbv zeta.
    unfold compareValue. rewrite Hnr, Hnl, Hur, Hel, Her. unfold nullCompare.
    rewrite Hnr, Hnl. rewrite orb_false_r.
    destruct (is_type lhs TUnsupported); simpl; unfold bind;
      rewrite (timeCompare_null_r _ _ _ _ _ Hnr); reflexivity.
  - change (isEquality "!=") with true. cbv iota. unfold equality.
    rewrite (bind_ok _ _ _ _ _ Hl), (bind_ok _ _ _ _ _ Hr).
    rewrite (errorCascade_none _ _ _ Hel Her). cbv zeta.
    unfold compareValue. rewrite Hnr, Hnl, Hur, Hel, Her. unfold nullCompare.
    rewrite Hnr, Hnl. rewrite orb_false_r.
    destruct (is_type lhs TUnsupported); simpl; unfold bind;
      rewrite (timeCompare_null_r _ _ _ _ _ Hnr); reflexivity.
Qed.

(** With the null on the left, the value is the right plan followed by
    [IS NULL] or [IS NOT NULL], written without the space before [IS]. *)
Theorem applyBinary_null_test_left
        (d : nat) (left right : ExpressionDef) (op : string)
        (w w1 w2 : World O) (lhs rhs : ExprValue) :
  op = "="%string \/ op = "!="%string ->
  getExpression left fs w = (Ok lhs, w1) ->
  getExpression right fs w1 = (Ok rhs, w2) ->
  is_type lhs TNull = true ->
  is_type rhs TError = false -> is_type rhs TNull = false ->
  applyBinary fs (S d) left op right w
  = (Ok (plainValue TBoolean
           (maxExpressionType (expressionType lhs) (expressionType rhs))
           (mergeEvalSpaces [evalSpace lhs; evalSpace rhs])
           (value rhs ++ [FString (if String.eqb op "!=" then "IS NOT NULL"
                                   else "IS NULL")])), w2).
Proof.
  intros Hop Hl Hr Hnl Her Hnr.
  pose proof (proj1 (is_type_eq _ _) Hnl) as Hd.
  assert (Hel : is_type lhs TError = false) by (apply (is_type_other _ _ _ Hd); discriminate).
  assert (Hul : is_type lhs TUnsupported = false)
    by (apply (is_type_other _ _ _ Hd); discriminate).
  simpl applyBinary. unfold applyBinary_body.
  destruct Hop; subst op.
  - change (isEquality "=") with true. cbv iota. unfold equality.
    rewrite (bind_ok _ _ _ _ _ Hl), (bind_ok _ _ _ _ _ Hr).
    rewrite (errorCascade_none _ _ _ Hel Her). cbv zeta.
    unfold compareValue. rewrite Hnr, Hnl, Hul, Hel, Her. unfold nullCompare.
    rewrite Hnr, Hnl.
    destruct (is_type rhs TUnsupported); simpl; unfold bind;
      rewrite (timeCompare_null_l _ _ _ _ _ Hnl); reflexivity.
  - change (isEquality "!=") with true. cbv iota. unfold equality.
    rewrite (bind_ok _ _ _ _ _ Hl), (bind_ok _ _ _ _ _ Hr).
    rewrite (errorCascade_none _ _ _ Hel Her). cbv zeta.
    unfold compareValue. rewrite Hnr, Hnl, Hul, Hel, Her. unfold nullCompare.
    rewrite Hnr, Hnl.
    destruct (is_type rhs TUnsupported); simpl; unfold bind;
      rewrite (timeCompare_null_l _ _ _ _ _ Hnl); reflexivity.
Qed.
End OperatorCases.

(** [1 ~ 'carrier'] throws. *)
Lemma applyBinary_match_mismatch_throws_witness :
  fst (applyBinary (X:=sampleDeps) emptyFieldSpace 1 oneNode "~" stringNode world0)
  = Throw "Incompatible types for match('~') operator".
Proof.
  exact (applyBinary_match_mismatch_throws (X:=sampleDeps) emptyFieldSpace 0
           oneNode stringNode "~" world0 world0 world0 _ _
           (or_introl eq_refl) eq_refl eq_refl eq_refl eq_refl eq_refl eq_refl
           eq_refl eq_refl).
Defined.

(** [carrier = null] *)
Lemma applyBinary_null_test_witness :
  applyBinary (X:=sampleDeps) emptyFieldSpace 1 stringNode "=" nullNode world0
  = (Ok (plainValue TBoolean scalar input [FString "carrier"; FString " IS NULL"]), world0).
Proof.
  exact (applyBinary_null_test (X:=sampleDeps) emptyFieldSpace 0
           stringNode nullNode "=" world0 world0 world0 _ _
           (or_introl eq_refl) eq_refl eq_refl eq_refl eq_refl eq_refl).
Defined.

(** [null != carrier] *)
Lemma applyBinary_null_test_left_witness :
  applyBinary (X:=sampleDeps) emptyFieldSpace 1 nullNode "!=" stringNode world0
  = (Ok (plainValue TBoolean scalar input [FString "carrier"; FString "IS NOT NULL"]), world0).
Proof.
  exact (applyBinary_null_test_left (X:=sampleDeps) emptyFieldSpace 0
           nullNode stringNode "!=" world0 world0 world0 _ _
           (or_intror eq_refl) eq_refl eq_refl eq_refl eq_refl eq_refl).
Defined.

Section OperatorArithmetic.
Context {X : EvaluatorDeps} {O : Type} (fs : FieldSpace O).

Lemma isComparison_cases op :
  isComparison op = true ->
  op = "<"%string \/ op = "<="%string \/ op = ">"%string \/ op = ">="%string.
Proof.
  unfold isComparison, oneOf. simpl. rewrite orb_false_r, !orb_true_iff, !String.eqb_eq.
  intuition.
Qed.

(** A comparison of a date or timestamp with a value of another type
    (not null, in error or unsupported) is not built: one diagnostic
    "Cannot compare a ... to a ..." is logged on the left operand and the
    value is the plan [false]. *)
Theorem applyBinary_time_with_other
        (d : nat) (left right : ExpressionDef) (op : string)
        (w w1 w2 : World O) (lhs rhs : ExprValue) :
  isComparison op = true ->
  getExpression left fs w = (Ok lhs, w1) ->
  getExpression right fs w1 = (Ok rhs, w2) ->
  isTimeFieldType (dataType lhs) = true ->
  isTimeFieldType (dataType rhs) = false ->
  is_type rhs TNull = false -> is_type rhs TError = false ->
  is_type rhs TUnsupported = false ->
  applyBinary fs (S d) left op right w
  = (Ok (plainValue TBoolean
           (maxExpressionType (expressionType lhs) (expressionType rhs))
           (mergeEvalSpaces [evalSpace lhs; evalSpace rhs])
           [FString "false"]),
     mkWorld (log w2 ++ [mkDiag (expr_id left)
                           ("Cannot compare a " +++ typeName (dataType lhs) +++ " to a "
                            +++ typeName (dataType rhs))])
             (objs w2)).
Proof.
  intros Hop Hl Hr Htl Htr Hnr Her Hur.
  assert (Hel : is_type lhs TError = false)
    by (unfold is_type; destruct (dataType lhs); simpl in *; congruence).
  assert (Hul : is_type lhs TUnsupported = false)
    by (unfold is_type; destruct (dataType lhs); simpl in *; congruence).
  assert (Hnl : is_type lhs TNull = false)
    by (unfold is_type; destruct (dataType lhs); simpl in *; congruence).
  assert (Heq : isEquality op = false).
  { destruct (isComparison_cases _ Hop) as [->|[->|[->| ->]]]; reflexivity. }
  simpl applyBinary. unfold applyBinary_body. rewrite Heq, Hop. unfold compare.
  rewrite (bind_ok _ _ _ _ _ Hl), (bind_ok _ _ _ _ _ Hr).
  rewrite (errorCascade_none _ _ _ Hel Her).
  rewrite (bind_ok _ _ _ _ _ (unsupportError_none left lhs right rhs w2 Hul Hur)).
  unfold compareValue, timeCompare. rewrite Htl, Htr, Hnl, Hnr. reflexivity.
Qed.

(** Division of operands that are neither in error nor unsupported: two
    numbers give the division fragment and no diagnostic; otherwise one
    diagnostic is logged, about the numerator when it is not a number
    (whatever the denominator is), else about the denominator. *)
Theorem applyBinary_division
        (d : nat) (left right : ExpressionDef)
        (w w1 w2 : World O) (num denom : ExprValue) :
  getExpression left fs w = (Ok num, w1) ->
  getExpression right fs w1 = (Ok denom, w2) ->
  is_type num TError = false -> is_type denom TError = false ->
  is_type num TUnsupported = false -> is_type denom TUnsupported = false ->
  applyBinary fs (S d) left "/" right w
  = if negb (is_type num TNumber) then
      (Ok (errorFor "divide type mismatch"),
       mkWorld (log w2 ++ [mkDiag (expr_id left) "Numerator for division must be a number"])
               (objs w2))
    else if negb (is_type denom TNumber) then
      (Ok (errorFor "divide type mismatch"),
       mkWorld (log w2 ++ [mkDiag (expr_id right)
                             "Denominator for division must be a number"])
               (objs w2))
    else
      (Ok (plainValue TNumber
             (maxExpressionType (expressionType num) (expressionType denom))
             (mergeEvalSpaces [evalSpace num; evalSpace denom])
             [FDiv (value num) (value denom)]), w2).
Proof.
  intros Hl Hr Hel Her Hul Hur.
  simpl applyBinary. unfold applyBinary_body.
  change (isEquality "/") with false. change (isComparison "/") with false.
  change (oneOf "/" ["+"; "-"]%string) with false.
  change (oneOf "/" ["*"; "%"]%string) with false.
  change (oneOf "/" ["/"]%string) with true. cbv iota.
  rewrite (bind_ok _ _ _ _ _ Hl), (bind_ok _ _ _ _ _ Hr).
  rewrite (bind_ok _ _ _ _ _ (unsupportError_none left num right denom w2 Hul Hur)).
  rewrite (errorCascade_none _ _ _ Hel Her).
  destruct (is_type num TNumber); [destruct (is_type denom TNumber)|]; reflexivity.
Qed.

(** The multiplicative operators on operands that are neither in error
    nor unsupported: two numbers give a number and no diagnostic; anything
    else logs "Non numeric(...)" on the left operand. *)
Theorem applyBinary_product
        (d : nat) (left right : ExpressionDef) (op : string)
        (w w1 w2 : World O) (lhs rhs : ExprValue) :
  op = "*"%string \/ op = "%"%string ->
  getExpression left fs w = (Ok lhs, w1) ->
  getExpression right fs w1 = (Ok rhs, w2) ->
  is_type lhs TError = false -> is_type rhs TError = false ->
  is_type lhs TUnsupported = false -> is_type rhs TUnsupported = false ->
  applyBinary fs (S d) left op right w
  = if (is_type lhs TNumber && is_type rhs TNumber)%bool then
      (Ok (plainValue TNumber
             (maxExpressionType (expressionType lhs) (expressionType rhs))
             (mergeEvalSpaces [evalSpace lhs; evalSpace rhs])
             (compose (value lhs) op (value rhs))), w2)
    else
      (Ok (errorFor "numbers required"),
       mkWorld (log w2 ++ [mkDiag (expr_id left)
                             ("Non numeric('" +++ typeName (dataType lhs) +++ ","
                              +++ typeName (dataType rhs) +++ "') value with '"
                              +++ op +++ "'")])
               (objs w2)).
Proof.
  intros Hop Hl Hr Hel Her Hul Hur.
  assert (Hnum : numeric fs left op right w
                 = if (is_type lhs TNumber && is_type rhs TNumber)%bool then
                     (Ok (plainValue TNumber
                            (maxExpressionType (expressionType lhs) (expressionType rhs))
                            (mergeEvalSpaces [evalSpace lhs; evalSpace rhs])
                            (compose (value lhs) op (value rhs))), w2)
                   else
                     (Ok (errorFor "numbers required"),
                      mkWorld (log w2 ++ [mkDiag (expr_id left)
                                 ("Non numeric('" +++ typeName (dataType lhs) +++ ","
                                  +++ typeName (dataType rhs) +++ "') value with '"
                                  +++ op +++ "'")])
                              (objs w2))).
  { unfold numeric. rewrite (bind_ok _ _ _ _ _ Hl), (bind_ok _ _ _ _ _ Hr).
    rewrite (errorCascade_none _ _ _ Hel Her).
    rewrite (bind_ok _ _ _ _ _ (unsupportError_none left lhs right rhs w2 Hul Hur)).
    change (allAre TNumber [lhs; rhs])
      with (is_type lhs TNumber && (is_type rhs TNumber && true))%bool.
    rewrite andb_true_r.
    destruct (is_type lhs TNumber && is_type rhs TNumber)%bool; reflexivity. }
  simpl applyBinary. unfold applyBinary_body.
  destruct Hop; subst op.
  - change (isEquality "*") with false. change (isComparison "*") with false.
    change (oneOf "*" ["+"; "-"]%string) with false.
    change (oneOf "*" ["*"; "%"]%string) with true. cbv iota. exact Hnum.
  - change (isEquality "%") with false. change (isComparison "%") with false.
    change (oneOf "%" ["+"; "-"]%string) with false.
    change (oneOf "%" ["*"; "%"]%string) with true. cbv iota. exact Hnum.
Qed.
End OperatorArithmetic.

(** [dep_time < 1] *)
Lemma applyBinary_time_with_other_witness :
  applyBinary (X:=sampleDeps) emptyFieldSpace 1 timestampNode "<" oneNode world0
  = (Ok (plainValue TBoolean scalar input [FString "false"]),
     mkWorld [mkDiag (Src 82) "Cannot compare a timestamp to a number"] tt).
Proof.
  exact (applyBinary_time_with_other (X:=sampleDeps) emptyFieldSpace 0
           timestampNode oneNode "<" world0 world0 world0 _ _
           eq_refl eq_refl eq_refl eq_refl eq_refl eq_refl eq_refl eq_refl).
Defined.

(** ['carrier' / 1] *)
Lemma applyBinary_division_witness :
  applyBinary (X:=sampleDeps) emptyFieldSpace 1 stringNode "/" oneNode world0
  = (Ok (plainValue TError scalar constant [FString "_ERROR_divide type mismatch"]),
     mkWorld [mkDiag (Src 80) "Numerator for division must be a number"] tt).
Proof.
  exact (applyBinary_division (X:=sampleDeps) emptyFieldSpace 0
           stringNode oneNode world0 world0 world0 _ _
           eq_refl eq_refl eq_refl eq_refl eq_refl eq_refl).
Defined.

(** [sum(n) * 1] *)
Lemma applyBinary_product_witness :
  applyBinary (X:=sampleDeps) emptyFieldSpace 1 numberNode "*" oneNode world0
  = (Ok (plainValue TNumber aggregate input [FString "sum(n)"; FString "*"; FString "1"]),
     world0).
Proof.
  exact (applyBinary_product (X:=sampleDeps) emptyFieldSpace 0
           numberNode oneNode "*" world0 world0 world0 _ _
           (or_introl eq_refl) eq_refl eq_refl eq_refl eq_refl eq_refl eq_refl).
Defined.

(** ** Name maps: reading back what was written *)

Section ObjReadWrite.
Context {A : Type}.
Implicit Types (m : Obj A) (k : string) (v : A).

Lemma obj_get_replace_same k v m :
  obj_get k m <> None -> obj_get k (obj_replace k v m) = Some v.
Proof.
  induction m as [|[k' v'] rest IH]; simpl; [congruence|].
  destruct (String.eqb k' k) eqn:E; simpl; rewrite E; auto.
Qed.

Lemma obj_get_replace_other k k' v m :
  k' <> k -> obj_get k' (obj_replace k v m) = obj_get k' m.
Proof.
  intros Hne. induction m as [|[k0 v0] rest IH]; simpl; [reflexivity|].
  destruct (String.eqb_spec k0 k) as [->|Hk]; simpl.
  - apply not_eq_sym in Hne. apply String.eqb_neq in Hne. now rewrite Hne.
  - destruct (String.eqb k0 k'); [reflexivity | exact IH].
Qed.

Lemma obj_get_insert_same n k v m :
  obj_get k m = None -> obj_get k (obj_insert_index n k v m) = Some v.
Proof.
  induction m as [|[k' v'] rest IH]; simpl; intros H.
  - now rewrite String.eqb_refl.
  - destruct (String.eqb k' k) eqn:E; [discriminate|].
    destruct (array_index k') as [n'|]; [destruct (n <? n')%N|]; simpl;
      rewrite ?String.eqb_refl, ?E; auto.
Qed.

Lemma obj_get_insert_other n k k' v m :
  k' <> k -> obj_get k' (obj_insert_index n k v m) = obj_get k' m.
Proof.
  intros Hne. apply not_eq_sym in Hne. apply String.eqb_neq in Hne.
  induction m as [|[k0 v0] rest IH]; simpl.
  - now rewrite Hne.
  - destruct (array_index k0) as [n'|]; [destruct (n <? n')%N|]; simpl;
      rewrite ?Hne; try reflexivity.
    destruct (String.eqb k0 k'); [reflexivity | exact IH].
Qed.

Lemma obj_get_app k m m' :
  obj_get k (m ++ m') = match obj_get k m with Some v => Some v | None => obj_get k m' end.
Proof.
  induction m as [|[k' v'] rest IH]; simpl; [reflexivity|].
  destruct (String.eqb k' k); [reflexivity | exact IH].
Qed.

Lemma obj_get_set_same k v m : obj_get k (obj_set k v m) = Some v.
Proof.
  unfold obj_set. destruct (obj_get k m) eqn:E.
  - apply obj_get_replace_same. congruence.
  - destruct (array_index k).
    + now apply obj_get_insert_same.
    + rewrite obj_get_app, E. simpl. now rewrite String.eqb_refl.
Qed.

Lemma obj_get_set_other k k' v m : k' <> k -> obj_get k' (obj_set k v m) = obj_get k' m.
Proof.
  intros Hne. unfold obj_set. destruct (obj_get k m).
  - now apply obj_get_replace_other.
  - destruct (array_index k).
    + now apply obj_get_insert_other.
    + rewrite obj_get_app. destruct (obj_get k' m); [reflexivity|]. simpl.
      apply not_eq_sym in Hne. apply String.eqb_neq in Hne. now rewrite Hne.
Qed.

Lemma obj_get_delete_same k m : obj_get k (obj_delete k m) = None.
Proof.
  unfold obj_delete. induction m as [|[k' v'] rest IH]; simpl; [reflexivity|].
  destruct (String.eqb k' k) eqn:E; simpl; [exact IH | now rewrite E].
Qed.

Lemma obj_get_delete_other k k' m : k' <> k -> obj_get k' (obj_delete k m) = obj_get k' m.
Proof.
  intros Hne. unfold obj_delete. induction m as [|[k0 v0] rest IH]; simpl; [reflexivity|].
  destruct (String.eqb_spec k0 k) as [->|Hk]; simpl.
  - apply String.eqb_neq in Hne. rewrite String.eqb_sym in Hne. now rewrite Hne.
  - destruct (String.eqb k0 k'); [reflexivity | exact IH].
Qed.
End ObjReadWrite.

(** ** Runs of the entry methods of a dynamic space *)

Lemma entries_withMap (w : World DynamicSpace) m :
  fst (DynamicSpace.entries w) = Ok m -> DynamicSpace.entries w = (Ok m, withMap w m).
Proof.
  destruct w as [lg [[s mm] f cs c]].
  unfold DynamicSpace.entries, DynamicSpace.onBase, zoom, StaticSpace.entries,
    StaticSpace.map_, bind, get, put, withMap. simpl.
  destruct mm as [m0|]; simpl.
  - now intros [= ->].
  - destruct (StaticSpace.buildMap s) as [m0 [e|]]; simpl; [discriminate|].
    now intros [= ->].
Qed.

Lemma entries_of_withMap (w : World DynamicSpace) m :
  DynamicSpace.entries (withMap w m) = (Ok m, withMap w m).
Proof. reflexivity. Qed.

Lemma entry_run name (w : World DynamicSpace) m :
  fst (DynamicSpace.entries w) = Ok m ->
  DynamicSpace.entry name w = (Ok (obj_get name m), withMap w m).
Proof.
  destruct w as [lg [[s mm] f cs c]].
  unfold DynamicSpace.entries, DynamicSpace.entry, DynamicSpace.onBase, zoom,
    StaticSpace.entries, StaticSpace.entry, StaticSpace.map_, bind, get, put, ret, withMap.
  simpl. destruct mm as [m0|]; simpl.
  - now intros [= ->].
  - destruct (StaticSpace.buildMap s) as [m0 [e|]]; simpl; [discriminate|].
    now intros [= ->].
Qed.

Lemma setEntry_run name v (w : World DynamicSpace) m :
  final (objs w) = None ->
  fst (DynamicSpace.entries w) = Ok m ->
  DynamicSpace.setEntry name v w = (Ok tt, withMap w (obj_set name v m)).
Proof.
  destruct w as [lg [[s mm] f cs c]]. simpl. intros ->.
  unfold DynamicSpace.entries, DynamicSpace.setEntry, DynamicSpace.onBase, zoom,
    StaticSpace.entries, StaticSpace.setEntry, StaticSpace.set_memoMap, StaticSpace.map_,
    bind, get, put, ret, modify, withMap.
  simpl. destruct mm as [m0|]; simpl.
  - now intros [= ->].
  - destruct (StaticSpace.buildMap s) as [m0 [e|]]; simpl; [discriminate|].
    now intros [= ->].
Qed.

Lemma dropEntry_run name (w : World DynamicSpace) m :
  fst (DynamicSpace.entries w) = Ok m ->
  DynamicSpace.dropEntry name w = (Ok tt, withMap w (obj_delete name m)).
Proof.
  destruct w as [lg [[s mm] f cs c]].
  unfold DynamicSpace.entries, DynamicSpace.dropEntry, DynamicSpace.onBase, zoom,
    StaticSpace.entries, StaticSpace.dropEntry, StaticSpace.set_memoMap, StaticSpace.map_,
    bind, get, put, ret, modify, withMap.
  simpl. destruct mm as [m0|]; simpl.
  - now intros [= ->].
  - destruct (StaticSpace.buildMap s) as [m0 [e|]]; simpl; [discriminate|].
    now intros [= ->].
Qed.

Lemma lookup_run path (w : World DynamicSpace) m :
  fst (DynamicSpace.entries w) = Ok m ->
  DynamicSpace.lookup path w
  = (match StaticSpace.lookup_path m path with Ok r => Ok r | Throw e => Throw e end,
     withMap w m).
Proof.
  destruct w as [lg [[s mm] f cs c]].
  unfold DynamicSpace.entries, DynamicSpace.lookup, DynamicSpace.onBase, zoom,
    StaticSpace.entries, StaticSpace.lookup, StaticSpace.map_, bind, get, put, ret, withMap.
  simpl. destruct mm as [m0|]; simpl.
  - intros [= ->]. now destruct (StaticSpace.lookup_path m path).
  - destruct (StaticSpace.buildMap s) as [m0 [e|]]; simpl; [discriminate|].
    intros [= ->]. now destruct (StaticSpace.lookup_path m path).
Qed.

Lemma lookup_name_run n (w : World DynamicSpace) m :
  fst (DynamicSpace.entries w) = Ok m ->
  DynamicSpace.lookup [n] w
  = (Ok (match obj_get (refString n) m with
         | None => mkLookupResult None (Some ("'" +++ refString n +++ "' is not defined"))
         | Some f => mkLookupResult (Some f) None
         end), withMap w m).
Proof.
  intros H. rewrite (lookup_run _ _ _ H). simpl.
  now destruct (obj_get (refString n) m).
Qed.





(** ** Static spaces: how names resolve *)

Lemma find_app {A} (p : A -> bool) l l' :
  find p (l ++ l') = match find p l with Some x => Some x | None => find p l' end.
Proof. induction l as [|a l IH]; simpl; [reflexivity|]. destruct (p a); auto. Qed.

Lemma fieldEntries_fold n fields :
  forall acc,
    obj_get n (fold_left (fun m f => obj_set (fieldDef_name f) (StaticSpace.fromFieldDef f) m)
                         fields acc)
    = match lastNamed n fields with
      | Some f => Some (StaticSpace.fromFieldDef f)
      | None => obj_get n acc
      end.
Proof.
  unfold lastNamed.
  induction fields as [|f rest IH]; intros acc; simpl; [reflexivity|].
  rewrite IH, find_app. destruct (find _ (rev rest)); [reflexivity|]. simpl.
  destruct (String.eqb_spec (fieldDef_name f) n) as [<-|Hne].
  - apply obj_get_set_same.
  - apply obj_get_set_other. congruence.
Qed.

Lemma fieldEntries_get n fields :
  obj_get n (StaticSpace.fieldEntries fields)
  = option_map StaticSpace.fromFieldDef (lastNamed n fields).
Proof.
  unfold StaticSpace.fieldEntries. rewrite fieldEntries_fold.
  now destruct (lastNamed n fields).
Qed.

Lemma StaticSpace_lookup_new s lg path :
  fst (StaticSpace.lookup path (mkWorld lg (StaticSpace.new s)))
  = match StaticSpace.buildMap s with
    | (m, None) => StaticSpace.lookup_path m path
    | (_, Some e) => Throw e
    end.
Proof.
  unfold StaticSpace.lookup, StaticSpace.map_, bind, get, put, ret, throw. simpl.
  destruct (StaticSpace.buildMap s) as [m [e|]]; simpl; [reflexivity|].
  now destruct (StaticSpace.lookup_path m path).
Qed.



Lemma lastNamed_In f fields : In f fields -> lastNamed (fieldDef_name f) fields <> None.
Proof.
  intros Hin Hnone. unfold lastNamed in Hnone.
  apply in_rev in Hin. apply (find_none _ _ Hnone f) in Hin.
  now rewrite String.eqb_refl in Hin.
Qed.

Lemma paramEntries_conflict name ps p :
  In p (map fst ps) ->
  forall m, obj_get p m <> None -> snd (StaticSpace.paramEntries name ps m) <> None.
Proof.
  induction ps as [|[q d] rest IH]; simpl; intros Hin m Hm; [contradiction|].
  destruct (obj_get q m) eqn:Eq; simpl; [discriminate|].
  assert (Hne : p <> q) by (intros ->; contradiction).
  apply IH.
  - destruct Hin as [E|Hin]; [congruence | exact Hin].
  - now rewrite obj_get_set_other.
Qed.

Lemma paramEntries_keeps name ps k :
  forall m, obj_get k m <> None ->
            obj_get k (fst (StaticSpace.paramEntries name ps m)) = obj_get k m.
Proof.
  induction ps as [|[q d] rest IH]; simpl; intros m Hm; [reflexivity|].
  destruct (obj_get q m) eqn:Eq; simpl; [reflexivity|].
  assert (Hne : k <> q) by (intros ->; contradiction).
  rewrite IH; rewrite obj_get_set_other; auto.
Qed.

(** A struct with a parameter named like one of its fields: the first
    access to the name map throws, and the map stays as it was filled up
    to the clash, so the next access returns it without an error; in it
    the name is the field's. *)
Theorem StaticSpace_field_parameter_conflict
        (s : StructDef) (ps : list (string * Param)) (f : FieldDef) (d : Param)
        (lg : list Diagnostic) :
  sd_parameters s = Some ps ->
  In f (sd_fields s) ->
  In (fieldDef_name f, d) ps ->
  exists e m w1,
    StaticSpace.entries (mkWorld lg (StaticSpace.new s)) = (Throw e, w1)
    /\ StaticSpace.entries w1 = (Ok m, w1)
    /\ obj_get (fieldDef_name f) m
       = option_map StaticSpace.fromFieldDef (lastNamed (fieldDef_name f) (sd_fields s))
    /\ log w1 = lg.
Proof.
  intros Hp Hf Hd.
  assert (Hget : obj_get (fieldDef_name f) (StaticSpace.fieldEntries (sd_fields s)) <> None).
  { rewrite fieldEntries_get. pose proof (lastNamed_In f _ Hf) as H.
    destruct (lastNamed (fieldDef_name f) (sd_fields s)); [discriminate | congruence]. }
  assert (Hin : In (fieldDef_name f) (map fst ps))
    by (apply in_map_iff; exists (fieldDef_name f, d); auto).
  pose proof (paramEntries_conflict (or_string (sd_as s) (sd_name s)) ps _ Hin _ Hget) as Herr.
  pose proof (paramEntries_keeps (or_string (sd_as s) (sd_name s)) ps _ _ Hget) as Hkeep.
  unfold StaticSpace.entries, StaticSpace.map_, bind, get, put, throw, ret. simpl.
  unfold StaticSpace.buildMap. rewrite Hp.
  destruct (StaticSpace.paramEntries _ ps _) as [m [e|]]; [|simpl in Herr; congruence].
  simpl in *. exists e, m. eexists. split; [reflexivity|]. simpl.
  split; [reflexivity|]. split; [|reflexivity].
  now rewrite Hkeep, fieldEntries_get.
Qed.

(** [flights] with a parameter [carrier]. *)
Lemma StaticSpace_field_parameter_conflict_witness :
  exists e m w1,
    StaticSpace.entries (mkWorld [] (StaticSpace.new flightsClash)) = (Throw e, w1)
    /\ StaticSpace.entries w1 = (Ok m, w1)
    /\ obj_get "carrier" m
       = option_map StaticSpace.fromFieldDef (lastNamed "carrier" (sd_fields flightsClash))
    /\ log w1 = [].
Proof.
  exact (StaticSpace_field_parameter_conflict flightsClash
           [("carrier"%string, carrierParam)] (AtomicDef (column "carrier" TString))
           carrierParam [] eq_refl (or_introl eq_refl) (or_introl eq_refl)).
Defined.

(** ** Adding fields to a dynamic space *)

Section AddFieldFacts.
Context {D : AnalysisDeps}.



End AddFieldFacts.




(** ** Finalizing a space that was not edited *)

Lemma fieldEntries_distinct_fold fields :
  forall acc,
    (forall f, In f fields -> obj_get (fieldDef_name f) acc = None) ->
    NoDup (map fieldDef_name fields) ->
    Forall (fun f => array_index (fieldDef_name f) = None) fields ->
    fold_left (fun m f => obj_set (fieldDef_name f) (StaticSpace.fromFieldDef f) m) fields acc
    = acc ++ map entryOf fields.
Proof.
  induction fields as [|f rest IH]; intros acc Hacc Hnd Hidx; simpl.
  - now rewrite app_nil_r.
  - inversion Hnd as [|? ? Hnotin Hnd']; subst. inversion Hidx as [|? ? Hf Hidx']; subst.
    assert (Hset : obj_set (fieldDef_name f) (StaticSpace.fromFieldDef f) acc
                   = acc ++ [entryOf f]).
    { unfold obj_set. rewrite (Hacc f (or_introl eq_refl)), Hf. reflexivity. }
    rewrite Hset, IH; [now rewrite <- app_assoc | | exact Hnd' | exact Hidx'].
    intros g Hg. rewrite obj_get_app, (Hacc g (or_intror Hg)). simpl.
    destruct (String.eqb_spec (fieldDef_name f) (fieldDef_name g)) as [E|_]; [|reflexivity].
    exfalso. apply Hnotin. rewrite E. now apply in_map.
Qed.

Lemma fieldEntries_distinct fields :
  NoDup (map fieldDef_name fields) ->
  Forall (fun f => array_index (fieldDef_name f) = None) fields ->
  StaticSpace.fieldEntries fields = map entryOf fields.
Proof.
  intros Hnd Hidx. unfold StaticSpace.fieldEntries.
  now rewrite fieldEntries_distinct_fold.
Qed.

Lemma entries_by_kind fields :
  plainEntries (map entryOf fields) = map entryOf (fieldsOfKind 0 fields)
  /\ joinEntries (map entryOf fields) = map entryOf (fieldsOfKind 1 fields)
  /\ turtleEntries (map entryOf fields) = map entryOf (fieldsOfKind 2 fields).
Proof.
  unfold plainEntries, joinEntries, turtleEntries, fieldsOfKind.
  induction fields as [|f rest (IH0 & IH1 & IH2)]; [now repeat split|].
  simpl. rewrite IH0, IH1, IH2. now destruct f.
Qed.

Lemma sd_with_fields_twice f l l' :
  sd_with_fields (sd_with_fields f l) l' = sd_with_fields f l'.
Proof. now destruct f. Qed.

Lemma sd_with_fields_same f : sd_with_fields f (sd_fields f) = f.
Proof. now destruct f. Qed.

Section Unedited.
Context {D : AnalysisDeps}.

Lemma sortEntries_fields es :
  Forall (fun ne => isSpaceField (snd ne) = true) es ->
  forall acc (w : World DynamicSpace),
    DynamicSpace.sortEntries acc es w
    = (Ok (DynamicSpace.mkSorted
             (DynamicSpace.s_fields acc ++ plainEntries es)
             (DynamicSpace.s_joins acc ++ joinEntries es)
             (DynamicSpace.s_turtles acc ++ turtleEntries es)
             (DynamicSpace.s_parameters acc)), w).
Proof.
  induction 1 as [|[name e] rest He _ IH]; intros acc w.
  - unfold plainEntries, joinEntries, turtleEntries. simpl. rewrite !app_nil_r.
    now destruct acc.
  - simpl in He. cbn [DynamicSpace.sortEntries].
    unfold plainEntries, joinEntries, turtleEntries, isPlainField in *.
    cbn [filter snd]. unfold DynamicSpace.sortEntry.
    destruct (isStructSpaceField e) eqn:Es; [|destruct (isQueryField e) eqn:Eq];
      rewrite ?He; rewrite bind_ret_l, IH; simpl; now rewrite <- ?app_assoc.
Qed.

Lemma emitFields_static fs :
  forall fj lg b f0 cs c,
    DynamicSpace.emitFields fj (map entryOf fs)
      (mkWorld lg (mkDynamicSpace b (Some f0) cs c))
    = (Ok fj, mkWorld lg (mkDynamicSpace b (Some (sd_with_fields f0 (sd_fields f0 ++ fs)))
                                         cs c)).
Proof.
  induction fs as [|f rest IH]; intros fj lg b f0 cs c.
  - simpl. now rewrite app_nil_r, sd_with_fields_same.
  - cbn [map DynamicSpace.emitFields].
    assert (Hone : DynamicSpace.emitField fj (entryOf f)
                     (mkWorld lg (mkDynamicSpace b (Some f0) cs c))
                   = (Ok fj, mkWorld lg (mkDynamicSpace b
                                           (Some (sd_with_fields f0 (sd_fields f0 ++ [f])))
                                           cs c)))
      by now destruct f.
    rewrite (bind_ok _ _ _ _ _ Hone), IH.
    now rewrite sd_with_fields_twice, sd_fields_with_fields, <- app_assoc.
Qed.

(** A space over a struct [s] that was not edited finalizes into [s]
    with its fields regrouped: the atomic fields, then the structs, then
    the turtles, each group in the order of [s]; nothing is logged.  This
    is for a struct without parameters whose field names are distinct and
    none of them an array index. *)
Theorem DynamicSpace_structDef_unedited (s : StructDef) (lg : list Diagnostic) :
  sd_parameters s = None ->
  NoDup (map fieldDef_name (sd_fields s)) ->
  Forall (fun f => array_index (fieldDef_name f) = None) (sd_fields s) ->
  exists w',
    DynamicSpace.structDef (mkWorld lg (DynamicSpace.new s))
    = (Ok (sd_with_fields s (fieldsOfKind 0 (sd_fields s) ++ fieldsOfKind 1 (sd_fields s)
                             ++ fieldsOfKind 2 (sd_fields s))), w')
    /\ log w' = lg.
Proof.
  intros Hp Hnd Hidx.
  assert (Hmap : StaticSpace.buildMap s = (map entryOf (sd_fields s), None)).
  { unfold StaticSpace.buildMap. now rewrite Hp, fieldEntries_distinct. }
  assert (Hfields : Forall (fun ne => isSpaceField (snd ne) = true)
                           (map entryOf (sd_fields s))).
  { apply Forall_forall. intros ne Hin. apply in_map_iff in Hin.
    destruct Hin as (f & <- & _). now destruct f. }
  destruct (entries_by_kind (sd_fields s)) as (E0 & E1 & E2).
  eexists. split.
  - unfold DynamicSpace.structDef. rewrite bind_ok with (a := DynamicSpace.new s)
      (w' := mkWorld lg (DynamicSpace.new s)) by reflexivity.
    cbn [final DynamicSpace.new].
    rewrite !bind_assoc.
    rewrite bind_ok with (a := tt)
      (w' := mkWorld lg (mkDynamicSpace (StaticSpace.new s) (Some (sd_with_fields s []))
                                        [] false)) by reflexivity.
    rewrite !bind_assoc.
    rewrite bind_ok with (a := map entryOf (sd_fields s))
      (w' := mkWorld lg (mkDynamicSpace (mkStaticSpace s (Some (map entryOf (sd_fields s))))
                                        (Some (sd_with_fields s [])) [] false)).
    2:{ unfold DynamicSpace.entries, DynamicSpace.onBase, zoom, StaticSpace.entries,
          StaticSpace.map_, bind, get, put. simpl. now rewrite Hmap. }
    rewrite !bind_assoc, (bind_ok _ _ _ _ _ (sortEntries_fields _ Hfields _ _)).
    cbn [DynamicSpace.s_fields DynamicSpace.s_joins DynamicSpace.s_turtles
         DynamicSpace.s_parameters app].
    rewrite E0, E1, E2, <- !map_app.
    rewrite !bind_assoc.
    rewrite bind_ok with (a := tt)
      (w' := mkWorld lg (mkDynamicSpace (mkStaticSpace s (Some (map entryOf (sd_fields s))))
                                        (Some (sd_with_fields s [])) [] false)).
    2:{ unfold DynamicSpace.writeSharedParameters, modify. simpl. now rewrite Hp. }
    rewrite !bind_assoc, (bind_ok _ _ _ _ _ (emitFields_static _ _ _ _ _ _ _)).
    rewrite sd_with_fields_twice, sd_fields_with_fields. cbn [app].
    cbn [base DynamicSpace.new StaticSpace.new fromStruct]. rewrite Hp.
    reflexivity.
  - reflexivity.
Qed.
End Unedited.

(** The space over [flights] finalizes into [flights]. *)
Lemma DynamicSpace_structDef_unedited_witness :
  exists w',
    DynamicSpace.structDef (D:=sampleAnalysisDeps) (mkWorld [] (DynamicSpace.new flights))
    = (Ok (sd_with_fields flights
             (fieldsOfKind 0 (sd_fields flights) ++ fieldsOfKind 1 (sd_fields flights)
              ++ fieldsOfKind 2 (sd_fields flights))), w')
    /\ log w' = [].
Proof.
  refine (DynamicSpace_structDef_unedited (D:=sampleAnalysisDeps) flights [] eq_refl _ _).
  - repeat constructor; simpl; intuition discriminate.
  - repeat constructor.
Defined.

(** ** Completion steps *)

Lemma for_each_run_outcome_ok {O} (steps : list (Outcome unit)) :
  Forall (fun s => out_result s = Ok tt) steps ->
  forall (w : World O),
    for_each steps run_outcome w
    = (Ok tt, mkWorld (log w ++ flat_map out_log steps) (objs w)).
Proof.
  induction 1 as [|s rest Hs _ IH]; intros w; simpl.
  - rewrite app_nil_r. now destruct w.
  - unfold bind, run_outcome at 1. rewrite Hs, IH. simpl. now rewrite app_assoc.
Qed.

Lemma isComplete_run (w : World DynamicSpace) :
  Forall (fun s => out_result s = Ok tt) (completions (objs w)) ->
  DynamicSpace.isComplete w
  = (Ok tt, mkWorld (log w ++ flat_map out_log (completions (objs w)))
                    (mkDynamicSpace (base (objs w)) (final (objs w)) [] true)).
Proof.
  intros H. unfold DynamicSpace.isComplete, bind, modify, get. simpl.
  rewrite (for_each_run_outcome_ok _ H). reflexivity.
Qed.

(** A step registered with [whenComplete] on a space that is not
    complete is not run then; [isComplete] runs the registered steps in
    the order they were registered, and a later [isComplete] runs none of
    them again (every step returning normally). *)
Theorem DynamicSpace_completion_steps_run_once
        (step : Outcome unit) (w : World DynamicSpace) :
  complete (objs w) = false ->
  Forall (fun s => out_result s = Ok tt) (completions (objs w) ++ [step]) ->
  exists w1 w2,
    DynamicSpace.whenComplete step w = (Ok tt, w1)
    /\ log w1 = log w
    /\ DynamicSpace.isComplete w1 = (Ok tt, w2)
    /\ log w2 = log w ++ flat_map out_log (completions (objs w)) ++ out_log step
    /\ objs w2 = mkDynamicSpace (base (objs w)) (final (objs w)) [] true
    /\ DynamicSpace.isComplete w2 = (Ok tt, w2).
Proof.
  intros Hc Hok.
  exists (mkWorld (log w)
            (mkDynamicSpace (base (objs w)) (final (objs w))
                            (completions (objs w) ++ [step]) (complete (objs w)))).
  eexists. split; [|split; [reflexivity|]].
  - unfold DynamicSpace.whenComplete, bind, get, put. now rewrite Hc.
  - split; [apply isComplete_run; exact Hok|]. simpl.
    split; [now rewrite flat_map_app; simpl; rewrite app_nil_r|].
    split; [reflexivity|].
    rewrite isComplete_run by constructor. simpl. now rewrite app_nil_r.
Qed.

(** On a complete space [whenComplete] runs the step at once. *)
Lemma DynamicSpace_whenComplete_after (step : Outcome unit) (w : World DynamicSpace) :
  complete (objs w) = true ->
  DynamicSpace.whenComplete step w
  = (out_result step, mkWorld (log w ++ out_log step) (objs w)).
Proof.
  intros Hc. unfold DynamicSpace.whenComplete, bind, get. now rewrite Hc.
Qed.

(** A step registered on the space over [flights]. *)
Lemma DynamicSpace_completion_steps_run_once_witness :
  exists w1 w2,
    DynamicSpace.whenComplete missingFromOutput flightsWorld0 = (Ok tt, w1)
    /\ log w1 = log flightsWorld0
    /\ DynamicSpace.isComplete w1 = (Ok tt, w2)
    /\ log w2 = log flightsWorld0
                ++ flat_map out_log (completions (objs flightsWorld0))
                ++ out_log missingFromOutput
    /\ objs w2 = mkDynamicSpace (base (objs flightsWorld0)) (final (objs flightsWorld0))
                                [] true
    /\ DynamicSpace.isComplete w2 = (Ok tt, w2).
Proof.
  refine (DynamicSpace_completion_steps_run_once missingFromOutput flightsWorld0 eq_refl _).
  repeat constructor.
Defined.

(** ** The type of a query operation *)

Section ComputeType.
Context {O : Type}.

Lemma computeType_step_guessed g b el (w : World O) :
  exists b' w',
    QOPDesc.computeType_step (Some g, b) el w = (Ok (Some g, b'), w').
Proof.
  destruct el; simpl; unfold bind, ret, log_at;
    try (destruct g; simpl; eauto); eauto.
Qed.

Lemma computeType_loop_guessed els :
  forall g b (w : World O),
    exists b' w', QOPDesc.computeType_loop (Some g, b) els w = (Ok (Some g, b'), w').
Proof.
  induction els as [|el rest IH]; intros g b w; simpl; [unfold ret; eauto|].
  destruct (computeType_step_guessed g b el w) as (b1 & w1 & E1).
  rewrite (bind_ok _ _ _ _ _ E1). apply IH.
Qed.

(** When a segment is refined, the type of the operation is the type of
    that segment (grouping for a reduce segment), whatever the properties
    are. *)
Theorem computeType_refined (this : QOPDesc) (seg : PipeSegment) (w : World O) :
  refineThis this = Some seg ->
  fst (QOPDesc.computeType this w) = Ok (QOPDesc.typeOfSegment seg).
Proof.
  intros Hr. unfold QOPDesc.computeType. rewrite Hr. simpl option_map.
  destruct (computeType_loop_guessed (qop_list this) (QOPDesc.typeOfSegment seg) false w)
    as (b & w1 & E).
  rewrite (bind_ok _ _ _ _ _ E). cbn [fst snd].
  destruct seg as [[|] ? ? ? ? ? ?|? ? ? ? ?]; reflexivity.
Qed.

Lemma computeType_loop_decides els :
  forall fg b (w : World O),
    exists w',
      QOPDesc.computeType_loop (fg, b) els w
      = (Ok (match fg with Some g => Some g | None => decidingType els end,
             (b || existsb isGroupingProperty els)%bool), w').
Proof.
  induction els as [|el rest IH]; intros fg b w.
  - simpl. rewrite orb_false_r. exists w. now destruct fg.
  - cbn [QOPDesc.computeType_loop decidingType existsb].
    assert (Hstep : exists w1,
               QOPDesc.computeType_step (fg, b) el w
               = (Ok (match fg with
                      | Some g => Some g
                      | None => typeOfProperty el
                      end, (b || isGroupingProperty el)%bool), w1)).
    { unfold isGroupingProperty.
      destruct el; simpl; unfold bind, ret, log_at; rewrite ?orb_false_r, ?orb_true_r;
        destruct fg as [[| | |]|]; simpl; eauto. }
    destruct Hstep as (w1 & E1). rewrite (bind_ok _ _ _ _ _ E1).
    destruct (IH (match fg with Some g => Some g | None => typeOfProperty el end)
                 (b || isGroupingProperty el)%bool w1) as (w2 & E2).
    exists w2. rewrite E2. rewrite <- orb_assoc.
    destruct fg; [reflexivity|]. now destruct (typeOfProperty el).
Qed.

Lemma computeType_loop_silent els :
  decidingType els = None ->
  forall st (w : World O), QOPDesc.computeType_loop st els w = (Ok st, w).
Proof.
  induction els as [|el rest IH]; intros Hd st w; [reflexivity|].
  simpl in Hd. destruct (typeOfProperty el) eqn:Et; [discriminate|].
  cbn [QOPDesc.computeType_loop].
  assert (Hstep : QOPDesc.computeType_step st el w = (Ok st, w))
    by (destruct st; destruct el; simpl in *; try discriminate; reflexivity).
  rewrite (bind_ok _ _ _ _ _ Hstep). now apply IH.
Qed.

(** Without a refined segment, the type is the one of the first property
    that speaks for a type (index, group_by or nest, aggregate, project);
    an aggregate first is a grouping when a group_by or nest is among the
    properties; and when no property speaks for a type the answer is
    grouping, with the one diagnostic "Can't determine query type ...". *)
Theorem computeType_first_decides (this : QOPDesc) (w : World O) :
  refineThis this = None ->
  fst (QOPDesc.computeType this w)
  = Ok (match decidingType (qop_list this) with
        | None => QGrouping
        | Some QAggregate =>
            if existsb isGroupingProperty (qop_list this) then QGrouping else QAggregate
        | Some t => t
        end)
  /\ (decidingType (qop_list this) = None ->
      snd (QOPDesc.computeType this w)
      = mkWorld (log w ++ [mkDiag (qop_id this)
                             "Can't determine query type (group_by/aggregate/nest,project,index)"])
                (objs w)).
Proof.
  intros Hr. split.
  - unfold QOPDesc.computeType. rewrite Hr. simpl option_map.
    destruct (computeType_loop_decides (qop_list this) None false w) as (w1 & E).
    rewrite (bind_ok _ _ _ _ _ E). cbn [fst snd orb].
    destruct (decidingType (qop_list this)) as [[| | |]|]; try reflexivity.
    now destruct (existsb isGroupingProperty (qop_list this)).
  - intros Hd. unfold QOPDesc.computeType. rewrite Hr. simpl option_map.
    rewrite (bind_ok _ _ _ _ _ (computeType_loop_silent _ Hd _ w)). reflexivity.
Qed.
End ComputeType.

(** Refining [existingReduce] is a grouping. *)
Lemma computeType_refined_witness :
  fst (QOPDesc.computeType qopRefine world0) = Ok (QOPDesc.typeOfSegment existingReduce).
Proof. exact (computeType_refined qopRefine existingReduce world0 eq_refl). Defined.

(** [limit] then [aggregate] then [group_by] is a grouping. *)
Lemma computeType_first_decides_witness :
  fst (QOPDesc.computeType qopAggregate world0)
  = Ok (match decidingType (qop_list qopAggregate) with
        | None => QGrouping
        | Some QAggregate =>
            if existsb isGroupingProperty (qop_list qopAggregate) then QGrouping
            else QAggregate
        | Some t => t
        end)
  /\ (decidingType (qop_list qopAggregate) = None ->
      snd (QOPDesc.computeType qopAggregate world0)
      = mkWorld (log world0
                 ++ [mkDiag (qop_id qopAggregate)
                       "Can't determine query type (group_by/aggregate/nest,project,index)"])
                (objs world0)).
Proof. exact (computeType_first_decides qopAggregate world0 eq_refl). Defined.

(** ** The segment of a query operation *)

Lemma kind_set_orderBy s o : kindOfSegment (seg_set_orderBy s o) = kindOfSegment s.
Proof. now destruct s. Qed.
Lemma kind_set_by s b : kindOfSegment (seg_set_by s b) = kindOfSegment s.
Proof. now destruct s. Qed.
Lemma kind_set_limit s l : kindOfSegment (seg_set_limit s l) = kindOfSegment s.
Proof. now destruct s. Qed.
Lemma kind_set_filterList s l : kindOfSegment (seg_set_filterList s l) = kindOfSegment s.
Proof. now destruct s. Qed.
Lemma kind_set_weightMeasure s x : kindOfSegment (seg_set_weightMeasure s x) = kindOfSegment s.
Proof. now destruct s. Qed.
Lemma kind_set_sample s x : kindOfSegment (seg_set_sample s x) = kindOfSegment s.
Proof. now destruct s. Qed.

Section SegmentKind.
Context {D : AnalysisDeps}.

Lemma frames_kind_exprFS path : frames segmentType (fs_lookup ResultSpace.exprFS path).
Proof.
  apply (frames_weaken (fun r => (segmentType r, astEl r)) fst).
  apply frames_segmentType_exprFS.
Qed.

Lemma frames_kind_addReference r : frames segmentType (ResultSpace.addReference r).
Proof.
  unfold ResultSpace.addReference. apply frames_bind; [apply frames_get|]. intros this.
  destruct (segmentType this).
  - frame_auto.
  - frame_auto.
  - apply frames_bind.
    + unfold SpaceEntry.FieldReference_getField. apply frames_kind_exprFS.
    + intros lv. destruct (lv_found lv); [|apply frames_ret].
      unfold ResultSpace.set_fieldList. now apply frames_modify.
Qed.

Lemma frames_kind_addWild x : frames segmentType (ResultSpace.addWild x).
Proof. unfold ResultSpace.addWild. frame_auto. Qed.

Lemma frames_kind_addMembers l : frames segmentType (ResultSpace.addMembers l).
Proof.
  unfold ResultSpace.addMembers. apply frames_for_each. intros [r|x|d].
  - apply frames_kind_addReference.
  - apply frames_kind_addWild.
  - frame_auto.
Qed.

Lemma frames_kind_addQueryItems l : frames segmentType (ResultSpace.addQueryItems l).
Proof.
  unfold ResultSpace.addQueryItems. apply frames_for_each. intros [d|r|t].
  - frame_auto.
  - apply frames_kind_addReference.
  - frame_auto.
Qed.

Lemma frames_kind_onResultFS {A} (m : M ResultSpace A) :
  frames segmentType m ->
  frames (fun o => segmentType (re_resultFS o)) (ReduceExecutor.onResultFS m).
Proof.
  intros H. unfold ReduceExecutor.onResultFS.
  apply (frames_zoom _ segmentType); [intros o p' E; exact E | exact H].
Qed.

Lemma frames_kind_inputFS path :
  frames (fun o => segmentType (re_resultFS o)) (fs_lookup ReduceExecutor.inputFS path).
Proof. simpl. apply frames_kind_onResultFS. apply frames_kind_exprFS. Qed.

Lemma frames_kind_onExprSpace {A} (m : M QuerySpace A) :
  frames nothing m -> frames segmentType (ResultSpace.onExprSpace m).
Proof.
  intros H. unfold ResultSpace.onExprSpace.
  apply (frames_zoom _ nothing); [reflexivity | exact H].
Qed.

Lemma frames_kind_Reduce_execute qp :
  frames (fun o => segmentType (re_resultFS o)) (ReduceExecutor.execute qp).
Proof.
  destruct qp as [o|t|l|f|i|s|id js|id kind ds|id ms|qi|id qs|id qs|id qs];
    simpl; try apply frames_ret;
    try (apply frames_kind_onResultFS; apply frames_kind_addQueryItems).
  - apply frames_bind; [apply frames_get|]. intros this.
    destruct (re_order this); [apply frames_log_at|].
    unfold ReduceExecutor.set_order. now apply frames_modify.
  - apply frames_bind.
    + unfold ReduceExecutor.takeLimit. apply frames_bind; [apply frames_get|]. intros this.
      destruct (truthy_opt_number (re_limit this)); [apply frames_log_at|].
      unfold ReduceExecutor.set_limit. now apply frames_modify.
    + intros _. destruct (top_by t); [|apply frames_ret].
      apply frames_bind; [apply frames_get|]. intros this.
      destruct (re_order this); [apply frames_log_at|].
      unfold ReduceExecutor.set_order. now apply frames_modify.
  - unfold ReduceExecutor.takeLimit. apply frames_bind; [apply frames_get|]. intros this.
    destruct (truthy_opt_number (re_limit this)); [apply frames_log_at|].
    unfold ReduceExecutor.set_limit. now apply frames_modify.
  - apply frames_bind.
    + apply frames_getFilterList. apply frames_kind_inputFS.
    + intros fl. unfold ReduceExecutor.push_filters. now apply frames_modify.
  - apply frames_for_each. intros j. apply frames_kind_onResultFS.
    apply frames_kind_onExprSpace. frame_auto.
  - apply frames_for_each. intros j. apply frames_kind_onResultFS.
    apply frames_kind_onExprSpace. frame_auto.
Qed.

Lemma frames_kind_Project_execute qp :
  frames (fun o => segmentType (re_resultFS o)) (ProjectExecutor.execute qp).
Proof.
  destruct qp as [o|t|l|f|i|s|id js|id kind ds|id ms|qi|id qs|id qs|id qs];
    unfold ProjectExecutor.execute;
    try apply frames_kind_Reduce_execute; try apply frames_log_at.
  - destruct (String.eqb (f_elementType f) "having");
      [apply frames_log_at | apply frames_kind_Reduce_execute].
  - destruct kind; try apply frames_log_at; apply frames_kind_Reduce_execute.
  - apply frames_kind_onResultFS. apply frames_kind_addMembers.
Qed.

Lemma getQuerySegment_kind rf (w w' : World ResultSpace) p :
  ResultSpace.getQuerySegment rf w = (Ok p, w') ->
  kindOfSegment p = segmentType (objs w).
Proof.
  unfold ResultSpace.getQuerySegment. intros H. bind_split H as q wq E.
  destruct q; [|discriminate]. inversion H; subst. clear H.
  unfold ResultSpace.getPipeSegment in E. bind_split E as this w0 E0.
  unfold get in E0. inversion E0; subst this w0. clear E0.
  destruct (segmentType (objs w)); repeat bind_inv E; try discriminate;
    inversion E; reflexivity.
Qed.

Lemma refineFrom_kind from to (w w' : World ReduceExecutor) seg :
  ReduceExecutor.refineFrom from to w = (Ok seg, w') ->
  kindOfSegment seg = kindOfSegment to.
Proof.
  unfold ReduceExecutor.refineFrom. intros H.
  bind_split H as this w0 E0. unfold get in E0. inversion E0; subst this w0. clear E0.
  bind_split H as to3 w1 E1.
  bind_split H as this' w2 E2. inversion H; subst. clear H.
  rewrite kind_set_filterList.
  assert (Hto3 : forall to2, kindOfSegment to2 = kindOfSegment to ->
                 match re_order (objs w) with
                 | Some (OrderTop t) =>
                     topBy <- Top.getBy t ReduceExecutor.inputFS ;;
                     ret (match topBy with Some b => seg_set_by to2 b | None => to2 end)
                 | Some (OrderOrdering o) => ret (seg_set_orderBy to2 (Ordering.getOrderBy o))
                 | None => ret to2
                 end w = (Ok to3, w1) ->
                 kindOfSegment to3 = kindOfSegment to).
  { intros to2 H2 Hm. destruct (re_order (objs w)) as [[t|o]|].
    - bind_split Hm as topBy wt Et. inversion Hm; subst.
      destruct topBy; now rewrite ?kind_set_by.
    - inversion Hm; subst. now rewrite kind_set_orderBy.
    - inversion Hm; now subst. }
  eapply Hto3; [|exact E1].
  repeat match goal with
         | |- context [match ?x with _ => _ end] => destruct x
         end;
    rewrite ?kind_set_limit, ?kind_set_orderBy, ?kind_set_by;
    reflexivity.
Qed.
End SegmentKind.

Section OperationSegment.
Context {D : AnalysisDeps}.

Lemma ReduceExecutor_new_kind kind (w w1 : World DynamicSpace) qex :
  ReduceExecutor.new kind w = (Ok qex, w1) -> segmentType (re_resultFS qex) = kind.
Proof.
  unfold ReduceExecutor.new, ResultSpace.new. intros H.
  bind_split H as r wr Er. inversion H; subst. clear H.
  bind_split Er as e we Ee. bind_split Er as i wi Ei. now inversion Er.
Qed.

Lemma ReduceExecutor_finalize_kind fromSeg (w w' : World ReduceExecutor) seg :
  segmentType (re_resultFS (objs w)) = KReduce ->
  ReduceExecutor.finalize fromSeg w = (Ok seg, w') ->
  kindOfSegment seg = KReduce.
Proof.
  intros Hk H. unfold ReduceExecutor.finalize in H.
  assert (Hgo : forall from,
             (reduceSegment <- ReduceExecutor.onResultFS (ResultSpace.getQuerySegment from) ;;
              ReduceExecutor.refineFrom from reduceSegment) w = (Ok seg, w') ->
             kindOfSegment seg = KReduce).
  { intros from Hg. bind_split Hg as rs w1 E1. rewrite (refineFrom_kind _ _ _ _ _ Hg).
    unfold ReduceExecutor.onResultFS, zoom in E1.
    destruct (ResultSpace.getQuerySegment from _) as [r wr] eqn:Eq.
    inversion E1; subst. rewrite (getQuerySegment_kind _ _ _ _ Eq). exact Hk. }
  destruct fromSeg as [s|]; [destruct (isReduceSegment s)|]; eauto.
  bind_split H as u w1 E1. now inversion H.
Qed.

Lemma ProjectExecutor_finalize_kind fromSeg (w w' : World ReduceExecutor) seg :
  segmentType (re_resultFS (objs w)) = KProject ->
  ProjectExecutor.finalize fromSeg w = (Ok seg, w') ->
  kindOfSegment seg = KProject.
Proof.
  intros Hk H. unfold ProjectExecutor.finalize in H.
  assert (Hgo : forall from,
             (projectSegment <- ReduceExecutor.onResultFS (ResultSpace.getQuerySegment from) ;;
              ReduceExecutor.refineFrom from projectSegment) w = (Ok seg, w') ->
             kindOfSegment seg = KProject).
  { intros from Hg. bind_split Hg as rs w1 E1. rewrite (refineFrom_kind _ _ _ _ _ Hg).
    unfold ReduceExecutor.onResultFS, zoom in E1.
    destruct (ResultSpace.getQuerySegment from _) as [r wr] eqn:Eq.
    inversion E1; subst. rewrite (getQuerySegment_kind _ _ _ _ Eq). exact Hk. }
  destruct fromSeg as [s|]; [destruct (isProjectSegment s)|]; eauto.
  bind_split H as u w1 E1. now inversion H.
Qed.

Lemma index_getPipeSegment_kind rf (w w' : World ResultSpace) seg :
  ResultSpace.index_getPipeSegment rf w = (Ok seg, w') -> kindOfSegment seg = KIndex.
Proof.
  unfold ResultSpace.index_getPipeSegment. intros H.
  bind_split H as u w1 E1. bind_split H as u2 w2 E2. bind_split H as this w3 E3.
  now inversion H.
Qed.

Lemma IndexExecutor_finalize_kind from (w w' : World IndexExecutor) seg :
  IndexExecutor.finalize from w = (Ok seg, w') -> kindOfSegment seg = KIndex.
Proof.
  unfold IndexExecutor.finalize. intros H.
  match type of H with
  | (if ?c then _ else _) _ = _ => destruct c
  end.
  - bind_split H as u w1 E1. now inversion H.
  - bind_split H as s0 w1 E1. bind_split H as this w2 E2. inversion H; subst. clear H.
    assert (K0 : kindOfSegment s0 = KIndex).
    { unfold IndexExecutor.onResultFS, zoom in E1.
      destruct (ResultSpace.index_getPipeSegment from _) as [r wr] eqn:Eq.
      inversion E1; subst. exact (index_getPipeSegment_kind _ _ _ _ Eq). }
    repeat match goal with
           | |- context [match ?x with _ => _ end] => destruct x
           end;
      rewrite ?kind_set_sample, ?kind_set_weightMeasure, ?kind_set_limit,
        ?kind_set_filterList; exact K0.
Qed.

Lemma getOp_segment_kind (this : QOPDesc) (w w' : World DynamicSpace) seg :
  QOPDesc.getOp_segment this w = (Ok seg, w') ->
  exists t w1,
    QOPDesc.computeType this w = (Ok t, w1)
    /\ kindOfSegment seg = segmentOfType t.
Proof.
  unfold QOPDesc.getOp_segment. intros H.
  bind_split H as t w1 Et. exists t, w1. split; [exact Et|].
  assert (Hreduce :
            (qex <- ReduceExecutor.new KReduce ;;
             run_with (mkReduceExecutor (QOPDesc.withAstEl (re_resultFS qex) (qop_id this))
                                        (re_filters qex) (re_order qex) (re_limit qex))
                      (for_each (qop_list this) ReduceExecutor.execute ;;;
                       ReduceExecutor.finalize (refineThis this))) w1 = (Ok seg, w') ->
            kindOfSegment seg = KReduce).
  { intros Hr. bind_split Hr as qex w2 En.
    pose proof (ReduceExecutor_new_kind _ _ _ _ En) as Hk.
    unfold run_with in Hr.
    match type of Hr with
    | match ?m with _ => _ end = _ => destruct m as [r wm] eqn:Em
    end.
    inversion Hr; subst r. clear Hr.
    bind_split Em as u we Ee.
    destruct (frames_run _ _ _ _ _
                (frames_for_each (fun o => segmentType (re_resultFS o)) _ _
                                 frames_kind_Reduce_execute) Ee) as [_ Hs].
    apply (ReduceExecutor_finalize_kind _ _ _ _ (eq_trans Hs Hk) Em). }
  destruct t; simpl segmentOfType; try (exact (Hreduce H)).
  - bind_split H as qex w2 En.
    pose proof (ReduceExecutor_new_kind _ _ _ _ En) as Hk.
    unfold run_with in H.
    match type of H with
    | match ?m with _ => _ end = _ => destruct m as [r wm] eqn:Em
    end.
    inversion H; subst r. clear H.
    bind_split Em as u we Ee.
    destruct (frames_run _ _ _ _ _
                (frames_for_each (fun o => segmentType (re_resultFS o)) _ _
                                 frames_kind_Project_execute) Ee) as [_ Hs].
    apply (ProjectExecutor_finalize_kind _ _ _ _ (eq_trans Hs Hk) Em).
  - bind_split H as qex w2 En. unfold run_with in H.
    match type of H with
    | match ?m with _ => _ end = _ => destruct m as [r wm] eqn:Em
    end.
    inversion H; subst r. clear H.
    bind_split Em as u we Ee.
    exact (IndexExecutor_finalize_kind _ _ _ _ Em).
Qed.

(** The segment a query operation builds is of the kind its type calls
    for: a reduce segment for a grouping or an aggregate, a project
    segment for a project, an index segment for an index; this holds for
    the error segments too. *)
Theorem QOPDesc_getOp_segment_kind
        (this : QOPDesc) (w w' : World DynamicSpace) (seg : PipeSegment) :
  QOPDesc.getOp_segment this w = (Ok seg, w') ->
  exists t w1,
    QOPDesc.computeType this w = (Ok t, w1)
    /\ kindOfSegment seg = segmentOfType t.
Proof. exact (getOp_segment_kind this w w' seg). Qed.

Lemma QOPDesc_getOp_keeps_refined_kind_aux
      (this : QOPDesc) (r : PipeSegment) (w w' : World DynamicSpace) (seg : PipeSegment) :
  refineThis this = Some r ->
  QOPDesc.getOp_segment this w = (Ok seg, w') ->
  kindOfSegment seg = kindOfSegment r.
Proof.
  intros Hr H. destruct (getOp_segment_kind _ _ _ _ H) as (t & w1 & Et & Hk).
  rewrite Hk. unfold QOPDesc.computeType in Et. rewrite Hr in Et. simpl option_map in Et.
  destruct (computeType_loop_guessed (qop_list this) (QOPDesc.typeOfSegment r) false w)
    as (b & w2 & E).
  rewrite (bind_ok _ _ _ _ _ E) in Et. cbn [fst snd] in Et.
  destruct r as [[|] ? ? ? ? ? ?|? ? ? ? ?]; simpl in Et; inversion Et; reflexivity.
Qed.

(** A query operation that refines a segment builds a segment of the
    same kind as the refined one, whatever its properties are: the
    executor is picked by the kind of the refined segment. *)
Theorem QOPDesc_getOp_keeps_refined_kind
        (this : QOPDesc) (r : PipeSegment) (w w' : World DynamicSpace) (seg : PipeSegment) :
  refineThis this = Some r ->
  QOPDesc.getOp_segment this w = (Ok seg, w') ->
  kindOfSegment seg = kindOfSegment r.
Proof. exact (QOPDesc_getOp_keeps_refined_kind_aux this r w w' seg). Qed.
End OperationSegment.

(** [qopRefine] over [flights]. *)
Lemma QOPDesc_getOp_segment_kind_witness :
  exists t w1,
    QOPDesc.computeType qopRefine flightsWorld0 = (Ok t, w1)
    /\ kindOfSegment qopRefineSegment = segmentOfType t.
Proof.
  exact (QOPDesc_getOp_segment_kind (D:=sampleAnalysisDeps) qopRefine flightsWorld0
           qopRefineWorld qopRefineSegment ltac:(vm_compute; reflexivity)).
Defined.

Lemma QOPDesc_getOp_keeps_refined_kind_witness :
  kindOfSegment qopRefineSegment = kindOfSegment existingReduce.
Proof.
  exact (QOPDesc_getOp_keeps_refined_kind (D:=sampleAnalysisDeps) qopRefine existingReduce
           flightsWorld0 qopRefineWorld qopRefineSegment eq_refl
           ltac:(vm_compute; reflexivity)).
Defined.

(** ** Pipelines and their head *)

Lemma NoDup_map_eq {A B} (f : A -> B) l x y :
  NoDup (map f l) -> In x l -> In y l -> f x = f y -> x = y.
Proof.
  induction l as [|a l IH]; simpl; intros Hnd Hx Hy E; [contradiction|].
  inversion Hnd as [|? ? Hnotin Hnd']; subst.
  destruct Hx as [<-|Hx], Hy as [<-|Hy]; auto.
  - exfalso. apply Hnotin. rewrite E. now apply in_map.
  - exfalso. apply Hnotin. rewrite <- E. now apply in_map.
Qed.

Lemma find_rev_unique {A} (p : A -> bool) l :
  (forall x y, In x l -> In y l -> p x = true -> p y = true -> x = y) ->
  find p (rev l) = find p l.
Proof.
  intros Huniq. destruct (find p l) as [x|] eqn:E.
  - destruct (find_some _ _ E) as [Hin Hp].
    destruct (find p (rev l)) as [y|] eqn:Er.
    + destruct (find_some _ _ Er) as [Hiny Hpy]. apply in_rev in Hiny.
      f_equal. now apply Huniq.
    + apply in_rev in Hin. pose proof (find_none _ _ Er x Hin). congruence.
  - destruct (find p (rev l)) as [y|] eqn:Er; [|reflexivity].
    destruct (find_some _ _ Er) as [Hiny Hpy]. apply in_rev in Hiny.
    pose proof (find_none _ _ E y Hiny). congruence.
Qed.



Section PipelineFacts.
Context {D : AnalysisDeps}.

Lemma structDef_final (w w1 : World DynamicSpace) sd :
  DynamicSpace.structDef w = (Ok sd, w1) -> final (objs w1) = Some sd.
Proof.
  intros H. unfold DynamicSpace.structDef in H.
  bind_split H as this wa Ea. clear Ea. bind_split H as u wb Eb. clear Eb.
  bind_split H as u' wc Ec. destruct u'. apply isComplete_done in Ec.
  bind_split H as this2 wd Ed. unfold get in Ed. inversion Ed; subst this2 wd. clear Ed.
  rewrite Ec in H. simpl in H.
  destruct (final (objs wb)) as [f|] eqn:Ef; [|discriminate].
  inversion H; subst. rewrite Ec. reflexivity.
Qed.

Lemma run_with_objs {O S A} (s0 : S) (m : M S A) (w w' : World O) r :
  run_with s0 m w = (r, w') -> objs w' = objs w.
Proof.
  unfold run_with. destruct (m _) as [r0 wm]. now intros [= _ <-].
Qed.

Lemma ResultSpace_new_final kind (w w1 : World DynamicSpace) r :
  ResultSpace.new kind w = (Ok r, w1) -> exists sd, final (objs w1) = Some sd.
Proof.
  unfold ResultSpace.new. intros H. bind_split H as e we Ee. bind_split H as i wi Ei.
  inversion H; subst. exists i. exact (structDef_final _ _ _ Ei).
Qed.

(** Building the segment of a query operation on a dynamic space
    finalizes that space: when the segment is returned the space has its
    final struct, so that a later [setEntry] on it throws. *)
Theorem QOPDesc_getOp_finalizes_input
        (this : QOPDesc) (w w' : World DynamicSpace) (seg : PipeSegment) :
  QOPDesc.getOp_segment this w = (Ok seg, w') ->
  (exists sd, final (objs w') = Some sd)
  /\ forall name entry_,
      DynamicSpace.setEntry name entry_ w' = (Throw "Space already final", w').
Proof.
  intros H.
  assert (Hfin : exists sd, final (objs w') = Some sd).
  { unfold QOPDesc.getOp_segment in H. bind_split H as t w1 Et.
    destruct t.
    - bind_split H as qex w2 En. rewrite (run_with_objs _ _ _ _ _ H).
      unfold ReduceExecutor.new in En. bind_split En as r wr Er. inversion En; subst.
      exact (ResultSpace_new_final _ _ _ _ Er).
    - bind_split H as qex w2 En. rewrite (run_with_objs _ _ _ _ _ H).
      unfold ReduceExecutor.new in En. bind_split En as r wr Er. inversion En; subst.
      exact (ResultSpace_new_final _ _ _ _ Er).
    - bind_split H as qex w2 En. rewrite (run_with_objs _ _ _ _ _ H).
      unfold ReduceExecutor.new in En. bind_split En as r wr Er. inversion En; subst.
      exact (ResultSpace_new_final _ _ _ _ Er).
    - bind_split H as qex w2 En. rewrite (run_with_objs _ _ _ _ _ H).
      unfold IndexExecutor.new in En. bind_split En as r wr Er. inversion En; subst.
      exact (ResultSpace_new_final _ _ _ _ Er). }
  split; [exact Hfin|]. destruct Hfin as (sd & Hsd). intros name entry_.
  unfold DynamicSpace.setEntry, bind, get. now rewrite Hsd.
Qed.

(** Refining the head of a pipeline.  The pipeline of the head query, when
    the pipeline has a head, is put in front of the segments; then the
    first segment, when there is one, is replaced by a segment of the same
    kind and the other segments are kept; an empty pipeline becomes the
    one segment of the refinement.  The result has no head. *)
Theorem refinePipeline_keeps_rest
        (this_ : ElementId) (refinement : QOPDesc) (modelPipe : Pipeline)
        (w w' : World DynamicSpace) (p' : Pipeline) :
  PipelineDesc.refinePipeline this_ (Some refinement) modelPipe w = (Ok p', w') ->
  pipeHead p' = None
  /\ exists turtlePipe,
      match pipeHead modelPipe with
      | None => turtlePipe = []
      | Some name =>
          exists sd w1,
            DynamicSpace.structDef w = (Ok sd, w1)
            /\ turtlePipe = match getStructFieldDef sd name with
                            | Some (TurtleField t) => td_pipeline t
                            | _ => []
                            end
      end
      /\ match turtlePipe ++ pipeline modelPipe with
         | first :: rest =>
             exists seg, pipeline p' = seg :: rest
                         /\ kindOfSegment seg = kindOfSegment first
         | [] => exists seg, pipeline p' = [seg]
         end.
Proof.
  unfold PipelineDesc.refinePipeline. intros H.
  bind_split H as turtlePipe w1 Et. bind_split H as seg w2 Es.
  inversion H; subst. clear H. split; [reflexivity|].
  exists turtlePipe. split.
  - destruct (pipeHead modelPipe) as [name|]; [|now inversion Et].
    bind_split Et as sd wsd Esd. bind_split Et as r wr Er. inversion Et; subst.
    exists sd, wsd. split; [exact Esd|].
    unfold expandTurtle in Er.
    destruct (getStructFieldDef sd name) as [[d|s|t]|];
      unfold bind, log_at, ret in Er; inversion Er; reflexivity.
  - destruct (turtlePipe ++ pipeline modelPipe) as [|first rest].
    + now exists seg.
    + exists seg. split; [reflexivity|].
      exact (QOPDesc_getOp_keeps_refined_kind_aux
               (QOPDesc.refineFrom refinement first) first _ _ _ eq_refl Es).
Qed.
End PipelineFacts.

Lemma QOPDesc_getOp_finalizes_input_witness :
  (exists sd, final (objs qopRefineWorld) = Some sd)
  /\ forall name entry_,
      DynamicSpace.setEntry name entry_ qopRefineWorld
      = (Throw "Space already final", qopRefineWorld).
Proof.
  exact (QOPDesc_getOp_finalizes_input (D:=sampleAnalysisDeps) qopRefine flightsWorld0
           qopRefineWorld qopRefineSegment ltac:(vm_compute; reflexivity)).
Defined.

Lemma refinePipeline_keeps_rest_witness :
  pipeHead refinedPipe = None
  /\ exists turtlePipe,
      match pipeHead headPipe with
      | None => turtlePipe = []
      | Some name =>
          exists sd w1,
            DynamicSpace.structDef (D:=sampleAnalysisDeps) flightsWorld0 = (Ok sd, w1)
            /\ turtlePipe = match getStructFieldDef sd name with
                            | Some (TurtleField t) => td_pipeline t
                            | _ => []
                            end
      end
      /\ match turtlePipe ++ pipeline headPipe with
         | first :: rest =>
             exists seg, pipeline refinedPipe = seg :: rest
                         /\ kindOfSegment seg = kindOfSegment first
         | [] => exists seg, pipeline refinedPipe = [seg]
         end.
Proof.
  exact (refinePipeline_keeps_rest (D:=sampleAnalysisDeps) (Src 115) qopLimit headPipe
           flightsWorld0 refinedPipeWorld refinedPipe ltac:(vm_compute; reflexivity)).
Defined.

(** ** Declarations never throw *)

Section DeclarationFacts.
Context {D : AnalysisDeps} {O : Type}.

(** [queryFieldDef] always returns: an exception of the expression is
    caught and logged as "Cannot define '<name>', <message>".  What it
    returns is either a definition named as asked, of the atomic type of
    the expression's value, or the error definition
    [error_defining_<name>] of type string. *)
Theorem FieldDeclaration_queryFieldDef_returns
        (decl : FieldDeclaration) (exprFS : FieldSpace O) (name : string) (w : World O) :
  exists def w',
    FieldDeclaration.queryFieldDef decl exprFS name w = (Ok def, w')
    /\ ((ftd_name def = name /\ isAtomicFieldType (ftd_type def) = true)
        \/ def = FieldDeclaration.errorDef name)
    /\ forall e w1,
        getExpression (fd_expr decl) exprFS w = (Throw e, w1) ->
        def = FieldDeclaration.errorDef name
        /\ w' = mkWorld (log w1 ++ [mkDiag (fd_id decl)
                                      ("Cannot define '" +++ name +++ "', " +++ e)])
                        (objs w1).
Proof.
  unfold FieldDeclaration.queryFieldDef, try_catch.
  unfold bind at 1. unfold bind at 1.
  destruct (getExpression (fd_expr decl) exprFS w) as [[v|e] w1] eqn:Ev.
  - cbn [ret]. destruct (isAtomicFieldType (dataType v)) eqn:Ea.
    + eexists. eexists. split; [reflexivity|]. split; [left; now split|].
      intros e0 w0 [=].
    + unfold bind.
      destruct (fs_foundCircle exprFS) as [fc|]; simpl;
        repeat match goal with
               | |- context [if ?c then _ else _] => destruct c
               end; simpl;
        (eexists; eexists; split; [reflexivity|]; split; [now right|]; intros e0 w0 [=]).
  - unfold bind, log_at, ret. eexists. eexists. split; [reflexivity|].
    split; [now right|]. intros e0 w0 [= <- <-]. now split.
Qed.
End DeclarationFacts.

(** A declaration whose expression throws. *)
Lemma FieldDeclaration_queryFieldDef_returns_witness :
  exists def w',
    FieldDeclaration.queryFieldDef (D:=sampleAnalysisDeps) throwingDecl emptyFieldSpace
                                   "bad" world0 = (Ok def, w')
    /\ ((ftd_name def = "bad"%string
         /\ @isAtomicFieldType sampleAnalysisDeps (ftd_type def) = true)
        \/ def = FieldDeclaration.errorDef "bad")
    /\ forall e w1,
        getExpression (fd_expr throwingDecl) emptyFieldSpace world0 = (Throw e, w1) ->
        def = FieldDeclaration.errorDef "bad"
        /\ w' = mkWorld (log w1 ++ [mkDiag (fd_id throwingDecl)
                                      ("Cannot define '" +++ "bad" +++ "', " +++ e)])
                        (objs w1).
Proof.
  exact (FieldDeclaration_queryFieldDef_returns (D:=sampleAnalysisDeps) throwingDecl
           emptyFieldSpace "bad" world0).
Defined.

(** ** Index segments *)

Section IndexRefine.
Context {D : AnalysisDeps}.

Lemma index_getPipeSegment_fresh rf (w w' : World ResultSpace) seg :
  ResultSpace.index_getPipeSegment rf w = (Ok seg, w') ->
  seg = IndexSegment (fieldList (objs w')) None None None None.
Proof.
  unfold ResultSpace.index_getPipeSegment. intros H.
  bind_split H as u w1 E1. bind_split H as u2 w2 E2. bind_split H as this w3 E3.
  unfold get in E3. inversion E3; subst this w3. now inversion H.
Qed.

(** Finalizing an index executor against an existing index segment, or
    against none: the filters are the existing ones followed by the
    executor's; the limit is the executor's, or else the existing one
    when that is not zero; the sample is the executor's, or else the
    existing one; the weight measure is the name of the executor's [BY],
    and the existing weight measure is not carried over. *)
Theorem IndexExecutor_finalize_refines
        (from : option PipeSegment) (w w' : World IndexExecutor) (seg : PipeSegment) :
  (forall f, from = Some f -> isIndexSegment f = true) ->
  IndexExecutor.finalize from w = (Ok seg, w') ->
  seg_filterList seg
  = Some (match from with
          | Some f => match seg_filterList f with Some l => l | None => [] end
          | None => []
          end ++ ie_filters (objs w))
  /\ seg_limit seg
     = match ie_limit (objs w) with
       | Some l => Some (lim_limit l)
       | None =>
           match from with
           | Some f => match seg_limit f with
                       | Some n => if truthy_number n then Some n else None
                       | None => None
                       end
           | None => None
           end
       end
  /\ seg_sample seg
     = match ie_sample (objs w) with
       | Some sa => Some sa
       | None => match from with Some f => seg_sample f | None => None end
       end
  /\ seg_weightMeasure seg = option_map refString (ie_indexOn (objs w)).
Proof.
  intros Hfrom H. unfold IndexExecutor.finalize in H.
  assert (Hrefuse : match from with
                    | Some f => negb (isIndexSegment f)
                    | None => false
                    end = false).
  { destruct from as [f|]; [|reflexivity]. now rewrite (Hfrom f eq_refl). }
  rewrite Hrefuse in H. clear Hrefuse.
  bind_split H as s0 w1 E1. bind_split H as this w2 E2.
  unfold get in E2. inversion E2; subst this w2. clear E2.
  unfold IndexExecutor.onResultFS, zoom in E1.
  destruct (ResultSpace.index_getPipeSegment from _) as [r wr] eqn:Eq.
  inversion E1; subst r w1. clear E1.
  rewrite (index_getPipeSegment_fresh _ _ _ _ Eq) in H. simpl in H.
  inversion H; subst seg w'. clear H.
  destruct (ie_limit (objs w)) as [l|], (ie_sample (objs w)) as [sa|],
    (ie_indexOn (objs w)) as [n|];
    destruct from as [[? ? ? ? ? ? ?|ff fw fs ffl fl]|];
    try (specialize (Hfrom _ eq_refl); discriminate);
    simpl;
    try (destruct fl as [n0|]; [destruct (truthy_number n0)|]);
    try (destruct fs); simpl; repeat split; reflexivity.
Qed.
End IndexRefine.

(** The empty index executor against [existingIndex]: the weight measure
    [flight_count] is not in the result. *)
Lemma IndexExecutor_finalize_refines_witness :
  seg_filterList refinedIndex
  = Some (match Some existingIndex with
          | Some f => match seg_filterList f with Some l => l | None => [] end
          | None => []
          end ++ ie_filters (objs indexWorld0))
  /\ seg_limit refinedIndex
     = match ie_limit (objs indexWorld0) with
       | Some l => Some (lim_limit l)
       | None =>
           match Some existingIndex with
           | Some f => match seg_limit f with
                       | Some n => if truthy_number n then Some n else None
                       | None => None
                       end
           | None => None
           end
       end
  /\ seg_sample refinedIndex
     = match ie_sample (objs indexWorld0) with
       | Some sa => Some sa
       | None => match Some existingIndex with Some f => seg_sample f | None => None end
       end
  /\ seg_weightMeasure refinedIndex = option_map refString (ie_indexOn (objs indexWorld0)).
Proof.
  refine (IndexExecutor_finalize_refines (Some existingIndex)
            indexWorld0 refinedIndexWorld refinedIndex _ ltac:(vm_compute; reflexivity)).
  intros f [= <-]. reflexivity.
Defined.

(** ** An index segment lists a field once *)

Section Preserves.
Context {O : Type} (P : O -> Prop).

Lemma preserves_ret {A} (a : A) : preserves P (ret a).
Proof. intros w H. exact H. Qed.

Lemma preserves_log_at el msg : preserves P (log_at el msg).
Proof. intros w H. exact H. Qed.

Lemma preserves_bind {A B} (m : M O A) (k : A -> M O B) :
  preserves P m -> (forall a, preserves P (k a)) -> preserves P (bind m k).
Proof.
  intros Hm Hk w H. unfold bind. specialize (Hm w H).
  destruct (m w) as [[a|e] w1]; simpl in *; [apply Hk; exact Hm | exact Hm].
Qed.

Lemma preserves_for_each {A} (xs : list A) (body : A -> M O unit) :
  (forall x, preserves P (body x)) -> preserves P (for_each xs body).
Proof.
  intros H. induction xs; simpl; [apply preserves_ret|].
  apply preserves_bind; auto.
Qed.

Lemma preserves_modify (f : O -> O) : (forall o, P o -> P (f o)) -> preserves P (modify f).
Proof. intros Hf w H. simpl. now apply Hf. Qed.

Lemma preserves_frames {X A} (F : O -> X) (m : M O A) :
  frames F m -> (forall o o', F o' = F o -> P o -> P o') -> preserves P m.
Proof. intros Hm HP w H. destruct (Hm w) as [_ E]. exact (HP _ _ E H). Qed.

Lemma preserves_zoom {S A} (Q : S -> Prop) (getp : O -> S) (setp : S -> O -> O)
      (m : M S A) :
  preserves Q m ->
  (forall o, P o -> Q (getp o)) ->
  (forall o p', P o -> Q p' -> P (setp p' o)) ->
  preserves P (zoom getp setp m).
Proof.
  intros Hm Hget Hset w H. unfold zoom.
  specialize (Hm (mkWorld (log w) (getp (objs w))) (Hget _ H)).
  destruct (m _) as [r w1]. simpl in *. now apply Hset.
Qed.
End Preserves.

Lemma set_add_NoDup x s : NoDup s -> NoDup (set_add x s).
Proof.
  intros H. unfold set_add. destruct (existsb (String.eqb x) s) eqn:E; [exact H|].
  apply NoDup_app; [exact H | constructor; [intros []|constructor] |].
  intros y Hy [<-|[]].
  assert (Hex : existsb (String.eqb x) s = true)
    by (apply existsb_exists; exists x; split; [exact Hy | apply String.eqb_refl]).
  congruence.
Qed.

Section IndexDistinct.
Context {D : AnalysisDeps}.

Lemma frames_fieldList_exprFS path : frames fieldList (fs_lookup ResultSpace.exprFS path).
Proof.
  simpl. apply frames_bind; [| intros; apply frames_ret].
  unfold ResultSpace.onExprSpace.
  apply (frames_zoom _ nothing); [reflexivity | frame_auto].
Qed.

Lemma frames_fieldList_onSpace {A} (m : M DynamicSpace A) :
  frames nothing m -> frames fieldList (ResultSpace.onSpace m).
Proof.
  intros H. unfold ResultSpace.onSpace. apply (frames_zoom _ nothing); [reflexivity | exact H].
Qed.

Lemma distinct_of_frames {A} (m : M ResultSpace A) :
  frames fieldList m -> preserves (fun r => NoDup (fieldList r)) m.
Proof.
  intros H. apply (preserves_frames _ fieldList); [exact H|].
  intros o o' E Ho. now rewrite E.
Qed.

Lemma distinct_addReference r :
  preserves (fun r => NoDup (fieldList r)) (ResultSpace.addReference r).
Proof.
  intros w H. unfold ResultSpace.addReference.
  rewrite bind_ok with (a := objs w) (w' := w) by reflexivity.
  destruct (segmentType (objs w)).
  - apply distinct_of_frames; [|exact H].
    apply frames_bind; [apply frames_fieldList_onSpace; frame_auto|].
    intros [e|]; [apply frames_log_at | apply frames_fieldList_onSpace; frame_auto].
  - apply distinct_of_frames; [|exact H].
    apply frames_bind; [apply frames_fieldList_onSpace; frame_auto|].
    intros [e|]; [apply frames_log_at | apply frames_fieldList_onSpace; frame_auto].
  - unfold bind.
    destruct (SpaceEntry.FieldReference_getField r ResultSpace.exprFS w) as [[lv|e] w1] eqn:E;
      destruct (frames_run _ _ _ _ _ (frames_fieldList_exprFS (fr_list r)) E) as [_ Hf].
    + destruct (lv_found lv); simpl.
      * now apply set_add_NoDup.
      * now rewrite Hf.
    + simpl. now rewrite Hf.
Qed.

Lemma distinct_addWild x :
  preserves (fun r => NoDup (fieldList r)) (ResultSpace.addWild x).
Proof.
  intros w H. unfold ResultSpace.addWild.
  rewrite bind_ok with (a := objs w) (w' := w) by reflexivity.
  destruct (segmentType (objs w)); try (simpl; now apply set_add_NoDup);
    (apply distinct_of_frames; [apply frames_fieldList_onSpace; frame_auto | exact H]).
Qed.

Lemma distinct_addMembers l :
  preserves (fun r => NoDup (fieldList r)) (ResultSpace.addMembers l).
Proof.
  unfold ResultSpace.addMembers. apply preserves_for_each. intros [r|x|d].
  - apply distinct_addReference.
  - apply distinct_addWild.
  - apply distinct_of_frames. apply frames_fieldList_onSpace. frame_auto.
Qed.

Lemma distinct_index_getPipeSegment rf (w w' : World ResultSpace) seg :
  NoDup (fieldList (objs w)) ->
  ResultSpace.index_getPipeSegment rf w = (Ok seg, w') ->
  NoDup (seg_fields_index seg).
Proof.
  intros H Hrun. rewrite (index_getPipeSegment_fresh _ _ _ _ Hrun). simpl.
  assert (Hp : preserves (fun r => NoDup (fieldList r))
                         (ResultSpace.index_getPipeSegment rf)).
  { unfold ResultSpace.index_getPipeSegment.
    apply preserves_bind.
    - destruct rf as [ri|]; [|apply preserves_ret].
      apply preserves_for_each. intros [s|f|d]; try apply preserves_ret.
      intros w0 H0. simpl. now apply set_add_NoDup.
    - intros _. apply preserves_bind.
      + apply distinct_of_frames. apply frames_fieldList_onSpace. frame_auto.
      + intros _. apply preserves_bind; [apply distinct_of_frames; apply frames_get|].
        intros this. apply preserves_ret. }
  specialize (Hp w H). now rewrite Hrun in Hp.
Qed.

Lemma distinct_IndexExecutor_onResultFS {A} (m : M ResultSpace A) :
  preserves (fun r => NoDup (fieldList r)) m ->
  preserves (fun o => NoDup (fieldList (ie_resultFS o))) (IndexExecutor.onResultFS m).
Proof.
  intros H. unfold IndexExecutor.onResultFS.
  apply (preserves_zoom _ (fun r => NoDup (fieldList r))); [exact H | auto | auto].
Qed.

Lemma frames_fieldList_IndexExecutor_inputFS path :
  frames (fun o => fieldList (ie_resultFS o)) (fs_lookup IndexExecutor.inputFS path).
Proof.
  simpl. unfold IndexExecutor.onResultFS.
  apply (frames_zoom _ fieldList); [intros o p' E; exact E | apply frames_fieldList_exprFS].
Qed.

Lemma distinct_IndexExecutor_execute qp :
  preserves (fun o => NoDup (fieldList (ie_resultFS o))) (IndexExecutor.execute qp).
Proof.
  assert (Hfr : forall A (m : M IndexExecutor A),
             frames (fun o => fieldList (ie_resultFS o)) m ->
             preserves (fun o => NoDup (fieldList (ie_resultFS o))) m).
  { intros A m H. apply (preserves_frames _ (fun o => fieldList (ie_resultFS o)));
      [exact H|]. intros o o' E Ho. now rewrite E. }
  destruct qp as [o|t|l|f|i|s|id js|id kind ds|id ms|qi|id qs|id qs|id qs];
    unfold IndexExecutor.execute; try apply preserves_log_at.
  - apply Hfr. apply frames_bind; [apply frames_get|]. intros this.
    apply frames_bind; [destruct (ie_limit this); [apply frames_log_at | apply frames_ret]|].
    intros _. now apply frames_modify.
  - apply Hfr. apply frames_bind.
    + apply frames_getFilterList. apply frames_fieldList_IndexExecutor_inputFS.
    + intros fl. now apply frames_modify.
  - apply preserves_bind.
    + apply distinct_IndexExecutor_onResultFS. apply distinct_addMembers.
    + intros _. destruct (idx_weightBy i); [|apply preserves_ret].
      apply Hfr. apply frames_bind; [apply frames_get|]. intros this.
      apply frames_bind;
        [destruct (ie_indexOn this); [apply frames_log_at | apply frames_ret]|].
      intros _. now apply frames_modify.
  - apply Hfr. now apply frames_modify.
Qed.

(** The fields of the index segment an index executor builds are
    distinct, whatever properties it executed and whatever segment it
    refines, when the field set it started with lists no name twice (as
    the empty set of a new executor does). *)
Theorem IndexExecutor_fields_distinct
        (props : list QueryProperty) (from : option PipeSegment)
        (w w' : World IndexExecutor) (seg : PipeSegment) :
  NoDup (fieldList (ie_resultFS (objs w))) ->
  IndexExecutor.run props from w = (Ok seg, w') ->
  NoDup (seg_fields_index seg).
Proof.
  intros H Hrun. unfold IndexExecutor.run in Hrun.
  bind_split Hrun as u w1 E1.
  pose proof (preserves_for_each _ props _ distinct_IndexExecutor_execute w H) as H1.
  rewrite E1 in H1. simpl in H1.
  unfold IndexExecutor.finalize in Hrun.
  match type of Hrun with
  | (if ?c then _ else _) _ = _ => destruct c
  end.
  - bind_split Hrun as u2 w2 E2. inversion Hrun; subst. constructor.
  - bind_split Hrun as s0 w2 E2. bind_split Hrun as this w3 E3.
    inversion Hrun; subst seg. clear Hrun.
    assert (K0 : NoDup (seg_fields_index s0)).
    { unfold IndexExecutor.onResultFS, zoom in E2.
      destruct (ResultSpace.index_getPipeSegment from _) as [r wr] eqn:Eq.
      inversion E2; subst.
      exact (distinct_index_getPipeSegment from (mkWorld (log w1) (ie_resultFS (objs w1)))
               _ _ H1 Eq). }
    assert (Hset : forall s, NoDup (seg_fields_index s) ->
                   (forall l, NoDup (seg_fields_index (seg_set_filterList s l)))
                   /\ (forall l, NoDup (seg_fields_index (seg_set_limit s l)))
                   /\ (forall x, NoDup (seg_fields_index (seg_set_weightMeasure s x)))
                   /\ (forall x, NoDup (seg_fields_index (seg_set_sample s x))))
      by (intros s Hs; destruct s; repeat split; intros; exact Hs).
    repeat match goal with
           | |- context [match ?x with _ => _ end] => destruct x
           end;
      repeat first [ apply Hset | exact K0 ].
Qed.
End IndexDistinct.

Lemma IndexExecutor_fields_distinct_witness : NoDup (seg_fields_index indexTwiceSegment).
Proof.
  refine (IndexExecutor_fields_distinct (D:=sampleAnalysisDeps) indexTwice
            (Some existingIndex) indexWorld0 indexTwiceWorld indexTwiceSegment _
            ltac:(vm_compute; reflexivity)).
  constructor.
Defined.

(** ** Reduce and project segments: the first limit that is not zero *)

Lemma heldReduceLimit_held cur ls :
  truthy_opt_number cur = true -> heldReduceLimit cur ls = cur.
Proof.
  unfold heldReduceLimit. revert cur. induction ls as [|n r IH]; intros cur H; simpl;
    [reflexivity|].
  rewrite H. now apply IH.
Qed.

Lemma heldReduceLimit_first cur ls :
  truthy_opt_number cur = false ->
  heldReduceLimit cur ls
  = match find truthy_number ls with
    | Some n => Some n
    | None => last (map Some ls) cur
    end.
Proof.
  revert cur. induction ls as [|n r IH]; intros cur H; [reflexivity|].
  unfold heldReduceLimit. cbn [fold_left find]. rewrite H.
  fold (heldReduceLimit (Some n) r).
  destruct (truthy_number n) eqn:En.
  - now apply heldReduceLimit_held.
  - rewrite IH by exact En. cbn [map]. now rewrite last_cons.
Qed.

Section ReduceLimit.
Context {D : AnalysisDeps}.

Lemma takeLimit_run el n (w w1 : World ReduceExecutor) r :
  ReduceExecutor.takeLimit el n w = (r, w1) ->
  re_limit (objs w1)
  = if truthy_opt_number (re_limit (objs w)) then re_limit (objs w) else Some n.
Proof.
  unfold ReduceExecutor.takeLimit, bind, get.
  destruct (truthy_opt_number (re_limit (objs w))); intros [= _ <-]; reflexivity.
Qed.

Lemma frames_limit_onResultFS {A} (m : M ResultSpace A) :
  frames nothing m -> frames re_limit (ReduceExecutor.onResultFS m).
Proof.
  intros H. unfold ReduceExecutor.onResultFS.
  apply (frames_zoom _ nothing); [reflexivity | exact H].
Qed.

Lemma frames_limit_order (el : ElementId) msg (o : OrderSource) :
  frames re_limit
         (this <- get ;;
          match re_order this with
          | Some _ => log_at el msg
          | None => ReduceExecutor.set_order o
          end).
Proof.
  apply frames_bind; [apply frames_get|]. intros this.
  destruct (re_order this); [apply frames_log_at|].
  unfold ReduceExecutor.set_order. now apply frames_modify.
Qed.

Lemma execute_limit_step qp (w w1 : World ReduceExecutor) r :
  ReduceExecutor.execute qp w = (r, w1) ->
  re_limit (objs w1) = heldReduceLimit (re_limit (objs w)) (reduceLimitsOf [qp]).
Proof.
  assert (Hfr : frames re_limit (ReduceExecutor.execute qp) ->
                ReduceExecutor.execute qp w = (r, w1) ->
                re_limit (objs w1) = re_limit (objs w)).
  { intros Hf E. destruct (frames_run _ _ _ _ _ Hf E) as [_ Hl]. exact Hl. }
  destruct qp as [o|t|l|f|i|s|id js|id kind ds|id ms|qi|id qs|id qs|id qs];
    unfold reduceLimitsOf, heldReduceLimit; cbn [flat_map app fold_left];
    try (apply Hfr; unfold ReduceExecutor.execute; try apply frames_ret;
         try (apply frames_limit_onResultFS; frame_auto)).
  - apply frames_limit_order.
  - unfold ReduceExecutor.execute. intros H. unfold bind in H.
    destruct (ReduceExecutor.takeLimit (top_id t) (top_limit t) w) as [[u|e] wt] eqn:Et.
    + pose proof (takeLimit_run _ _ _ _ _ Et) as Hl. rewrite <- Hl.
      assert (Hf : frames re_limit
                          (match top_by t with
                           | Some _ =>
                               this <- get ;;
                               match re_order this with
                               | Some _ => log_at (top_id t) "Query operation is already sorted"
                               | None => ReduceExecutor.set_order (OrderTop t)
                               end
                           | None => ret tt
                           end)).
      { destruct (top_by t); [apply frames_limit_order | apply frames_ret]. }
      destruct (frames_run _ _ _ _ _ Hf H) as [_ Hk]. exact Hk.
    + inversion H; subst. exact (takeLimit_run _ _ _ _ _ Et).
  - unfold ReduceExecutor.execute. apply takeLimit_run.
  - apply frames_bind.
    + apply frames_getFilterList. intros p. simpl. apply frames_limit_onResultFS.
      apply frames_exprFS.
    + intros fl. unfold ReduceExecutor.push_filters. now apply frames_modify.
  - apply frames_for_each. intros j. apply frames_limit_onResultFS. frame_auto.
  - apply frames_for_each. intros j. apply frames_limit_onResultFS. frame_auto.
Qed.

Lemma execute_all_limits props :
  forall (w w' : World ReduceExecutor),
    for_each props ReduceExecutor.execute w = (Ok tt, w') ->
    re_limit (objs w') = heldReduceLimit (re_limit (objs w)) (reduceLimitsOf props).
Proof.
  induction props as [|qp rest IH]; intros w w' H.
  - now inversion H.
  - cbn [for_each] in H. bind_split H as u w1 E1.
    rewrite (IH _ _ H), (execute_limit_step _ _ _ _ E1).
    unfold heldReduceLimit, reduceLimitsOf. cbn [flat_map].
    now rewrite app_nil_r, fold_left_app.
Qed.

(** A reduce (or project) executor that holds no limit and executes a
    list of properties ends up holding the first limit that is not zero
    among those of the [limit:] and [top:] properties, in order; when all
    of them are zero it holds the last of them, and when there is none it
    holds no limit. *)
Theorem ReduceExecutor_first_limit_wins
        (props : list QueryProperty) (w w' : World ReduceExecutor) :
  re_limit (objs w) = None ->
  for_each props ReduceExecutor.execute w = (Ok tt, w') ->
  re_limit (objs w')
  = match find truthy_number (reduceLimitsOf props) with
    | Some n => Some n
    | None => last (map Some (reduceLimitsOf props)) None
    end.
Proof.
  intros Hnone H. rewrite (execute_all_limits _ _ _ H), Hnone.
  now apply heldReduceLimit_first.
Qed.
End ReduceLimit.

(** [limit: 0], [top: 5], [limit: 7]: the executor holds 5. *)
Lemma ReduceExecutor_first_limit_wins_witness :
  re_limit (objs zeroThenLimitsWorld)
  = match find truthy_number (reduceLimitsOf zeroThenLimits) with
    | Some n => Some n
    | None => last (map Some (reduceLimitsOf zeroThenLimits)) None
    end.
Proof.
  exact (ReduceExecutor_first_limit_wins (D:=sampleAnalysisDeps) zeroThenLimits
           reduceWorld0 zeroThenLimitsWorld eq_refl ltac:(vm_compute; reflexivity)).
Defined.

(** ** Reduce and project segments: the first ordering *)

Section ReduceOrder.
Context {D : AnalysisDeps}.

Lemma frames_order_onResultFS {A} (m : M ResultSpace A) :
  frames nothing m -> frames re_order (ReduceExecutor.onResultFS m).
Proof.
  intros H. unfold ReduceExecutor.onResultFS.
  apply (frames_zoom _ nothing); [reflexivity | exact H].
Qed.

Lemma takeOrder_run el msg o (w w1 : World ReduceExecutor) :
  (this <- get ;;
   match re_order this with
   | Some _ => log_at el msg
   | None => ReduceExecutor.set_order o
   end) w = (Ok tt, w1) ->
  re_order (objs w1) = match re_order (objs w) with Some c => Some c | None => Some o end.
Proof.
  unfold bind, get. destruct (re_order (objs w)) eqn:E; intros [= <-]; simpl; auto.
Qed.

Lemma execute_order_step qp (w w1 : World ReduceExecutor) :
  ReduceExecutor.execute qp w = (Ok tt, w1) ->
  re_order (objs w1)
  = match re_order (objs w) with Some c => Some c | None => orderOfProperty qp end.
Proof.
  assert (Hfr : frames re_order (ReduceExecutor.execute qp) ->
                ReduceExecutor.execute qp w = (Ok tt, w1) ->
                re_order (objs w1)
                = match re_order (objs w) with Some c => Some c | None => None end).
  { intros Hf E. destruct (frames_run _ _ _ _ _ Hf E) as [_ Hl]. rewrite Hl.
    now destruct (re_order (objs w)). }
  assert (Htake : forall el n, frames re_order (ReduceExecutor.takeLimit el n)).
  { intros el n. unfold ReduceExecutor.takeLimit.
    apply frames_bind; [apply frames_get|]. intros this.
    destruct (truthy_opt_number (re_limit this)); [apply frames_log_at|].
    unfold ReduceExecutor.set_limit. now apply frames_modify. }
  destruct qp as [o|t|l|f|i|s|id js|id kind ds|id ms|qi|id qs|id qs|id qs];
    unfold orderOfProperty;
    try (apply Hfr; unfold ReduceExecutor.execute; try apply frames_ret;
         try (apply frames_order_onResultFS; frame_auto)).
  - unfold ReduceExecutor.execute. apply takeOrder_run.
  - unfold ReduceExecutor.execute. intros H. bind_split H as u wt Et.
    destruct (frames_run _ _ _ _ _ (Htake _ _) Et) as [_ Hk]. rewrite <- Hk.
    destruct (top_by t).
    + destruct u. now apply takeOrder_run in H.
    + inversion H; subst. now destruct (re_order (objs w1)).
  - apply Htake.
  - apply frames_bind.
    + apply frames_getFilterList. intros p. simpl. apply frames_order_onResultFS.
      apply frames_exprFS.
    + intros fl. unfold ReduceExecutor.push_filters. now apply frames_modify.
  - apply frames_for_each. intros j. apply frames_order_onResultFS. frame_auto.
  - apply frames_for_each. intros j. apply frames_order_onResultFS. frame_auto.
Qed.

Lemma execute_all_orders props :
  forall (w w' : World ReduceExecutor),
    for_each props ReduceExecutor.execute w = (Ok tt, w') ->
    re_order (objs w')
    = match re_order (objs w) with Some c => Some c | None => firstOrder props end.
Proof.
  induction props as [|qp rest IH]; intros w w' H.
  - inversion H; subst. now destruct (re_order (objs w')).
  - cbn [for_each] in H. bind_split H as u w1 E1. destruct u.
    rewrite (IH _ _ H), (execute_order_step _ _ _ E1). cbn [firstOrder].
    destruct (re_order (objs w)); [reflexivity|]. now destruct (orderOfProperty qp).
Qed.

(** A reduce (or project) executor that holds no ordering and executes a
    list of properties ends up holding the first ordering among them (an
    [order_by:], or a [top:] that has a [by]); the later ones are only
    logged against. *)
Theorem ReduceExecutor_first_order_wins
        (props : list QueryProperty) (w w' : World ReduceExecutor) :
  re_order (objs w) = None ->
  for_each props ReduceExecutor.execute w = (Ok tt, w') ->
  re_order (objs w') = firstOrder props.
Proof. intros Hnone H. now rewrite (execute_all_orders _ _ _ H), Hnone. Qed.
End ReduceOrder.

(** [top: 5 by carrier], [order_by: 1 desc]: the executor holds the top. *)
Lemma ReduceExecutor_first_order_wins_witness :
  re_order (objs topThenOrderWorld) = firstOrder topThenOrder.
Proof.
  exact (ReduceExecutor_first_order_wins (D:=sampleAnalysisDeps) topThenOrder
           reduceWorld0 topThenOrderWorld eq_refl ltac:(vm_compute; reflexivity)).
Defined.

(** ** References in a result space *)

Section AddReference.
Context {D : AnalysisDeps}.

Lemma onSpace_run {A} (m : M DynamicSpace A) (w : World ResultSpace) r wd :
  m (mkWorld (log w) (rs_space (objs w))) = (r, wd) ->
  ResultSpace.onSpace m w
  = (r, mkWorld (log wd)
                (mkResultSpace (objs wd) (exprSpace (objs w)) (astEl (objs w))
                               (segmentType (objs w)) (fieldList (objs w)))).
Proof. intros H. unfold ResultSpace.onSpace, zoom. now rewrite H. Qed.

End AddReference.

